(** * Sonification of music annotations

    A shallow embedding of [mir_eval/sonify.py]: [clicks], [time_frequency],
    [_fast_synthesize], [pitch_contour] and [chroma], with the NumPy and
    SciPy primitives they call.  [chords] is not embedded: what it does lies
    in [chord.encode_many] and [util.validate_intervals], and it ends in a
    call of [chroma].

    Number model.  The inputs of the program are IEEE doubles; every finite
    double is a rational, so times, magnitudes, frequencies and thresholds
    are taken in [Q] and the arithmetic on them is exact.  Values that go
    through [sin], [exp], [pi] or a power (waveforms, phases, output samples,
    the weights and frequencies of [chroma]) live in [R].  Rounding error of
    floating point is therefore outside the model.
    Python [int]s ([fs], [length], [n_dec]) are [Z]. *)

From Stdlib Require Import ZArith QArith Qround Qminmax Qabs Qreals Reals Lqa Lra Lia
  List Bool Sorted Permutation.
Import ListNotations.

Set Implicit Arguments.

(** ** Exceptions and results *)

Module Py.

(** The exceptions the modelled code can raise.  [ShapeMismatch] is the
    [ValueError] that [time_frequency] raises itself; the others are raised
    by Python, NumPy or SciPy. *)
Inductive exn : Type :=
| ShapeMismatch          (* raise ValueError("... is incompatible with gram.shape ...") *)
| ZeroSizeReduction      (* ValueError: zero-size array to reduction operation *)
| NegativeDimensions     (* ValueError: negative dimensions are not allowed *)
| BroadcastError         (* ValueError: operands could not be broadcast together *)
| InterpError            (* ValueError raised by scipy.interpolate.interp1d *)
| ConvolveError          (* ValueError raised by scipy.signal.convolve on an empty operand *)
| IndexError
| ZeroDivisionError
| OverflowError.

Inductive result (A : Type) : Type :=
| Ok : A -> result A
| Error : exn -> result A.

Arguments Ok {A} _.
Arguments Error {A} _.

Definition bind {A B : Type} (m : result A) (k : A -> result B) : result B :=
  match m with
  | Ok a => k a
  | Error e => Error e
  end.

Definition is_ok {A : Type} (m : result A) : bool :=
  match m with Ok _ => true | Error _ => false end.

End Py.

Import Py.

Notation "x <- m ;; k" := (bind m (fun x => k))
  (at level 61, m at next level, right associativity).
Notation "'assert' b 'else' e ;; k" := (if b then k else Error e)
  (at level 61, b at next level, e at next level, right associativity).

(** ** NumPy primitives *)

Module Np.

#[local] Open Scope Q_scope.

(** Python's [int(x)] on a float: truncation towards zero. *)
Definition int (x : Q) : Z := Z.quot (Qnum x) (Zpos (Qden x)).

(** [float(n)] and the implicit promotion of an [int] in float arithmetic. *)
Definition float (n : Z) : Q := inject_Z n.

(** [10.0 ** n] for an integer exponent. *)
Definition pow10 (n : Z) : Q :=
  if (0 <=? n)%Z then inject_Z (10 ^ n) else 1 / inject_Z (10 ^ (- n)).

(** [np.rint]: round to the nearest integer, ties to even. *)
Definition rint (x : Q) : Z :=
  let f := Qfloor x in
  match Qcompare (x - inject_Z f) (1 # 2) with
  | Lt => f
  | Gt => (f + 1)%Z
  | Eq => if Z.even f then f else (f + 1)%Z
  end.

(** [np.round(x, decimals)]: scale, [rint], scale back. *)
Definition round (x : Q) (decimals : Z) : Q :=
  if (0 <=? decimals)%Z
  then inject_Z (rint (x * pow10 decimals)) / pow10 decimals
  else inject_Z (rint (x / pow10 (- decimals))) * pow10 (- decimals).

(** [np.arange(n)] for an integer [n]: the indices [0 .. n-1] (empty when
    [n <= 0]). *)
Definition arange (n : Z) : list nat := seq 0 (Z.to_nat n).

(** [np.arange(stop)] for a float [stop]: [ceil(stop)] indices. *)
Definition arange_float (stop : Q) : list nat := seq 0 (Z.to_nat (Qceiling stop)).

(** [np.zeros(n)]; a negative [n] raises. *)
Definition zeros (n : Z) : result (list R) :=
  assert (0 <=? n)%Z else NegativeDimensions ;;
  Ok (repeat 0%R (Z.to_nat n)).

(** [len(a)] as a Python int. *)
Definition len {A : Type} (a : list A) : Z := Z.of_nat (length a).

(** A two-dimensional view made by [as_strided] over a one-dimensional
    buffer: element [(r, c)] is [base[r * stride0 + c * stride1]], strides
    counted in items. *)
Record strided : Type := as_strided {
  base : list R;
  shape0 : nat;
  shape1 : nat;
  stride0 : nat;
  stride1 : nat
}.

(** [view.flat]: the view read as one long buffer in row-major order. *)
Definition flat_size (v : strided) : nat := (shape0 v * shape1 v)%nat.

Definition flat_get (v : strided) (i : nat) : option R :=
  if (i <? flat_size v)%nat
  then nth_error (base v)
         ((i / shape1 v) * stride0 v + (i mod shape1 v) * stride1 v)%nat
  else None.

(** [view.flat[:n]] for [n >= 0]: the first [min n size] items, copied. *)
Fixpoint flat_collect (v : strided) (start count : nat) : list R :=
  match count with
  | O => []
  | S c =>
      match flat_get v start with
      | Some x => x :: flat_collect v (S start) c
      | None => []
      end
  end.

Definition flat_take (v : strided) (n : Z) : list R :=
  flat_collect v 0 (Nat.min (Z.to_nat n) (flat_size v)).

(** Python slice bounds on a sequence of length [n]: a negative bound counts
    from the end, and every bound is clamped into [0 .. n]. *)
Definition slice_bound (n b : Z) : Z :=
  if (b <? 0)%Z then Z.max (b + n) 0 else Z.min b n.

(** [a[start:stop]] selects [count] items from index [first]. *)
Definition slice_range (n : Z) (start stop : option Z) : nat * nat :=
  let s := match start with None => 0%Z | Some b => slice_bound n b end in
  let e := match stop with None => n | Some b => slice_bound n b end in
  (Z.to_nat s, Z.to_nat (e - s)).

Definition getslice {A : Type} (a : list A) (start stop : option Z) : list A :=
  let '(s, c) := slice_range (len a) start stop in
  firstn c (skipn s a).

(** [a[start:stop] = v]: [v] must have the length of the slice, or length 1
    (it is then broadcast); anything else raises. *)
Definition setslice (a : list R) (start stop : option Z) (v : list R)
  : result (list R) :=
  let '(s, c) := slice_range (len a) start stop in
  if (length v =? c)%nat then Ok (firstn s a ++ v ++ skipn (s + c) a)
  else if (length v =? 1)%nat
       then Ok (firstn s a ++ repeat (hd 0%R v) c ++ skipn (s + c) a)
       else Error BroadcastError.

(** [a[i]] with Python's negative indices. *)
Definition getitem {A : Type} (a : list A) (i : Z) : result A :=
  let j := if (i <? 0)%Z then (i + len a)%Z else i in
  if (j <? 0)%Z then Error IndexError
  else match nth_error a (Z.to_nat j) with
       | Some x => Ok x
       | None => Error IndexError
       end.

(** [a[mask]] for a boolean mask of the length of [a]. *)
Fixpoint compress {A : Type} (mask : list bool) (a : list A) : list A :=
  match mask, a with
  | b :: mask', x :: a' => if b then x :: compress mask' a' else compress mask' a'
  | _, _ => []
  end.

(** [a.max()] and [a.min()]: reductions without identity, an empty array
    raises. *)
Definition amax (a : list Q) : result Q :=
  match a with
  | [] => Error ZeroSizeReduction
  | x :: r => Ok (fold_left Qmax r x)
  end.

Definition amin (a : list Q) : result Q :=
  match a with
  | [] => Error ZeroSizeReduction
  | x :: r => Ok (fold_left Qmin r x)
  end.

Definition amaxR (a : list R) : result R :=
  match a with
  | [] => Error ZeroSizeReduction
  | x :: r => Ok (fold_left Rmax r x)
  end.

(** [np.clip(x, lo, hi)] is [minimum(hi, maximum(x, lo))]. *)
Definition clip (x lo hi : Q) : Q := Qmin hi (Qmax x lo).

Definition clipZ (x lo hi : Z) : Z := Z.min hi (Z.max x lo).

(** Strict comparison of floats as a boolean. *)
Definition Qltb (x y : Q) : bool := negb (Qle_bool y x).

(** [np.cumsum]. *)
Fixpoint cumsum_from (acc : R) (a : list R) : list R :=
  match a with
  | [] => []
  | x :: r => (acc + x)%R :: cumsum_from (acc + x)%R r
  end.

Definition cumsum (a : list R) : list R := cumsum_from 0%R a.

(** Elementwise product of two one-dimensional arrays under NumPy
    broadcasting: equal lengths, or one operand of length 1. *)
Definition broadcast2 {A B C : Type} (f : A -> B -> C) (a : list A) (b : list B)
  : result (list C) :=
  if (length a =? length b)%nat then Ok (map (fun p => f (fst p) (snd p)) (combine a b))
  else match a, b with
       | [x], _ => Ok (map (f x) b)
       | _, [y] => Ok (map (fun x => f x y) a)
       | _, _ => Error BroadcastError
       end.

(** [output[:] += v]: [v] is broadcast to the shape of [output]. *)
Definition iadd (output v : list R) : result (list R) :=
  if (length v =? length output)%nat
  then Ok (map (fun p => (fst p + snd p)%R) (combine output v))
  else match v with
       | [y] => Ok (map (fun x => (x + y)%R) output)
       | _ => Error BroadcastError
       end.

(** A two-dimensional float array, row by row; [ncols] is [shape[1]], which
    an array keeps even when it has no row. *)
Record matrix : Type := mk_matrix {
  ncols : nat;
  rows : list (list Q)
}.

Definition nrows (g : matrix) : nat := length (rows g).

Definition wf_matrix (g : matrix) : Prop :=
  Forall (fun r => length r = ncols g) (rows g).

(** [np.pad(g, ((0, 0), (before, after)), mode="constant")]. *)
Definition pad_columns (g : matrix) (before after : nat) : matrix :=
  mk_matrix (before + ncols g + after)
    (map (fun r => repeat 0 before ++ r ++ repeat 0 after) (rows g)).

Definition count_true (mask : list bool) : nat := length (filter (fun b => b) mask).

(** [g[:, mask]] and [g[mask, :]]. *)
Definition select_columns (g : matrix) (mask : list bool) : matrix :=
  mk_matrix (count_true mask) (map (compress mask) (rows g)).

Definition select_rows (g : matrix) (mask : list bool) : matrix :=
  mk_matrix (ncols g) (compress mask (rows g)).

(** [np.maximum(g, 0)]. *)
Definition maximum0 (g : matrix) : matrix :=
  mk_matrix (ncols g) (map (map (fun x => Qmax x 0)) (rows g)).

(** [np.max(g, axis=1)]. *)
Fixpoint amax_axis1 (rs : list (list Q)) : result (list Q) :=
  match rs with
  | [] => Ok []
  | r :: rs' => m <- amax r ;; ms <- amax_axis1 rs' ;; Ok (m :: ms)
  end.

(** [g[:, 0]]. *)
Fixpoint column0 (rs : list (list Q)) : result (list Q) :=
  match rs with
  | [] => Ok []
  | r :: rs' => x <- getitem r 0 ;; xs <- column0 rs' ;; Ok (x :: xs)
  end.

(** [np.tile(v, (1, reps))] for a one-dimensional [v]: [v] is promoted to
    shape [(1, len v)] and repeated along the last axis, giving ONE row of
    [reps * len v] items. *)
Definition tile_1_by (v : list Q) (reps : Z) : list (list Q) :=
  [concat (repeat v (Z.to_nat reps))].

(** [np.finfo(np.float64).tiny], the smallest positive normal double. *)
Definition tiny : R := (/ 2 ^ 1022)%R.

(** Arithmetic shared by float arrays whose entries are modelled in [Q] and
    those modelled in [R]. *)
Class Float (V : Type) : Type := {
  of_Q : Q -> V;
  fadd : V -> V -> V;
  fsub : V -> V -> V;
  fmul : V -> V -> V;
  fdiv : V -> V -> V
}.

#[global] Instance Float_Q : Float Q :=
  {| of_Q := fun q => q; fadd := Qplus; fsub := Qminus; fmul := Qmult; fdiv := Qdiv |}.

#[global] Instance Float_R : Float R :=
  {| of_Q := Q2R; fadd := Rplus; fsub := Rminus; fmul := Rmult; fdiv := Rdiv |}.

End Np.

(** ** SciPy primitives *)

Module Scipy.

Import Np.

#[local] Open Scope Q_scope.

(** The interpolation kinds modelled here, of those [interp1d] accepts. *)
Inductive kind : Type := Linear | Previous | Next.

(** [interp1d] sorts its sample points (stable sort on [x], [y] reordered
    alike). *)
Fixpoint insert_by_x {V : Type} (p : Q * V) (l : list (Q * V)) : list (Q * V) :=
  match l with
  | [] => [p]
  | q :: r => if Qle_bool (fst p) (fst q) then p :: q :: r else q :: insert_by_x p r
  end.

Definition sort_by_x {V : Type} (l : list (Q * V)) : list (Q * V) :=
  fold_right insert_by_x [] l.

(** [np.searchsorted(a, v, side)] on a sorted [a]: the insertion index. *)
Fixpoint searchsorted_left (a : list Q) (v : Q) : nat :=
  match a with
  | [] => O
  | x :: r => if Qltb x v then S (searchsorted_left r v) else O
  end.

Fixpoint searchsorted_right (a : list Q) (v : Q) : nat :=
  match a with
  | [] => O
  | x :: r => if Qle_bool x v then S (searchsorted_right r v) else O
  end.

Section Interp1d.

Context {V : Type} `{Float V}.

(** Item [i] of an array with Python's wrap-around for a negative index;
    [interp1d] only builds indices within range. *)
Definition item {A : Type} (a : list A) (i : Z) (d : A) : A :=
  nth (Z.to_nat (if (i <? 0)%Z then (i + len a)%Z else i)) a d.

(** The value at [x_new] before the bounds are looked at. *)
Definition interp_call (k : kind) (x : list Q) (y : list V) (d : V) (x_new : Q) : V :=
  let n := len x in
  match k with
  | Linear =>
      let hi := clipZ (Z.of_nat (searchsorted_left x x_new)) 1 (n - 1) in
      let lo := (hi - 1)%Z in
      let x_lo := item x lo 0 in
      let x_hi := item x hi 0 in
      let y_lo := item y lo d in
      let y_hi := item y hi d in
      let slope := fdiv (fsub y_hi y_lo) (of_Q (x_hi - x_lo)) in
      fadd (fmul slope (of_Q (x_new - x_lo))) y_lo
  | Previous =>
      let i := clipZ (Z.of_nat (searchsorted_right x x_new)) 1 n in
      item y (i - 1) d
  | Next =>
      let i := clipZ (Z.of_nat (searchsorted_left x x_new)) 0 (n - 1) in
      item y i d
  end.

(** [interp1d(x, y, kind=k, bounds_error=False, fill_value=(below, above))]:
    the interpolator, to be called on a new point.  Outside [x[0], x[-1]] the
    fill values are returned. *)
Definition interp1d (x : list Q) (y : list V) (k : kind) (fill_value : V * V)
  : result (Q -> V) :=
  assert (length x =? length y)%nat else InterpError ;;
  assert (1 <=? length x)%nat else InterpError ;;
  let xy := sort_by_x (combine x y) in
  let xs := map fst xy in
  let ys := map snd xy in
  let d := fst fill_value in
  Ok (fun x_new =>
        if Qltb x_new (hd 0 xs) then fst fill_value
        else if Qltb (last xs 0) x_new then snd fill_value
        else interp_call k xs ys d x_new).

End Interp1d.

(** Item [k] of the full discrete convolution of [a] and [b]. *)
Definition conv_at (a b : list Q) (k : nat) : Q :=
  fold_right Qplus 0
    (map (fun j => if (j <=? k)%nat then nth j a 0 * nth (k - j) b 0 else 0)
         (seq 0 (length a))).

(** [scipy.signal.convolve(a, b, mode="same")]: the centred part of the
    full convolution, of the length of [a]. *)
Definition convolve_same (a b : list Q) : result (list Q) :=
  assert negb (length a =? 0)%nat else ConvolveError ;;
  assert negb (length b =? 0)%nat else ConvolveError ;;
  Ok (map (fun i => conv_at a b (i + (length b - 1) / 2)) (seq 0 (length a))).

End Scipy.

(** ** mir_eval.sonify *)

Module Sonify.

Import Np Scipy.

#[local] Open Scope R_scope.

(** *** clicks *)

(** The default click: a 1 kHz tone of [fs * 0.1] samples with an
    exponential decay. *)
Definition default_click (fs : Z) : list R :=
  map (fun k => sin (2 * PI * INR k * 1000 / (1 * IZR fs))
                * exp (- INR k / (IZR fs * Q2R (1 # 100))))
      (arange_float (float fs * (1 # 10))).

(** The loop [for time in times] of [clicks].  Both guards leave the loop
    ([break]): the clicks after them are not looked at. *)
Fixpoint place_clicks (fs : Z) (click : list R) (length : Z) (times : list Q)
    (click_signal : list R) : result (list R) :=
  match times with
  | [] => Ok click_signal
  | time :: rest =>
      let start := int (time * float fs) in
      let end_ := (start + len click)%Z in
      if (start >=? length)%Z then Ok click_signal
      else if (end_ >=? length)%Z then
        setslice click_signal (Some start) None
                 (getslice click None (Some (length - start)%Z))
      else
        click_signal <- setslice click_signal (Some start) (Some end_) click ;;
        place_clicks fs click length rest click_signal
  end.

Definition clicks (times : list Q) (fs : Z) (click : option (list R))
    (length : option Z) : result (list R) :=
  let click := match click with None => default_click fs | Some c => c end in
  length <- match length with
            | None => m <- amax times ;;
                      Ok (int (m * float fs + float (len click) + 1))
            | Some l => Ok l
            end ;;
  click_signal <- zeros length ;;
  place_clicks fs click length times click_signal.

(** *** _fast_synthesize *)

(** [_fast_synthesize(frequency, n_dec, fs, function, length)]: one buffer of
    [int(10.0**n_dec * fs)] samples, read through a view with row stride 0 so
    that it repeats [n_repeats] times. *)
Definition _fast_synthesize (frequency : Q) (n_dec : Z) (fs : Z)
    (function : R -> R) (length : Z) : result strided :=
  let frequency := Np.round frequency n_dec in
  let n_samples := int (pow10 n_dec * float fs) in
  let short_signal :=
    map (fun k => function (2 * PI * INR k * Q2R frequency / IZR fs))
        (arange n_samples) in
  assert negb (len short_signal =? 0)%Z else ZeroDivisionError ;;
  let n_repeats := Qceiling (float length / float (len short_signal)) in
  assert (0 <=? n_repeats)%Z else NegativeDimensions ;;
  Ok (as_strided short_signal (Z.to_nat n_repeats)
        (List.length short_signal) 0 1).

(** *** time_frequency *)

(** [times] is either a one-dimensional array of start times or an array of
    [(start, end)] rows. *)
Inductive times_arg : Type :=
| Timestamps (t : list Q)
| Intervals (t : list (Q * Q)).

(** All the entries of an interval array, for whole-array reductions. *)
Definition entries (times : list (Q * Q)) : list Q :=
  concat (map (fun iv => [fst iv; snd iv]) times).

Definition starts (times : list (Q * Q)) : list Q := map fst times.

(** Lines 109-134: conversion of time stamps to intervals, default length,
    trailing interval, and the two shape checks.  Returns the interval
    array, [length] and [last_time_in_secs]. *)
Definition tf_validate (gram : matrix) (frequencies : list Q) (times : times_arg)
    (fs : Z) (length : option Z) : result (list (Q * Q) * Z * Q) :=
  let '(times, time_converted) :=
    match times with
    | Timestamps t => (combine (removelast t) (tl t), true)
    | Intervals iv => (iv, false)
    end in
  length <- match length with
            | None => m <- amax (entries times) ;; Ok (int (m * float fs)%Q)
            | Some l => Ok l
            end ;;
  assert negb (fs =? 0)%Z else ZeroDivisionError ;;
  let last_time_in_secs := (float length / float fs)%Q in
  times <- (if time_converted && negb (List.length times =? ncols gram)%nat
            then m <- amax (entries times) ;;
                 Ok (times ++ [(m, last_time_in_secs)])
            else Ok times) ;;
  assert (List.length times =? ncols gram)%nat else ShapeMismatch ;;
  assert (List.length frequencies =? nrows gram)%nat else ShapeMismatch ;;
  Ok (times, length, last_time_in_secs).

(** Lines 136-152: the intervals with a silent interval put before and
    after where the annotation does not reach the ends. *)
Definition tf_stack (times : list (Q * Q)) (last_time_in_secs : Q)
  : result (bool * bool * list (Q * Q)) :=
  tmin <- amin (entries times) ;;
  tmax <- amax (entries times) ;;
  let pad_before := Qltb 0 tmin in
  let pad_after := Qltb tmax last_time_in_secs in
  Ok (pad_before, pad_after,
      (if pad_before then [(0%Q, tmin)] else [])
        ++ times
        ++ (if pad_after then [(tmax, last_time_in_secs)] else [])).

(** Line 155: the intervals that overlap [0, last_time_in_secs]. *)
Definition overlaps (last_time_in_secs : Q) (iv : Q * Q) : bool :=
  Qle_bool 0 (snd iv) && Qle_bool (fst iv) last_time_in_secs.

(** Lines 136-162: padding, overlap filter, clipping of the times and of the
    magnitudes. *)
Definition tf_normalize (gram : matrix) (times : list (Q * Q))
    (last_time_in_secs : Q) : result (matrix * list (Q * Q)) :=
  st <- tf_stack times last_time_in_secs ;;
  let '(pad_before, pad_after, times) := st in
  let gram := pad_columns gram (if pad_before then 1 else 0)
                               (if pad_after then 1 else 0) in
  let idx := map (overlaps last_time_in_secs) times in
  let gram := select_columns gram idx in
  let times :=
    map (fun iv => (clip (fst iv) 0 last_time_in_secs,
                    clip (snd iv) 0 last_time_in_secs))
        (compress idx times) in
  let gram := maximum0 gram in
  Ok (gram, times).

(** Lines 171-175: the rows whose largest magnitude reaches the threshold. *)
Definition tf_freq_keep (gram : matrix) (threshold : Q) : result (list bool) :=
  row_max <- amax_axis1 (rows gram) ;;
  Ok (map (fun m => Qle_bool threshold m) row_max).

(** Lines 177-193: the per-sample envelopes, one row per kept frequency when
    there are several intervals. *)
Fixpoint interp_rows (x : list Q) (rs : list (list Q)) (length : Z)
  : result (list (list Q)) :=
  match rs with
  | [] => Ok []
  | r :: rs' =>
      interpolator <- interp1d x r Previous (hd 0%Q r, last r 0%Q) ;;
      others <- interp_rows x rs' length ;;
      Ok (map (fun i => interpolator (inject_Z (Z.of_nat i))) (arange length) :: others)
  end.

Definition tf_signal (gram : matrix) (times : list (Q * Q)) (fs : Z)
    (length : Z) : result (list (list Q)) :=
  let n_times := List.length times in
  if (1 <? n_times)%nat
  then interp_rows (map (fun t => (t * float fs)%Q) (starts times))
                   (map (firstn n_times) (rows gram)) length
  else col <- column0 (rows gram) ;; Ok (tile_1_by col length).

(** Lines 195-205: the loop over the kept frequencies. *)
Fixpoint tf_mix (fs : Z) (function : R -> R) (length n_dec : Z)
    (signal : list (list Q)) (n : nat) (frequencies : list Q)
    (output : list R) : result (list R) :=
  match frequencies with
  | [] => Ok output
  | frequency :: rest =>
      wave <- _fast_synthesize frequency n_dec fs function length ;;
      assert negb (Qeq_bool frequency 0) else OverflowError ;;
      let period := (2 * int (float fs / frequency))%Z in
      assert (0 <=? period)%Z else NegativeDimensions ;;
      let filter := map (fun _ => (1 / float period)%Q) (arange period) in
      signal_row <- getitem signal (Z.of_nat n) ;;
      signal_n <- convolve_same signal_row filter ;;
      mixed <- broadcast2 (fun w s => w * Q2R s)
                 (flat_take wave (len signal_n)) signal_n ;;
      output <- iadd output mixed ;;
      tf_mix fs function length n_dec signal (S n) rest output
  end.

(** Lines 207-212: division by the peak when it is at least [tiny]. *)
Definition normalize (output : list R) : result (list R) :=
  norm <- amaxR (map Rabs output) ;;
  Ok (if Rge_dec norm tiny then map (fun x => x / norm) output else output).

Definition time_frequency (gram : matrix) (frequencies : list Q)
    (times : times_arg) (fs : Z) (function : R -> R) (length : option Z)
    (n_dec : Z) (threshold : Q) : result (list R) :=
  v <- tf_validate gram frequencies times fs length ;;
  let '(times, length, last_time_in_secs) := v in
  g <- tf_normalize gram times last_time_in_secs ;;
  let '(gram, times) := g in
  output <- zeros length ;;
  if (ncols gram =? 0)%nat then Ok output
  else
    freq_keep <- tf_freq_keep gram threshold ;;
    let gram := select_rows gram freq_keep in
    let frequencies := compress freq_keep frequencies in
    signal <- tf_signal gram times fs length ;;
    output <- tf_mix fs function length n_dec signal 0 frequencies output ;;
    normalize output.

(** *** pitch_contour *)

(** A frequency measurement: a finite float or NaN. *)
Inductive measurement : Type :=
| Finite (q : Q)
| NaN.

(** [np.maximum(f, 0.0)] lets NaN through; [np.nan_to_num] turns it into 0. *)
Definition maximum_0 (f : measurement) : measurement :=
  match f with
  | Finite q => Finite (Qmax q 0)
  | NaN => NaN
  end.

Definition nan_to_num (f : measurement) : Q :=
  match f with
  | Finite q => q
  | NaN => 0%Q
  end.

(** [np.ones((n,))]. *)
Definition ones (n : Z) : result (list R) :=
  assert (0 <=? n)%Z else NegativeDimensions ;;
  Ok (repeat 1 (Z.to_nat n)).

Definition sample_points (length : Z) : list Q :=
  map (fun i => inject_Z (Z.of_nat i)) (arange length).

Definition pitch_contour (times : list Q) (frequencies : list measurement)
    (fs : Z) (amplitudes : option (list Q)) (function : R -> R)
    (length : option Z) (kind : Scipy.kind) : result (list R) :=
  let fs := float fs in
  length <- match length with
            | None => m <- amax times ;; Ok (int (m * fs)%Q)
            | Some l => Ok l
            end ;;
  let frequencies := map maximum_0 frequencies in
  let frequencies := map nan_to_num frequencies in
  f_interp <- interp1d (map (fun t => (t * fs)%Q) times)
                (map (fun f => 2 * PI * Q2R f / Q2R fs) frequencies)
                kind (0, 0) ;;
  let f_est := map f_interp (sample_points length) in
  a_est <- match amplitudes with
           | None => ones length
           | Some amplitudes =>
               a_interp <- interp1d (map (fun t => (t * fs)%Q) times)
                             (map Q2R amplitudes) kind (0, 0) ;;
               Ok (map a_interp (sample_points length))
           end ;;
  broadcast2 Rmult a_est (map function (cumsum f_est)).

End Sonify.

(** ** chroma

    [chroma] hands [time_frequency] magnitudes that went through [exp] and
    frequencies that went through a power: reals, where the callers above
    pass floats read as rationals.  [time_frequency] and what it calls are
    therefore embedded once more, over any type of array entries; with
    rational entries this is the embedding above, line by line. *)

Module Chroma.

Import Np Scipy.

#[local] Open Scope R_scope.

(** What the code does with an entry besides the arithmetic of [Float]:
    its value as a real, [maximum], [<=], the test [== 0], [int(x)] and
    [np.rint(x)]. *)
Class Entry (V : Type) {F : Float V} : Type := {
  to_R : V -> R;
  fmax : V -> V -> V;
  fle : V -> V -> bool;
  fzero : V -> bool;
  fint : V -> Z;
  frint : V -> Z
}.

Arguments Entry V {F}.

#[global] Instance Entry_Q : Entry Q :=
  {| to_R := Q2R; fmax := Qmax; fle := Qle_bool;
     fzero := fun x => Qeq_bool x 0; fint := int; frint := rint |}.

(** [int(x)] on a real: truncation towards zero. *)
Definition Rtrunc (x : R) : Z :=
  if Rle_dec 0 x then Int_part x else (- Int_part (- x))%Z.

(** [np.rint] on a real: the nearest integer, ties to even. *)
Definition Rrint (x : R) : Z :=
  let f := Int_part x in
  if Rlt_dec (x - IZR f) (1 / 2) then f
  else if Rlt_dec (1 / 2) (x - IZR f) then (f + 1)%Z
       else if Z.even f then f else (f + 1)%Z.

#[global] Instance Entry_R : Entry R :=
  {| to_R := fun x => x; fmax := Rmax;
     fle := fun x y => if Rle_dec x y then true else false;
     fzero := fun x => if Req_dec_T x 0 then true else false;
     fint := Rtrunc; frint := Rrint |}.

Section AnyEntry.

Context {V : Type} {F : Float V} {E : Entry V}.

(** A two-dimensional array with entries in [V]. *)
Record array2 : Type := mk_array2 {
  acols : nat;
  arows : list (list V)
}.

Definition anrows (g : array2) : nat := length (arows g).

Definition zero : V := of_Q 0.

(** [a.max()]. *)
Definition amax (a : list V) : result V :=
  match a with
  | [] => Error ZeroSizeReduction
  | x :: r => Ok (fold_left fmax r x)
  end.

(** [np.round(x, decimals)]. *)
Definition round (x : V) (decimals : Z) : V :=
  if (0 <=? decimals)%Z
  then fdiv (of_Q (inject_Z (frint (fmul x (of_Q (pow10 decimals))))))
            (of_Q (pow10 decimals))
  else fmul (of_Q (inject_Z (frint (fdiv x (of_Q (pow10 (- decimals)))))))
            (of_Q (pow10 (- decimals))).

(** [np.pad(g, ((0, 0), (before, after)), mode="constant")]. *)
Definition pad_columns (g : array2) (before after : nat) : array2 :=
  mk_array2 (before + acols g + after)
    (map (fun r => repeat zero before ++ r ++ repeat zero after) (arows g)).

(** [g[:, mask]] and [g[mask, :]]. *)
Definition select_columns (g : array2) (mask : list bool) : array2 :=
  mk_array2 (count_true mask) (map (compress mask) (arows g)).

Definition select_rows (g : array2) (mask : list bool) : array2 :=
  mk_array2 (acols g) (compress mask (arows g)).

(** [np.maximum(g, 0)]. *)
Definition maximum0 (g : array2) : array2 :=
  mk_array2 (acols g) (map (map (fun x => fmax x zero)) (arows g)).

(** [np.max(g, axis=1)]. *)
Fixpoint amax_axis1 (rs : list (list V)) : result (list V) :=
  match rs with
  | [] => Ok []
  | r :: rs' => m <- amax r ;; ms <- amax_axis1 rs' ;; Ok (m :: ms)
  end.

(** [g[:, 0]]. *)
Fixpoint column0 (rs : list (list V)) : result (list V) :=
  match rs with
  | [] => Ok []
  | r :: rs' => x <- getitem r 0 ;; xs <- column0 rs' ;; Ok (x :: xs)
  end.

(** [np.tile(v, (1, reps))] for a one-dimensional [v]. *)
Definition tile_1_by (v : list V) (reps : Z) : list (list V) :=
  [concat (repeat v (Z.to_nat reps))].

(** [scipy.signal.convolve(a, b, mode="same")]. *)
Definition conv_at (a b : list V) (k : nat) : V :=
  fold_right fadd zero
    (map (fun j => if (j <=? k)%nat then fmul (nth j a zero) (nth (k - j) b zero) else zero)
         (seq 0 (length a))).

Definition convolve_same (a b : list V) : result (list V) :=
  assert negb (length a =? 0)%nat else ConvolveError ;;
  assert negb (length b =? 0)%nat else ConvolveError ;;
  Ok (map (fun i => conv_at a b (i + (length b - 1) / 2)) (seq 0 (length a))).

(** [_fast_synthesize] for a frequency in [V]. *)
Definition _fast_synthesize (frequency : V) (n_dec : Z) (fs : Z)
    (function : R -> R) (length : Z) : result strided :=
  let frequency := round frequency n_dec in
  let n_samples := int (pow10 n_dec * float fs) in
  let short_signal :=
    map (fun k => function (2 * PI * INR k * to_R frequency / IZR fs))
        (arange n_samples) in
  assert negb (len short_signal =? 0)%Z else ZeroDivisionError ;;
  let n_repeats := Qceiling (float length / float (len short_signal)) in
  assert (0 <=? n_repeats)%Z else NegativeDimensions ;;
  Ok (as_strided short_signal (Z.to_nat n_repeats)
        (List.length short_signal) 0 1).

(** Lines 109-134 of [time_frequency]. *)
Definition tf_validate (gram : array2) (frequencies : list V)
    (times : Sonify.times_arg) (fs : Z) (length : option Z)
  : result (list (Q * Q) * Z * Q) :=
  let '(times, time_converted) :=
    match times with
    | Sonify.Timestamps t => (combine (removelast t) (tl t), true)
    | Sonify.Intervals iv => (iv, false)
    end in
  length <- match length with
            | None => m <- Np.amax (Sonify.entries times) ;; Ok (int (m * float fs)%Q)
            | Some l => Ok l
            end ;;
  assert negb (fs =? 0)%Z else ZeroDivisionError ;;
  let last_time_in_secs := (float length / float fs)%Q in
  times <- (if time_converted && negb (List.length times =? acols gram)%nat
            then m <- Np.amax (Sonify.entries times) ;;
                 Ok (times ++ [(m, last_time_in_secs)])
            else Ok times) ;;
  assert (List.length times =? acols gram)%nat else ShapeMismatch ;;
  assert (List.length frequencies =? anrows gram)%nat else ShapeMismatch ;;
  Ok (times, length, last_time_in_secs).

(** Lines 136-162. *)
Definition tf_normalize (gram : array2) (times : list (Q * Q))
    (last_time_in_secs : Q) : result (array2 * list (Q * Q)) :=
  st <- Sonify.tf_stack times last_time_in_secs ;;
  let '(pad_before, pad_after, times) := st in
  let gram := pad_columns gram (if pad_before then 1 else 0)
                               (if pad_after then 1 else 0) in
  let idx := map (Sonify.overlaps last_time_in_secs) times in
  let gram := select_columns gram idx in
  let times :=
    map (fun iv => (clip (fst iv) 0 last_time_in_secs,
                    clip (snd iv) 0 last_time_in_secs))
        (compress idx times) in
  let gram := maximum0 gram in
  Ok (gram, times).

(** Lines 171-175. *)
Definition tf_freq_keep (gram : array2) (threshold : Q) : result (list bool) :=
  row_max <- amax_axis1 (arows gram) ;;
  Ok (map (fun m => fle (of_Q threshold) m) row_max).

(** Lines 177-193. *)
Fixpoint interp_rows (x : list Q) (rs : list (list V)) (length : Z)
  : result (list (list V)) :=
  match rs with
  | [] => Ok []
  | r :: rs' =>
      interpolator <- interp1d x r Previous (hd zero r, last r zero) ;;
      others <- interp_rows x rs' length ;;
      Ok (map (fun i => interpolator (inject_Z (Z.of_nat i))) (arange length) :: others)
  end.

Definition tf_signal (gram : array2) (times : list (Q * Q)) (fs : Z)
    (length : Z) : result (list (list V)) :=
  let n_times := List.length times in
  if (1 <? n_times)%nat
  then interp_rows (map (fun t => (t * float fs)%Q) (Sonify.starts times))
                   (map (firstn n_times) (arows gram)) length
  else col <- column0 (arows gram) ;; Ok (tile_1_by col length).

(** Lines 195-205. *)
Fixpoint tf_mix (fs : Z) (function : R -> R) (length n_dec : Z)
    (signal : list (list V)) (n : nat) (frequencies : list V)
    (output : list R) : result (list R) :=
  match frequencies with
  | [] => Ok output
  | frequency :: rest =>
      wave <- _fast_synthesize frequency n_dec fs function length ;;
      assert negb (fzero frequency) else OverflowError ;;
      let period := (2 * fint (fdiv (of_Q (float fs)) frequency))%Z in
      assert (0 <=? period)%Z else NegativeDimensions ;;
      let filter := map (fun _ => fdiv (of_Q 1) (of_Q (float period))) (arange period) in
      signal_row <- getitem signal (Z.of_nat n) ;;
      signal_n <- convolve_same signal_row filter ;;
      mixed <- broadcast2 (fun w s => w * to_R s)
                 (flat_take wave (len signal_n)) signal_n ;;
      output <- iadd output mixed ;;
      tf_mix fs function length n_dec signal (S n) rest output
  end.

Definition time_frequency (gram : array2) (frequencies : list V)
    (times : Sonify.times_arg) (fs : Z) (function : R -> R) (length : option Z)
    (n_dec : Z) (threshold : Q) : result (list R) :=
  v <- tf_validate gram frequencies times fs length ;;
  let '(times, length, last_time_in_secs) := v in
  g <- tf_normalize gram times last_time_in_secs ;;
  let '(gram, times) := g in
  output <- zeros length ;;
  if (acols gram =? 0)%nat then Ok output
  else
    freq_keep <- tf_freq_keep gram threshold ;;
    let gram := select_rows gram freq_keep in
    let frequencies := compress freq_keep frequencies in
    signal <- tf_signal gram times fs length ;;
    output <- tf_mix fs function length n_dec signal 0 frequencies output ;;
    Sonify.normalize output.

End AnyEntry.

Arguments array2 V : clear implicits.
Arguments mk_array2 {V} _ _.

(** An array of floats read as rationals, as an array of entries. *)
Definition of_matrix (g : matrix) : array2 Q := mk_array2 (ncols g) (rows g).

(** [g.T]. *)
Definition transpose (g : matrix) : matrix :=
  mk_matrix (nrows g)
    (map (fun j => map (fun r => nth j r 0%Q) (rows g)) (seq 0 (ncols g))).

(** [np.tile(g, reps)] for a two-dimensional [g] and an integer [reps]: the
    rows are repeated along the last axis. *)
Definition tile (g : matrix) (reps : nat) : matrix :=
  mk_matrix (ncols g * reps) (map (fun r => concat (repeat r reps)) (rows g)).

(** [g *= w.reshape(-1, 1)] on a float array [g]: row [i] is multiplied by
    [w[i]]; [w] must have one item per row of [g], or one item in all. *)
Definition imul_column (g : matrix) (w : list R) : result (array2 R) :=
  if (length w =? nrows g)%nat
  then Ok (mk_array2 (ncols g)
             (map (fun p => map (fun x => Q2R x * snd p) (fst p)) (combine (rows g) w)))
  else if (length w =? 1)%nat
       then Ok (mk_array2 (ncols g) (map (map (fun x => Q2R x * hd 0 w)) (rows g)))
       else Error BroadcastError.

(** [chroma(chromagram, times, fs, **kwargs)]; the keyword arguments are
    those of [time_frequency]. *)
Definition chroma (chromagram : matrix) (times : Sonify.times_arg) (fs : Z)
    (function : R -> R) (length : option Z) (n_dec : Z) (threshold : Q)
  : result (list R) :=
  let n_octaves := 7%nat in
  let base_note := 24%Z in
  let mean := 72 in
  let std := 6 in
  let notes := map (fun k => (Z.of_nat k + base_note)%Z)
                   (arange (12 * Z.of_nat n_octaves)) in
  let shepard_weight :=
    map (fun n => exp (- (IZR n - mean) ^ 2 / (2 * std ^ 2))) notes in
  let gram := transpose (tile (transpose chromagram) n_octaves) in
  gram <- imul_column gram shepard_weight ;;
  let frequencies := map (fun n => 440 * Rpower 2 ((IZR n - 69) / 12)) notes in
  time_frequency gram frequencies times fs function length n_dec threshold.

End Chroma.

(** ** Vocabulary of the statements

    Definitions that only the statements use: they say, in the words of the
    specification, what a buffer should contain, and are compared with what
    the code computes. *)

Module Spec.

Import Np Scipy Sonify.

(** [a] with the items from index [s] on replaced by those of [v]. *)
Definition overwrite (a : list R) (s : nat) (v : list R) : list R :=
  firstn s a ++ v ++ skipn (s + length v) a.

(** The sample at which the click of a time starts. *)
Definition click_start (fs : Z) (time : Q) : Z := int (time * float fs).

(** A click that lies inside the buffer and ends before its last sample. *)
Definition fits (fs : Z) (click : list R) (length : Z) (time : Q) : Prop :=
  (0 <= click_start fs time /\ click_start fs time + len click < length)%Z.

(** The start of the last click, in the order of [times], whose samples
    cover index [j]. *)
Fixpoint last_cover (fs : Z) (size : Z) (times : list Q) (j : Z) : option Z :=
  match times with
  | [] => None
  | time :: rest =>
      match last_cover fs size rest j with
      | Some s => Some s
      | None =>
          let s := click_start fs time in
          if ((s <=? j) && (j <? s + size))%Z then Some s else None
      end
  end.

(** The click that [clicks] uses. *)
Definition click_of (fs : Z) (click : option (list R)) : list R :=
  match click with
  | None => default_click fs
  | Some c => c
  end.

(** The value the placed clicks give sample [j]: that of the last click
    covering it, and 0 where there is none. *)
Definition clicks_value (fs : Z) (click : list R) (times : list Q) (j : nat) : R :=
  match last_cover fs (len click) times (Z.of_nat j) with
  | Some s => nth (Z.to_nat (Z.of_nat j - s)) click 0%R
  | None => 0%R
  end.



(** The start times an input of [time_frequency] gives. *)
Definition input_starts (times : times_arg) : list Q :=
  match times with
  | Timestamps t => t
  | Intervals iv => starts iv
  end.


(** [g 0 + ... + g (n-1)]. *)
Fixpoint sum_upto (g : nat -> R) (n : nat) : R :=
  match n with
  | O => 0%R
  | S k => (sum_upto g k + g k)%R
  end.


(** The angular steps [2 * pi * frequencies / fs] that [pitch_contour]
    hands to its frequency interpolator, after the clipping of negative
    values and of NaN. *)
Definition angular_steps (frequencies : list measurement) (fs : Z) : list R :=
  map (fun f => (2 * PI * Q2R f / Q2R (float fs))%R)
      (map nan_to_num (map maximum_0 frequencies)).

(** The amplitude per sample, [a_est] in [pitch_contour]. *)
Definition amplitude_estimate (times : list Q) (fs : Z) (amplitudes : option (list Q))
    (L : Z) (kind : Scipy.kind) : result (list R) :=
  match amplitudes with
  | None => ones L
  | Some amplitudes =>
      a_interp <- interp1d (map (fun t => (t * float fs)%Q) times)
                    (map Q2R amplitudes) kind (0%R, 0%R) ;;
      Ok (map a_interp (sample_points L))
  end.

(** The length [pitch_contour] works with: the one given, or
    [int(times.max() * fs)]. *)
Definition resolve_length (times : list Q) (fs : Z) (length : option Z) : result Z :=
  match length with
  | None => m <- amax times ;; Ok (int (m * float fs))
  | Some l => Ok l
  end.


(** The number of intervals [times] gives before any trailing interval is
    added, and after. *)
Definition derived_intervals (times : times_arg) : nat :=
  match times with
  | Timestamps t => (length t - 1)%nat
  | Intervals iv => length iv
  end.

Definition interval_count (times : times_arg) (columns : nat) : nat :=
  match times with
  | Timestamps t =>
      let n := (length t - 1)%nat in
      if (n =? columns)%nat then n else S n
  | Intervals iv => length iv
  end.

(** The shapes that the specification calls malformed. *)
Definition shape_mismatch (gram : matrix) (frequencies : list Q) (times : times_arg) : Prop :=
  interval_count times (ncols gram) <> ncols gram \/ length frequencies <> nrows gram.

Definition not_shape {A : Type} (m : result A) : Prop := m <> Error ShapeMismatch.

(** Example inputs.  [late]: one row whose only non-zero column starts at
    the end of the buffer.  [tone]: one row at magnitude 1 over the whole
    buffer.  [pair]: two rows over a single interval. *)
Definition late_gram : matrix := mk_matrix 2 [[0%Q; 1%Q]].
Definition late_times : times_arg := Intervals [(0%Q, 1%Q); (1%Q, 2%Q)].

Definition tone_gram : matrix := mk_matrix 1 [[1%Q]].
Definition tone_times : times_arg := Intervals [(0%Q, 1%Q)].

Definition pair_gram : matrix := mk_matrix 1 [[1%Q]; [1%Q]].

(** [step]: one row that steps from 1/2 to 1 at the second of two time
    stamps.  [outside]: two intervals that both miss [0, 1]. *)
Definition step_gram : matrix := mk_matrix 2 [[1 # 2; 1%Q]].

Definition outside_gram : matrix := mk_matrix 2 [[1%Q; 1%Q]].
Definition outside_times : times_arg := Intervals [((-2)%Q, (-1)%Q); (5%Q, 6%Q)].


End Spec.

Import Np Scipy Sonify Spec.

(** Evaluation of the rational part of a computation, the real-valued
    operations being left as they are. *)
Ltac run_pipeline :=
  lazy -[Rplus Rmult Rminus Ropp Rinv Rdiv sin cos exp PI IZR INR Q2R Rabs Rmax
         Rge_dec Rle_dec normalize tiny].

(** ** Vocabulary of the further properties

    Definitions read off the code, for the statements about what the code
    does beyond the specification. *)

Module Props.

Import Np Scipy Sonify Spec.

#[local] Open Scope R_scope.

(** The length [clicks] works with: the one given, or
    [int(times.max() * fs + click.shape[0] + 1)]. *)
Definition clicks_length (times : list Q) (fs : Z) (click : option (list R))
    (length : option Z) : result Z :=
  match length with
  | None => m <- amax times ;;
            Ok (int (m * float fs + float (len (click_of fs click)) + 1))
  | Some l => Ok l
  end.

(** A click of [size] samples that starts at [s] covers sample [j]. *)
Definition covers (size s j : Z) : bool := ((s <=? j) && (j <? s + size))%Z.

(** Clicks that pairwise start at the same sample or do not overlap. *)
Definition disjoint_clicks (fs : Z) (size : Z) (times : list Q) : Prop :=
  forall t u, In t times -> In u times ->
    let s := click_start fs t in
    let r := click_start fs u in
    (s = r \/ s + size <= r \/ r + size <= s)%Z.

(** The intervals an input of [time_frequency] gives before any trailing
    interval is added. *)
Definition converted (times : times_arg) : list (Q * Q) :=
  match times with
  | Timestamps t => combine (removelast t) (tl t)
  | Intervals iv => iv
  end.

(** The length [time_frequency] works with: the one given, or
    [int(np.max(times) * fs)]. *)
Definition tf_length (times : times_arg) (fs : Z) (length : option Z) : result Z :=
  match length with
  | None => m <- amax (entries (converted times)) ;; Ok (int (m * float fs))
  | Some l => Ok l
  end.

(** A row of the normalised grid as a function of the input row: padded,
    restricted to the overlapping intervals, negative values clipped. *)
Definition normal_row (pb pa : nat) (idx : list bool) (r : list Q) : list Q :=
  map (fun x => Qmax x 0) (compress idx (repeat 0%Q pb ++ r ++ repeat 0%Q pa)).


(** The condition on the optional amplitudes under which [pitch_contour]
    returns: without them the length must not be negative, with them there
    must be one per time. *)
Definition amplitudes_fit (times : list Q) (amplitudes : option (list Q)) (L : Z) : Prop :=
  match amplitudes with
  | None => (0 <= L)%Z
  | Some a => List.length a = List.length times
  end.


(** The weight and the frequency of row [j] of the Shepard tone-gram that
    [chroma] builds: row [j] is MIDI note [j + 24]. *)
Definition shepard (j : nat) : R := exp (- (INR j - 48) ^ 2 / 72).

Definition note_frequency (j : nat) : R := 440 * Rpower 2 ((INR j - 45) / 12).

(** The Shepard tone-gram of a chromagram: 84 rows, row [j] being row
    [j mod 12] of the chromagram under the weight of row [j]. *)
Definition shepard_gram (chromagram : matrix) : Chroma.array2 R :=
  Chroma.mk_array2 (ncols chromagram)
    (map (fun j => map (fun x => Q2R x * shepard j) (nth (j mod 12) (rows chromagram) []))
         (seq 0 84)).

(** A frequency that is not 0 and whose period [int(fs / frequency)] is at
    least one sample. *)
Definition audible {V : Type} {F : Float V} {E : Chroma.Entry V} (fs : Z) (f : V) : Prop :=
  Chroma.fzero f = false /\ (1 <= Chroma.fint (fdiv (of_Q (float fs)) f))%Z.

(** Example chromagrams: [rest] is silent over one interval; [two_chords]
    holds a C major triad, then a D minor triad. *)
Definition rest : matrix := mk_matrix 1 (repeat [0%Q] 12).

Definition two_chords : matrix :=
  mk_matrix 2
    [[1%Q; 0%Q]; [0%Q; 0%Q]; [0%Q; 1%Q]; [0%Q; 0%Q]; [1%Q; 0%Q]; [0%Q; 1%Q];
     [0%Q; 0%Q]; [1%Q; 0%Q]; [0%Q; 0%Q]; [0%Q; 1%Q]; [0%Q; 0%Q]; [0%Q; 0%Q]].

End Props.

Import Props.

(** * Facts *)

(** ** Arithmetic of the number model *)

Section ArithFacts.

#[local] Open Scope R_scope.

Lemma int_inject_Z z : int (inject_Z z) = z.
Proof. unfold int; simpl. apply Z.quot_1_r. Qed.

Lemma int_mult_inject a b : int (inject_Z a * inject_Z b)%Q = (a * b)%Z.
Proof. unfold int; simpl. rewrite Z.quot_1_r. reflexivity. Qed.

Lemma pow10_nonneg n : (0 <= n)%Z -> pow10 n = inject_Z (10 ^ n).
Proof. intros Hn. unfold pow10. apply Z.leb_le in Hn. now rewrite Hn. Qed.

Lemma Q2R_inject_Z z : Q2R (inject_Z z) = IZR z.
Proof. unfold Q2R; simpl. lra. Qed.


Lemma Qceiling_div a b : (0 < b)%Z ->
  Qceiling (inject_Z a / inject_Z b) = (- ((- a) / b))%Z.
Proof.
  intros Hb. unfold Qceiling. f_equal. rewrite Zdiv_Qdiv.
  apply Qfloor_comp. rewrite inject_Z_opp. field.
  intros E. apply Qeq_eqR in E. rewrite Q2R_inject_Z in E.
  unfold Q2R in E; simpl in E. apply (not_0_IZR b); [lia | lra].
Qed.

Lemma ceil_div_cover a b : (0 < b)%Z -> (0 <= a)%Z ->
  (0 <= - ((- a) / b) /\ a <= - ((- a) / b) * b)%Z.
Proof.
  intros Hb Ha.
  pose proof (Z.mul_div_le (- a) b Hb).
  assert ((- a) / b <= 0)%Z by (apply Z.div_le_upper_bound; lia).
  split; nia.
Qed.

Lemma nth_error_map_seq {A} (f : nat -> A) n r : (r < n)%nat ->
  nth_error (map f (seq 0 n)) r = Some (f r).
Proof.
  intros Hr. rewrite nth_error_map, nth_error_seq.
  apply Nat.ltb_lt in Hr. rewrite Hr. reflexivity.
Qed.

Section Periodic.

Variable function : R -> R.
Hypothesis periodic : forall x, function (x + 2 * PI)%R = function x.



End Periodic.

End ArithFacts.

(** ** The periodic waveform generator *)

Section WaveFacts.

#[local] Open Scope R_scope.


End WaveFacts.

(** ** Slices and the click loop *)

Section ClickFacts.

#[local] Open Scope R_scope.

Lemma length_overwrite a s v : (s + length v <= length a)%nat ->
  length (overwrite a s v) = length a.
Proof.
  intros H. unfold overwrite. rewrite !length_app, length_skipn, firstn_length_le by lia. lia.
Qed.

Lemma nth_overwrite a s v j d : (s + length v <= length a)%nat ->
  nth j (overwrite a s v) d =
  if ((s <=? j) && (j <? s + length v))%nat then nth (j - s) v d else nth j a d.
Proof.
  intros H. unfold overwrite.
  assert (Hf : length (firstn s a) = s) by (apply firstn_length_le; lia).
  destruct (Nat.leb_spec s j) as [Hsj|Hsj]; cbn [andb].
  - rewrite app_nth2 by lia. rewrite Hf.
    destruct (Nat.ltb_spec j (s + length v)) as [Hj|Hj].
    + rewrite app_nth1 by lia. reflexivity.
    + rewrite app_nth2 by lia. rewrite nth_skipn. f_equal. lia.
  - rewrite app_nth1 by lia. rewrite nth_firstn.
    apply Nat.ltb_lt in Hsj. now rewrite Hsj.
Qed.

Lemma setslice_inrange (a v : list R) (s : Z) :
  (0 <= s)%Z -> (s + len v <= len a)%Z ->
  setslice a (Some s) (Some (s + len v)%Z) v = Ok (overwrite a (Z.to_nat s) v).
Proof.
  intros Hs Hv. unfold setslice, slice_range, slice_bound.
  replace (s <? 0)%Z with false by (symmetry; apply Z.ltb_ge; lia).
  replace (s + len v <? 0)%Z with false by (symmetry; apply Z.ltb_ge; unfold len; lia).
  rewrite !Z.min_l by (unfold len in *; lia).
  replace (Z.to_nat (s + len v - s)) with (length v) by (unfold len; lia).
  rewrite Nat.eqb_refl. reflexivity.
Qed.

Lemma getslice_prefix {A} (a : list A) (n : Z) : (0 <= n)%Z ->
  getslice a None (Some n) = firstn (Z.to_nat n) a.
Proof.
  intros Hn. unfold getslice, slice_range, slice_bound.
  replace (n <? 0)%Z with false by (symmetry; apply Z.ltb_ge; lia).
  rewrite Z.sub_0_r. cbn [Z.to_nat skipn].
  destruct (Z.min_spec n (len a)) as [[Hlt ->]|[Hle ->]]; [reflexivity|].
  unfold len. rewrite Nat2Z.id, firstn_all. symmetry. apply firstn_all2. unfold len in Hle. lia.
Qed.

Lemma setslice_tail (a v : list R) (s : Z) :
  (0 <= s <= len a)%Z -> len v = (len a - s)%Z ->
  setslice a (Some s) None v = Ok (firstn (Z.to_nat s) a ++ v).
Proof.
  intros Hs Hv. unfold setslice, slice_range, slice_bound.
  replace (s <? 0)%Z with false by (symmetry; apply Z.ltb_ge; lia).
  rewrite Z.min_l by lia.
  replace (Z.to_nat (len a - s)) with (length v) by (unfold len in *; lia).
  rewrite Nat.eqb_refl. f_equal. f_equal.
  rewrite skipn_all2 by (unfold len in *; lia). apply app_nil_r.
Qed.

Lemma place_clicks_fit_step fs click length time rest b :
  fits fs click length time -> len b = length ->
  place_clicks fs click length (time :: rest) b =
  place_clicks fs click length rest (overwrite b (Z.to_nat (click_start fs time)) click).
Proof.
  intros [H0 H1] Hb. cbn [place_clicks]. fold (click_start fs time).
  set (s := click_start fs time) in *.
  replace (s >=? length)%Z with false by (symmetry; rewrite Z.geb_leb; apply Z.leb_gt; unfold len in *; lia).
  replace (s + len click >=? length)%Z with false
    by (symmetry; rewrite Z.geb_leb; apply Z.leb_gt; lia).
  rewrite setslice_inrange by (unfold len in *; lia). reflexivity.
Qed.

Lemma place_clicks_fit fs click length times : forall b,
  Forall (fits fs click length) times -> len b = length ->
  exists out, place_clicks fs click length times b = Ok out /\
    List.length out = List.length b /\
    forall j, nth j out 0%R =
      match last_cover fs (len click) times (Z.of_nat j) with
      | Some s => nth (Z.to_nat (Z.of_nat j - s)) click 0%R
      | None => nth j b 0%R
      end.
Proof.
  induction times as [|time rest IH]; intros b Hfit Hb.
  - exists b. cbn. auto.
  - inversion Hfit as [|? ? Ht Hrest]; subst.
    rewrite place_clicks_fit_step by auto.
    destruct Ht as [H0 H1].
    assert (Hlen : (Z.to_nat (click_start fs time) + List.length click <= List.length b)%nat)
      by (unfold len in *; lia).
    destruct (IH (overwrite b (Z.to_nat (click_start fs time)) click) Hrest) as (out & Hout & Hl & Hnth).
    { unfold len. rewrite length_overwrite by assumption. reflexivity. }
    exists out. split; [exact Hout|]. split; [rewrite Hl; now apply length_overwrite|].
    intros j. rewrite Hnth. cbn [last_cover].
    destruct (last_cover fs (len click) rest (Z.of_nat j)); [reflexivity|].
    rewrite nth_overwrite by assumption.
    set (s := click_start fs time) in *.
    destruct (Nat.leb_spec (Z.to_nat s) j); destruct (Z.leb_spec s (Z.of_nat j)); try lia; cbn [andb]; try reflexivity.
    destruct (Nat.ltb_spec j (Z.to_nat s + List.length click)); destruct (Z.ltb_spec (Z.of_nat j) (s + len click)); unfold len in *; try lia; try reflexivity.
    f_equal. lia.
Qed.

Lemma place_clicks_app fs click length pre : forall rest b,
  Forall (fits fs click length) pre -> len b = length ->
  exists mid, place_clicks fs click length pre b = Ok mid /\
    List.length mid = List.length b /\
    place_clicks fs click length (pre ++ rest) b = place_clicks fs click length rest mid.
Proof.
  induction pre as [|time pre IH]; intros rest b Hfit Hb.
  - exists b. cbn. auto.
  - inversion Hfit as [|? ? Ht Hpre]; subst.
    cbn [app]. rewrite !place_clicks_fit_step by auto.
    destruct Ht as [H0 H1].
    assert (Hlen : (Z.to_nat (click_start fs time) + List.length click <= List.length b)%nat)
      by (unfold len in *; lia).
    destruct (IH rest (overwrite b (Z.to_nat (click_start fs time)) click) Hpre) as (mid & Hmid & Hl & Happ).
    { unfold len. rewrite length_overwrite by assumption. reflexivity. }
    exists mid. rewrite Hl, length_overwrite by assumption. auto.
Qed.

Lemma place_clicks_dropped fs click length time rest b :
  (length <= click_start fs time)%Z ->
  place_clicks fs click length (time :: rest) b = Ok b.
Proof.
  intros H. cbn [place_clicks]. fold (click_start fs time).
  replace (click_start fs time >=? length)%Z with true
    by (symmetry; rewrite Z.geb_leb; apply Z.leb_le; lia).
  reflexivity.
Qed.

Lemma place_clicks_truncated fs click length time rest b :
  (0 <= click_start fs time < length)%Z ->
  (length <= click_start fs time + len click)%Z ->
  len b = length ->
  place_clicks fs click length (time :: rest) b =
  Ok (firstn (Z.to_nat (click_start fs time)) b
        ++ firstn (Z.to_nat (length - click_start fs time)) click).
Proof.
  intros Hs He Hb. cbn [place_clicks]. fold (click_start fs time).
  set (s := click_start fs time) in *.
  replace (s >=? length)%Z with false by (symmetry; rewrite Z.geb_leb; apply Z.leb_gt; lia).
  replace (s + len click >=? length)%Z with true
    by (symmetry; rewrite Z.geb_leb; apply Z.leb_le; lia).
  rewrite getslice_prefix by lia.
  apply setslice_tail; [lia|].
  unfold len. rewrite firstn_length_le by (unfold len in *; lia). unfold len in *. lia.
Qed.

End ClickFacts.

(** ** Floors, maxima and the default length *)

Section OrderFacts.

#[local] Open Scope Q_scope.

Lemma int_nonneg (x : Q) : 0 <= x -> int x = Qfloor x.
Proof.
  intros Hx. unfold int, Qfloor. destruct x as [n d]. cbn [Qnum Qden].
  apply Z.quot_div_nonneg; [|lia].
  unfold Qle in Hx; cbn in Hx. lia.
Qed.

Lemma Qfloor_unique (x : Q) (z : Z) :
  inject_Z z <= x -> x < inject_Z (z + 1) -> Qfloor x = z.
Proof.
  intros Hlo Hhi.
  pose proof (Qfloor_le x) as Hf. pose proof (Qlt_floor x) as Hf'.
  assert (H1 : (z < Qfloor x + 1)%Z).
  { rewrite Zlt_Qlt. eapply Qle_lt_trans; eassumption. }
  assert (H2 : (Qfloor x < z + 1)%Z).
  { rewrite Zlt_Qlt. eapply Qle_lt_trans; eassumption. }
  lia.
Qed.

Lemma Qfloor_plus_Z (x : Q) (n : Z) : Qfloor (x + inject_Z n) = (Qfloor x + n)%Z.
Proof.
  apply Qfloor_unique.
  - rewrite inject_Z_plus. apply Qplus_le_compat; [apply Qfloor_le | apply Qle_refl].
  - replace (Qfloor x + n + 1)%Z with ((Qfloor x + 1) + n)%Z by lia.
    rewrite inject_Z_plus. apply Qplus_lt_le_compat; [apply Qlt_floor | apply Qle_refl].
Qed.

Lemma fold_left_Qmax_ge (l : list Q) : forall a,
  a <= fold_left Qmax l a /\ Forall (fun x => x <= fold_left Qmax l a) l.
Proof.
  induction l as [|y l IH]; intros a; cbn [fold_left].
  - split; [apply Qle_refl | constructor].
  - destruct (IH (Qmax a y)) as [H1 H2]. split.
    + eapply Qle_trans; [apply Q.le_max_l | exact H1].
    + constructor; [|exact H2]. eapply Qle_trans; [apply Q.le_max_r | exact H1].
Qed.

Lemma amax_upper (l : list Q) (m : Q) : amax l = Ok m -> Forall (fun x => x <= m) l.
Proof.
  destruct l as [|a l]; cbn; [discriminate|]. intros E; inversion E; subst.
  destruct (fold_left_Qmax_ge l a). constructor; assumption.
Qed.

Lemma default_length_fits fs (click : list R) times m :
  (0 < fs)%Z -> Forall (fun t => 0 <= t) times -> amax times = Ok m ->
  Forall (fits fs click (int (m * float fs + float (len click) + 1))) times.
Proof.
  intros Hfs Hpos Hm. pose proof (amax_upper _ Hm) as Hup.
  assert (Hfq : 0 < float fs) by (unfold float; change (inject_Z 0 < inject_Z fs); rewrite <- Zlt_Qlt; exact Hfs).
  rewrite Forall_forall in *. intros t Ht.
  specialize (Hpos t Ht). specialize (Hup t Ht).
  assert (Htf : 0 <= t * float fs) by (apply Qmult_le_0_compat; [assumption | apply Qlt_le_weak; assumption]).
  assert (Hmf : t * float fs <= m * float fs) by (apply Qmult_le_compat_r; [assumption | apply Qlt_le_weak; assumption]).
  unfold fits, click_start. rewrite (int_nonneg Htf).
  assert (Hlen0 : (0 <= len click)%Z) by (unfold len; lia).
  rewrite int_nonneg.
  - change 1 with (inject_Z 1). unfold float in *. rewrite !Qfloor_plus_Z.
    pose proof (Qfloor_resp_le _ _ Hmf). pose proof (Qfloor_resp_le _ _ Htf).
    change (Qfloor 0) with 0%Z in *. lia.
  - apply Qle_trans with (m * float fs); [eapply Qle_trans; eassumption|].
    rewrite <- Qplus_assoc. rewrite <- (Qplus_0_r (m * float fs)) at 1.
    apply Qplus_le_compat; [apply Qle_refl|]. unfold float.
    change 1 with (inject_Z 1). rewrite <- inject_Z_plus. change 0 with (inject_Z 0).
    rewrite <- Zle_Qle. lia.
Qed.

Lemma fold_left_Qmin_le (l : list Q) : forall a,
  fold_left Qmin l a <= a /\ Forall (fun x => fold_left Qmin l a <= x) l.
Proof.
  induction l as [|y l IH]; intros a; cbn [fold_left].
  - split; [apply Qle_refl | constructor].
  - destruct (IH (Qmin a y)) as [H1 H2]. split.
    + eapply Qle_trans; [exact H1 | apply Q.le_min_l].
    + constructor; [|exact H2]. eapply Qle_trans; [exact H1 | apply Q.le_min_r].
Qed.

Lemma amin_lower (l : list Q) (m : Q) : amin l = Ok m -> Forall (fun x => m <= x) l.
Proof.
  destruct l as [|a l]; cbn; [discriminate|]. intros E; inversion E; subst.
  destruct (fold_left_Qmin_le l a). constructor; assumption.
Qed.

Lemma Qltb_lt x y : Qltb x y = true <-> x < y.
Proof.
  unfold Qltb. rewrite negb_true_iff. split.
  - intros H. apply Qnot_le_lt. intros Hle. apply Qle_bool_iff in Hle. congruence.
  - intros H. destruct (Qle_bool y x) eqn:E; [|reflexivity].
    apply Qle_bool_iff in E. exfalso. eapply Qlt_not_le; eassumption.
Qed.

Lemma Qltb_ge x y : Qltb x y = false <-> y <= x.
Proof.
  unfold Qltb. rewrite negb_false_iff. apply Qle_bool_iff.
Qed.

Lemma Qle_bool_false x y : Qle_bool x y = false <-> y < x.
Proof.
  split.
  - intros H. apply Qnot_le_lt. intros Hle. apply Qle_bool_iff in Hle. congruence.
  - intros H. destruct (Qle_bool x y) eqn:E; [|reflexivity].
    apply Qle_bool_iff in E. exfalso. eapply Qlt_not_le; eassumption.
Qed.

End OrderFacts.

(** ** interp1d *)

Section InterpFacts.

#[local] Open Scope Q_scope.

Lemma insert_sorted_head {V} (p : Q * V) (l : list (Q * V)) :
  Forall (fun q => fst p <= fst q) l -> insert_by_x p l = p :: l.
Proof.
  destruct l as [|q r]; [reflexivity|]. intros H. inversion H; subst. cbn.
  replace (Qle_bool (fst p) (fst q)) with true by (symmetry; now apply Qle_bool_iff).
  reflexivity.
Qed.

Lemma sort_sorted {V} (l : list (Q * V)) :
  StronglySorted Qle (map fst l) -> sort_by_x l = l.
Proof.
  induction l as [|p l IH]; [reflexivity|]. cbn [map]. intros H. inversion H; subst.
  cbn [sort_by_x fold_right]. fold (sort_by_x l). rewrite IH by assumption.
  apply insert_sorted_head. rewrite Forall_map in *. assumption.
Qed.

Lemma map_fst_combine {A B} (a : list A) : forall (b : list B),
  length a = length b -> map fst (combine a b) = a.
Proof.
  induction a as [|x a IH]; intros [|y b] E; cbn in *; try discriminate; [reflexivity|].
  f_equal. apply IH. lia.
Qed.

Lemma map_snd_combine {A B} (a : list A) : forall (b : list B),
  length a = length b -> map snd (combine a b) = b.
Proof.
  induction a as [|x a IH]; intros [|y b] E; cbn in *; try discriminate; [reflexivity|].
  f_equal. apply IH. lia.
Qed.






Lemma sorted_hd_le xs :
  StronglySorted Qle xs -> Forall (fun x => hd 0 xs <= x) xs.
Proof.
  intros Hs. destruct xs as [|x r]; [constructor|]. inversion Hs; subst.
  constructor; [apply Qle_refl | assumption].
Qed.

Lemma nth_pred_length_last {A} (l : list A) d : nth (length l - 1) l d = last l d.
Proof.
  induction l as [|x r IH]; [reflexivity|].
  destruct r as [|y r']; [reflexivity|].
  change (last (x :: y :: r') d) with (last (y :: r') d). rewrite <- IH.
  cbn [length]. replace (S (S (length r')) - 1)%nat with (S (length r')) by lia.
  replace (S (length r') - 1)%nat with (length r') by lia. reflexivity.
Qed.




Lemma insert_by_x_In {V} (p q : Q * V) (l : list (Q * V)) :
  In q (insert_by_x p l) <-> q = p \/ In q l.
Proof.
  induction l as [|a l IH]; cbn; [intuition|].
  destruct (Qle_bool (fst p) (fst a)); cbn; [intuition|].
  rewrite IH. intuition.
Qed.

Lemma sort_by_x_In {V} (q : Q * V) (l : list (Q * V)) :
  In q (sort_by_x l) <-> In q l.
Proof.
  induction l as [|a l IH]; cbn; [tauto|].
  fold (sort_by_x l). rewrite insert_by_x_In, IH. intuition.
Qed.




Lemma last_In {A} (l : list A) d : l <> [] -> In (last l d) l.
Proof.
  induction l as [|a l IH]; [congruence|]. intros _.
  destruct l as [|b l']; [now left|]. right. apply IH. discriminate.
Qed.

Section InterpBounds.

Context {V : Type} `{Float V}.


End InterpBounds.

End InterpFacts.

(** ** The time grid of time_frequency *)

Section GridFacts.

#[local] Open Scope Q_scope.

Lemma starts_in_entries times s : In s (starts times) -> In s (entries times).
Proof.
  unfold starts, entries. induction times as [|iv r IH]; cbn; [tauto|].
  intros [<-|H]; [left; reflexivity | right; right; auto].
Qed.

Lemma length_compress {A} (mask : list bool) : forall (a : list A),
  length mask = length a -> length (compress mask a) = count_true mask.
Proof.
  unfold count_true.
  induction mask as [|b mask IH]; intros [|x a] E; cbn in *; try discriminate; [reflexivity|].
  destruct b; cbn; rewrite IH by lia; reflexivity.
Qed.

Lemma compress_incl {A} (mask : list bool) : forall (a : list A) x,
  In x (compress mask a) -> In x a.
Proof.
  induction mask as [|b mask IH]; intros [|y a] x; cbn; try tauto.
  destruct b; cbn; intros H; [destruct H as [H|H]; [auto|right; eauto] | right; eauto].
Qed.

Lemma compress_sorted (mask : list bool) : forall (a : list Q),
  StronglySorted Qle a -> StronglySorted Qle (compress mask a).
Proof.
  induction mask as [|b mask IH]; intros [|y a] Hs; cbn; try constructor.
  inversion Hs as [|? ? Ha Hy]; subst. destruct b; [|auto].
  constructor; [auto|]. apply Forall_forall. intros x Hx.
  rewrite Forall_forall in Hy. eapply Hy, compress_incl; eassumption.
Qed.

Lemma compress_map {A B} (f : A -> B) (mask : list bool) : forall (a : list A),
  compress mask (map f a) = map f (compress mask a).
Proof.
  induction mask as [|b mask IH]; intros [|y a]; cbn; try reflexivity.
  destruct b; cbn; now rewrite IH.
Qed.

Lemma map_sorted (f : Q -> Q) (a : list Q) :
  (forall x y, x <= y -> f x <= f y) ->
  StronglySorted Qle a -> StronglySorted Qle (map f a).
Proof.
  intros Hf. induction 1 as [|x a Ha IH Hx]; cbn; constructor; [assumption|].
  rewrite Forall_map. eapply Forall_impl; [|exact Hx]. intros y Hy. now apply Hf.
Qed.

Lemma clip_mono lo hi x y : x <= y -> clip x lo hi <= clip y lo hi.
Proof.
  intros H. unfold clip. apply Q.min_le_compat_l, Q.max_le_compat_r, H.
Qed.

Lemma sorted_app (a b : list Q) :
  StronglySorted Qle a -> StronglySorted Qle b ->
  (forall x y, In x a -> In y b -> x <= y) ->
  StronglySorted Qle (a ++ b).
Proof.
  intros Ha Hb Hab. induction Ha as [|x a Ha IH Hx]; cbn; [assumption|].
  constructor.
  - apply IH. intros u v Hu Hv. apply Hab; [right|]; assumption.
  - apply Forall_app. split; [assumption|].
    apply Forall_forall. intros y Hy. apply Hab; [left; reflexivity | assumption].
Qed.

Lemma tf_stack_spec times last pb pa stacked :
  tf_stack times last = Ok (pb, pa, stacked) ->
  length stacked = ((if pb then 1 else 0) + length times + (if pa then 1 else 0))%nat /\
  (StronglySorted Qle (starts times) -> StronglySorted Qle (starts stacked)).
Proof.
  unfold tf_stack. destruct (amin (entries times)) as [tmin|] eqn:Emin; [|discriminate].
  destruct (amax (entries times)) as [tmax|] eqn:Emax; [|discriminate].
  cbn [bind]. intros E. inversion E; subst; clear E.
  pose proof (amin_lower _ Emin) as Hmin. pose proof (amax_upper _ Emax) as Hmax.
  rewrite Forall_forall in Hmin, Hmax.
  split.
  - rewrite !length_app. destruct (Qltb 0 tmin), (Qltb tmax last); cbn; lia.
  - intros Hs. unfold starts. rewrite !map_app. fold (starts times).
    apply sorted_app; [|apply sorted_app|].
    + destruct (Qltb 0 tmin); cbn; repeat constructor.
    + exact Hs.
    + destruct (Qltb tmax last); cbn; repeat constructor.
    + intros x y Hx Hy. destruct (Qltb tmax last); cbn in Hy; [|tauto].
      destruct Hy as [<-|[]]. apply Hmax, starts_in_entries, Hx.
    + intros x y Hx Hy. destruct (Qltb 0 tmin) eqn:E0; cbn in Hx; [|tauto].
      destruct Hx as [<-|[]]. apply Qltb_lt in E0.
      assert (Ht : forall z, In z (entries times) -> 0 <= z).
      { intros z Hz. apply Qlt_le_weak. eapply Qlt_le_trans; [exact E0 | now apply Hmin]. }
      apply in_app_or in Hy. destruct Hy as [Hy|Hy].
      * apply Ht, starts_in_entries, Hy.
      * destruct (Qltb tmax last); cbn in Hy; [|tauto]. destruct Hy as [<-|[]].
        destruct (entries times) as [|e es] eqn:Ee; [discriminate|].
        eapply Qle_trans; [apply (Ht e); now left | apply Hmax; now left].
Qed.

Lemma tf_normalize_spec gram times last g times' :
  wf_matrix gram -> length times = ncols gram ->
  tf_normalize gram times last = Ok (g, times') ->
  wf_matrix g /\ ncols g = length times' /\ nrows g = nrows gram /\
  (StronglySorted Qle (starts times) -> StronglySorted Qle (starts times')).
Proof.
  intros Hwf Hlen. unfold tf_normalize.
  destruct (tf_stack times last) as [[[pb pa] stacked]|] eqn:E; [|discriminate].
  cbn [bind]. intros Eq. inversion Eq; subst; clear Eq.
  destruct (tf_stack_spec _ _ E) as [Hls Hsorted].
  set (idx := map (overlaps last) stacked).
  assert (Hidx : length idx = length stacked) by (unfold idx; apply length_map).
  repeat split.
  - unfold wf_matrix, maximum0, select_columns, pad_columns in *. cbn [rows ncols].
    rewrite !Forall_map. eapply Forall_impl; [|exact Hwf].
    intros r Hr. cbn beta in Hr. rewrite length_map, length_compress; [reflexivity|].
    rewrite Hidx, Hls, !length_app, !repeat_length, Hr. lia.
  - cbn [maximum0 select_columns ncols]. rewrite length_map, length_compress; auto.
  - unfold nrows. cbn [maximum0 select_columns pad_columns rows]. now rewrite !length_map.
  - intros Hs. unfold starts. rewrite map_map. cbn [fst].
    rewrite <- (map_map fst (fun s => clip s 0 last)).
    apply map_sorted; [intros; now apply clip_mono|].
    rewrite <- compress_map. apply compress_sorted. apply Hsorted, Hs.
Qed.


Lemma removelast_sorted (t : list Q) :
  StronglySorted Qle t -> StronglySorted Qle (removelast t).
Proof.
  induction 1 as [|x t Ht IH Hx]; [constructor|].
  destruct t as [|y t']; [constructor|].
  change (removelast (x :: y :: t')) with (x :: removelast (y :: t')).
  constructor; [exact IH|].
  apply Forall_forall. intros z Hz. rewrite Forall_forall in Hx. apply Hx.
  clear - Hz. revert Hz. generalize (y :: t'). intros l.
  induction l as [|a l IH]; cbn; [tauto|]. destruct l; [cbn; tauto|].
  intros [<-|H]; [now left | right; auto].
Qed.

Lemma length_removelast_tl {A} (t : list A) : length (removelast t) = length (tl t).
Proof.
  induction t as [|x t IH]; [reflexivity|]. destruct t as [|y t']; [reflexivity|].
  change (removelast (x :: y :: t')) with (x :: removelast (y :: t')).
  cbn [length tl] in *. now rewrite IH.
Qed.

Lemma tf_validate_spec gram frequencies times fs length times0 L last :
  tf_validate gram frequencies times fs length = Ok (times0, L, last) ->
  List.length times0 = ncols gram /\
  List.length frequencies = nrows gram /\
  fs <> 0%Z /\
  last = float L / float fs /\
  (StronglySorted Qle (input_starts times) -> StronglySorted Qle (starts times0)).
Proof.
  unfold tf_validate.
  set (conv := match times with
               | Timestamps t => (combine (removelast t) (tl t), true)
               | Intervals iv => (iv, false) end).
  assert (Hconv : StronglySorted Qle (input_starts times) -> StronglySorted Qle (starts (fst conv))).
  { unfold conv. destruct times as [t|iv]; cbn [fst input_starts]; [|auto].
    intros Hs. unfold starts. rewrite map_fst_combine by apply length_removelast_tl.
    now apply removelast_sorted. }
  destruct conv as [iv conv_flag]. cbn [fst] in Hconv.
  destruct (match length with
            | Some l => Ok l
            | None => m <- amax (entries iv) ;; Ok (int (m * float fs)) end) as [L'|] eqn:EL;
    [|discriminate].
  cbn [bind]. destruct (fs =? 0)%Z eqn:Efs; [discriminate|]. cbn [negb].
  destruct (conv_flag && negb (List.length iv =? ncols gram)%nat) eqn:Eflag.
  - destruct (amax (entries iv)) as [m|] eqn:Em; [|discriminate]. cbn [bind].
    destruct (Nat.eqb (List.length (iv ++ _)) _) eqn:E1; [|discriminate].
    destruct (List.length frequencies =? nrows gram)%nat eqn:E2; [|discriminate].
    intros E; inversion E; subst; clear E.
    apply Nat.eqb_eq in E1, E2. apply Z.eqb_neq in Efs. repeat split; auto.
    intros Hs. unfold starts. rewrite map_app. apply sorted_app; [now apply Hconv| repeat constructor|].
    intros x y Hx Hy. cbn in Hy. destruct Hy as [<-|[]].
    pose proof (amax_upper _ Em) as Hup. rewrite Forall_forall in Hup.
    apply Hup, starts_in_entries, Hx.
  - cbn [bind].
    destruct (List.length iv =? ncols gram)%nat eqn:E1; [|discriminate].
    destruct (List.length frequencies =? nrows gram)%nat eqn:E2; [|discriminate].
    intros E; inversion E; subst; clear E.
    apply Nat.eqb_eq in E1, E2. apply Z.eqb_neq in Efs. repeat split; auto.
Qed.

Lemma nth_map_seq {A} (f : nat -> A) n i d : (i < n)%nat -> nth i (map f (seq 0 n)) d = f i.
Proof.
  intros Hi. rewrite (nth_indep _ d (f 0%nat)) by now rewrite length_map, length_seq.
  rewrite (map_nth f (seq 0 n) 0%nat i). now rewrite seq_nth.
Qed.





Lemma overlaps_false last iv :
  overlaps last iv = false <-> snd iv < 0 \/ last < fst iv.
Proof.
  unfold overlaps. rewrite andb_false_iff, !Qle_bool_false. tauto.
Qed.

Lemma count_true_none {A} (p : A -> bool) (l : list A) :
  Forall (fun x => p x = false) l -> count_true (map p l) = 0%nat.
Proof.
  unfold count_true. induction 1 as [|x l Hx Hl IH]; cbn; [reflexivity|].
  rewrite Hx. exact IH.
Qed.

Lemma zeros_ok (n : Z) : (0 <= n)%Z -> zeros n = Ok (repeat 0%R (Z.to_nat n)).
Proof.
  intros H. unfold zeros. apply Z.leb_le in H. now rewrite H.
Qed.

Lemma time_frequency_no_interval gram frequencies times fs function length n_dec threshold
    times0 L last pb pa stacked :
  tf_validate gram frequencies times fs length = Ok (times0, L, last) ->
  tf_stack times0 last = Ok (pb, pa, stacked) ->
  (0 <= L)%Z ->
  Forall (fun iv => snd iv < 0 \/ last < fst iv) stacked ->
  time_frequency gram frequencies times fs function length n_dec threshold
  = Ok (repeat 0%R (Z.to_nat L)).
Proof.
  intros Hv Hst HL Hnone. unfold time_frequency. rewrite Hv. cbn [bind].
  unfold tf_normalize. rewrite Hst. cbn [bind].
  rewrite (zeros_ok HL). cbn [bind].
  cbn [maximum0 select_columns ncols].
  rewrite count_true_none; [reflexivity|].
  eapply Forall_impl; [|exact Hnone]. intros iv H. now apply overlaps_false.
Qed.

End GridFacts.

(** ** Mixing and normalisation *)

Section MixFacts.

#[local] Open Scope R_scope.

Lemma tiny_pos : 0 < tiny.
Proof. unfold tiny. apply Rinv_0_lt_compat, pow_lt. lra. Qed.

Lemma tiny_le_1 : tiny <= 1.
Proof.
  unfold tiny. rewrite <- Rinv_1. apply Rinv_le_contravar; [lra|].
  apply pow_R1_Rle. lra.
Qed.

Lemma fold_left_Rmax_spec (l : list R) : forall a,
  a <= fold_left Rmax l a /\
  Forall (fun x => x <= fold_left Rmax l a) l /\
  (fold_left Rmax l a = a \/ In (fold_left Rmax l a) l).
Proof.
  induction l as [|y l IH]; intros a; cbn [fold_left].
  - repeat split; [lra | constructor | now left].
  - destruct (IH (Rmax a y)) as (H1 & H2 & H3).
    pose proof (Rmax_l a y). pose proof (Rmax_r a y).
    repeat split.
    + lra.
    + constructor; [lra | exact H2].
    + destruct H3 as [H3|H3]; [|right; now right].
      rewrite H3. unfold Rmax. destruct (Rle_dec a y); [right; now left | now left].
Qed.

Lemma amaxR_spec (l : list R) (m : R) :
  amaxR l = Ok m -> Forall (fun x => x <= m) l /\ In m l.
Proof.
  destruct l as [|a l]; cbn; [discriminate|]. intros E; inversion E; subst.
  destruct (fold_left_Rmax_spec l a) as (H1 & H2 & H3). split.
  - constructor; assumption.
  - destruct H3 as [->|H3]; [now left | now right].
Qed.

Lemma Rabs_le_bounds (x b : R) : Rabs x <= b -> - b <= x <= b.
Proof. unfold Rabs. destruct (Rcase_abs x); lra. Qed.

Lemma normalize_spec (output out : list R) :
  normalize output = Ok out ->
  exists norm, amaxR (map Rabs output) = Ok norm /\
    ((tiny <= norm /\ out = map (fun x => x / norm) output /\
      exists x, In x out /\ Rabs x = 1) \/
     (norm < tiny /\ out = output /\ Forall (fun x => Rabs x < tiny) out)) /\
    Forall (fun x => -1 <= x <= 1) out.
Proof.
  unfold normalize. destruct (amaxR (map Rabs output)) as [norm|] eqn:E; [|discriminate].
  cbn [bind]. intros Eo. inversion Eo; subst; clear Eo.
  destruct (amaxR_spec _ E) as [Hall Hin].
  rewrite Forall_map in Hall. apply in_map_iff in Hin. destruct Hin as (x0 & Hx0 & Hin0).
  exists norm. split; [reflexivity|].
  pose proof tiny_pos. pose proof tiny_le_1.
  destruct (Rge_dec norm tiny) as [Hge|Hlt].
  - assert (Hn : 0 < norm) by lra.
    assert (Habs : forall x, Rabs (x / norm) = Rabs x / norm).
    { intros x. unfold Rdiv. rewrite Rabs_mult, Rabs_inv, (Rabs_right norm); lra. }
    split.
    + left. split; [lra|]. split; [reflexivity|].
      exists (x0 / norm). split; [exact (in_map (fun x => x / norm) output x0 Hin0)|].
      rewrite Habs, Hx0. field. lra.
    + rewrite Forall_map. eapply Forall_impl; [|exact Hall].
      intros x Hx. cbn beta in Hx.
      assert (Hle : Rabs (x / norm) <= 1).
      { rewrite Habs. apply Rmult_le_reg_r with norm; [lra|].
        unfold Rdiv. rewrite Rmult_assoc, Rinv_l by lra. lra. }
      apply Rabs_le_bounds in Hle. exact Hle.
  - assert (Hs : Forall (fun x => Rabs x < tiny) output).
    { eapply Forall_impl; [|exact Hall]. intros x Hx. cbn beta in Hx. lra. }
    split.
    + right. split; [lra|]. split; [reflexivity | exact Hs].
    + eapply Forall_impl; [|exact Hs]. intros x Hx. cbn beta in Hx.
      assert (Hle : Rabs x <= 1) by lra. apply Rabs_le_bounds in Hle. exact Hle.
Qed.

Lemma bind_ok {A B} (m : result A) (k : A -> result B) (b : B) :
  bind m k = Ok b -> exists a, m = Ok a /\ k a = Ok b.
Proof. destruct m as [a|e]; cbn; [eauto | discriminate]. Qed.

Lemma zeros_inv (n : Z) (out : list R) :
  zeros n = Ok out -> (0 <= n)%Z /\ out = repeat 0 (Z.to_nat n).
Proof.
  unfold zeros. destruct (0 <=? n)%Z eqn:E; [|discriminate].
  intros H; inversion H. split; [now apply Z.leb_le | reflexivity].
Qed.


Lemma Forall_repeat {A} (P : A -> Prop) (x : A) n : P x -> Forall P (repeat x n).
Proof. intros H. induction n; cbn; constructor; assumption. Qed.

Lemma compress_none {A} (mask : list bool) : forall (a : list A),
  Forall (fun b => b = false) mask -> compress mask a = [].
Proof.
  induction mask as [|b mask IH]; intros [|x a] H; cbn; try reflexivity.
  inversion H; subst. now apply IH.
Qed.

Lemma normalize_silent (n : nat) (out : list R) :
  normalize (repeat 0 n) = Ok out -> out = repeat 0 n.
Proof.
  intros H. destruct (normalize_spec _ H) as (norm & Hnorm & [(Hge & _ & _)|(_ & -> & _)] & _);
    [|reflexivity].
  exfalso. destruct (amaxR_spec _ Hnorm) as [_ Hin].
  apply in_map_iff in Hin. destruct Hin as (x & Hx & Hin).
  apply repeat_spec in Hin. subst x. rewrite Rabs_R0 in Hx.
  pose proof tiny_pos. lra.
Qed.



End MixFacts.

(** ** Cumulative sums *)

Section SumFacts.

#[local] Open Scope R_scope.

Lemma sum_upto_cons (x : R) (r : list R) n :
  sum_upto (fun j => nth j (x :: r) 0) (S n) = x + sum_upto (fun j => nth j r 0) n.
Proof.
  induction n as [|n IH]; [cbn; lra|].
  change (sum_upto (fun j => nth j (x :: r) 0) (S (S n)))
    with (sum_upto (fun j => nth j (x :: r) 0) (S n) + nth n r 0).
  rewrite IH. cbn [sum_upto]. lra.
Qed.

Lemma cumsum_from_nth (l : list R) : forall acc i, (i < length l)%nat ->
  nth i (cumsum_from acc l) 0 = acc + sum_upto (fun j => nth j l 0) (S i).
Proof.
  induction l as [|x r IH]; intros acc i Hi; cbn in Hi; [lia|].
  cbn [cumsum_from]. destruct i as [|i].
  - cbn. lra.
  - rewrite (sum_upto_cons x r (S i)). cbn [nth]. rewrite IH by lia. lra.
Qed.

Lemma cumsum_from_length (l : list R) : forall acc, length (cumsum_from acc l) = length l.
Proof. induction l as [|x r IH]; intros acc; cbn; [reflexivity | now rewrite IH]. Qed.

Lemma cumsum_nth (l : list R) i : (i < length l)%nat ->
  nth i (cumsum l) 0 = sum_upto (fun j => nth j l 0) (S i).
Proof. intros Hi. unfold cumsum. rewrite cumsum_from_nth by assumption. lra. Qed.

Lemma sum_upto_ext (g h : nat -> R) n :
  (forall j, (j < n)%nat -> g j = h j) -> sum_upto g n = sum_upto h n.
Proof.
  induction n as [|n IH]; intros E; [reflexivity|]. cbn.
  rewrite IH by (intros; apply E; lia). rewrite E by lia. reflexivity.
Qed.

(** The sum of a step that is [c] on [i0 .. ] and 0 before. *)
Lemma sum_upto_step (g : nat -> R) (c : R) (i0 n : nat) :
  (forall j, (j < i0)%nat -> (j < n)%nat -> g j = 0) ->
  (forall j, (i0 <= j)%nat -> (j < n)%nat -> g j = c) ->
  sum_upto g n = INR (n - i0) * c.
Proof.
  induction n as [|n IH]; intros H0 Hc; [cbn; lra|].
  cbn [sum_upto]. rewrite IH; [| intros; apply H0; lia | intros; apply Hc; lia].
  destruct (Nat.lt_ge_cases n i0) as [Hlt|Hge].
  - rewrite H0 by lia. replace (S n - i0)%nat with O by lia.
    replace (n - i0)%nat with O by lia. cbn. lra.
  - rewrite Hc by lia. replace (S n - i0)%nat with (S (n - i0)) by lia.
    rewrite S_INR. lra.
Qed.


End SumFacts.

(** ** Interpolation of constant values and sample grids *)

Section ContourGridFacts.

#[local] Open Scope Q_scope.

Lemma nth_repeat_lt {A} (c d : A) n i : (i < n)%nat -> nth i (repeat c n) d = c.
Proof.
  revert i. induction n as [|n IH]; intros [|i] Hi; cbn; try lia; [reflexivity|].
  apply IH. lia.
Qed.

Lemma item_repeat {A} (c d : A) (n : nat) (i : Z) :
  (- Z.of_nat n <= i < Z.of_nat n)%Z -> item (repeat c n) i d = c.
Proof.
  intros Hi. unfold item, len. rewrite repeat_length.
  apply nth_repeat_lt. destruct (i <? 0)%Z eqn:E; [apply Z.ltb_lt in E | apply Z.ltb_ge in E]; lia.
Qed.

Lemma interp1d_linear_const (x : list Q) (c : R) (fill : R * R) :
  StronglySorted Qle x -> x <> [] ->
  exists f, interp1d x (repeat c (length x)) Linear fill = Ok f /\
    (forall q, q < hd 0 x -> f q = fst fill) /\
    (forall q, last x 0 < q -> f q = snd fill) /\
    (forall q, hd 0 x <= q <= last x 0 -> f q = c).
Proof.
  intros Hs Hx. unfold interp1d. rewrite repeat_length, Nat.eqb_refl.
  replace (1 <=? length x)%nat with true
    by (symmetry; apply Nat.leb_le; destruct x; [congruence | cbn; lia]).
  assert (Hl : length x = length (repeat c (length x))) by now rewrite repeat_length.
  rewrite sort_sorted by (now rewrite map_fst_combine).
  rewrite map_fst_combine, map_snd_combine by assumption.
  eexists; split; [reflexivity|]. cbn beta.
  assert (Hhl : hd 0 x <= last x 0).
  { pose proof (sorted_hd_le Hs) as H. rewrite Forall_forall in H.
    apply H, last_In, Hx. }
  repeat split.
  - intros q Hq. apply Qltb_lt in Hq. now rewrite Hq.
  - intros q Hq.
    replace (Qltb q (hd 0 x)) with false
      by (symmetry; apply Qltb_ge, Qlt_le_weak; eapply Qle_lt_trans; eassumption).
    apply Qltb_lt in Hq. now rewrite Hq.
  - intros q [Hlo Hhi].
    replace (Qltb q (hd 0 x)) with false by (symmetry; now apply Qltb_ge).
    replace (Qltb (last x 0) q) with false by (symmetry; now apply Qltb_ge).
    unfold interp_call.
    assert (Hn : (1 <= len x)%Z) by (unfold len; destruct x; [congruence | cbn [length]; lia]).
    set (hi := clipZ (Z.of_nat (searchsorted_left x q)) 1 (len x - 1)).
    assert (Hhi' : (0 <= hi < len x)%Z) by (unfold hi, clipZ; lia).
    rewrite !item_repeat by (unfold len in *; lia).
    cbn [fadd fmul fdiv fsub Float_R]. unfold Rdiv. ring.
Qed.

Lemma Qceiling_le_iff (q : Q) (z : Z) : (Qceiling q <= z)%Z <-> q <= inject_Z z.
Proof.
  split; intros H.
  - eapply Qle_trans; [apply Qle_ceiling|]. rewrite <- Zle_Qle. exact H.
  - rewrite <- (Qceiling_Z z). now apply Qceiling_resp_le.
Qed.

Lemma first_sample_spec (q : Q) (j : nat) :
  (Z.to_nat (Qceiling q) <= j)%nat <-> q <= inject_Z (Z.of_nat j).
Proof.
  rewrite <- Qceiling_le_iff. lia.
Qed.

Lemma hd_map {A B} (f : A -> B) (l : list A) d : hd (f d) (map f l) = f (hd d l).
Proof. destruct l; reflexivity. Qed.

Lemma last_map {A B} (f : A -> B) (l : list A) d : last (map f l) (f d) = f (last l d).
Proof.
  induction l as [|a l IH]; [reflexivity|]. destruct l as [|b l']; [reflexivity|].
  change (last (map f (a :: b :: l')) (f d)) with (last (map f (b :: l')) (f d)).
  rewrite IH. reflexivity.
Qed.

Lemma last_default {A} (l : list A) d d' : l <> [] -> last l d = last l d'.
Proof.
  induction l as [|a l IH]; [congruence|]. intros _.
  destruct l as [|b l']; [reflexivity|]. apply IH. discriminate.
Qed.

Lemma sorted_lt_le (l : list Q) : StronglySorted Qlt l -> StronglySorted Qle l.
Proof.
  induction 1 as [|x l Hl IH Hx]; constructor; [assumption|].
  eapply Forall_impl; [|exact Hx]. intros y Hy. now apply Qlt_le_weak.
Qed.

Lemma float_pos (fs : Z) : (0 < fs)%Z -> 0 < float fs.
Proof. intros H. unfold float. change 0 with (inject_Z 0). now rewrite <- Zlt_Qlt. Qed.

Lemma scaled_times_sorted (times : list Q) (fs : Z) :
  (0 < fs)%Z -> StronglySorted Qle times ->
  StronglySorted Qle (map (fun t => t * float fs) times).
Proof.
  intros Hfs Hs. apply map_sorted; [|exact Hs].
  intros x y Hxy. apply Qmult_le_compat_r; [exact Hxy|].
  apply Qlt_le_weak, float_pos, Hfs.
Qed.

Lemma nth_product (a : list R) : forall (b : list R) i,
  length a = length b -> (i < length a)%nat ->
  nth i (map (fun p => (fst p * snd p)%R) (combine a b)) 0%R = (nth i a 0 * nth i b 0)%R.
Proof.
  induction a as [|x a IH]; intros [|y b] i Hl Hi; cbn in *; try lia.
  destruct i as [|i]; [reflexivity|]. apply IH; lia.
Qed.

Lemma sample_points_length L : length (sample_points L) = Z.to_nat L.
Proof. unfold sample_points, arange. now rewrite length_map, length_seq. Qed.

Lemma nth_sampled {A} (f : Q -> A) (L : Z) i d : (i < Z.to_nat L)%nat ->
  nth i (map f (sample_points L)) d = f (inject_Z (Z.of_nat i)).
Proof.
  intros Hi. unfold sample_points, arange. rewrite map_map.
  rewrite nth_map_seq by assumption. reflexivity.
Qed.

End ContourGridFacts.

(** ** pitch_contour *)

Section ContourFacts.

#[local] Open Scope R_scope.

Lemma pitch_contour_samples times frequencies fs amplitudes function L kind f_interp a_est :
  interp1d (map (fun t => (t * float fs)%Q) times) (angular_steps frequencies fs) kind (0, 0)
    = Ok f_interp ->
  amplitude_estimate times fs amplitudes L kind = Ok a_est ->
  length a_est = Z.to_nat L ->
  exists out,
    pitch_contour times frequencies fs amplitudes function (Some L) kind = Ok out /\
    length out = Z.to_nat L /\
    forall i, (i < Z.to_nat L)%nat ->
      nth i out 0 =
      nth i a_est 0 * function (sum_upto (fun j => f_interp (inject_Z (Z.of_nat j))) (S i)).
Proof.
  intros Hf Ha Hl. unfold pitch_contour. cbn [bind].
  unfold angular_steps in Hf. rewrite Hf. cbn [bind].
  unfold amplitude_estimate in Ha. rewrite Ha. cbn [bind].
  set (f_est := map f_interp (sample_points L)).
  assert (Hfl : length f_est = Z.to_nat L)
    by (unfold f_est; now rewrite length_map, sample_points_length).
  assert (Hcl : length (map function (cumsum f_est)) = Z.to_nat L).
  { unfold cumsum. now rewrite length_map, cumsum_from_length. }
  unfold broadcast2. rewrite Hl, Hcl, Nat.eqb_refl.
  eexists; split; [reflexivity|]. split.
  - rewrite length_map, length_combine, Hl, Hcl. lia.
  - intros i Hi. rewrite nth_product by lia. f_equal.
    rewrite (nth_indep _ 0 (function 0)) by lia.
    rewrite map_nth. f_equal. rewrite cumsum_nth by lia.
    apply sum_upto_ext. intros j Hj. unfold f_est. apply nth_sampled. lia.
Qed.

Lemma map_repeat' {A B} (f : A -> B) (a : A) n : map f (repeat a n) = repeat (f a) n.
Proof. induction n; cbn; [reflexivity | now f_equal]. Qed.

Lemma pitch_contour_constant times f fs function L :
  (0 < fs)%Z -> StronglySorted Qlt times -> times <> [] -> (0 <= f)%Q ->
  let K := length times in
  let lo := (hd 0%Q times * float fs)%Q in
  let hi := (last times 0%Q * float fs)%Q in
  let i0 := Z.to_nat (Qceiling lo) in
  exists out,
    pitch_contour times (repeat (Finite f) K) fs (Some (repeat 1%Q K)) function
                  (Some L) Linear = Ok out /\
    length out = Z.to_nat L /\
    forall i, (i < Z.to_nat L)%nat ->
      let x := inject_Z (Z.of_nat i) in
      ((lo <= x <= hi)%Q ->
         nth i out 0 = function (INR (S i - i0) * (2 * PI * Q2R f / IZR fs))) /\
      ((x < lo \/ hi < x)%Q -> nth i out 0 = 0).
Proof.
  intros Hfs Hs Hne Hf K lo hi i0.
  set (xs := map (fun t => (t * float fs)%Q) times).
  assert (Hxs : StronglySorted Qle xs) by (apply scaled_times_sorted; [assumption | now apply sorted_lt_le]).
  assert (Hxne : xs <> []) by (unfold xs; destruct times; [congruence | discriminate]).
  assert (Hxl : length xs = K) by (unfold xs; apply length_map).
  assert (Hhd : hd 0%Q xs = lo).
  { unfold xs, lo. destruct times; [congruence | reflexivity]. }
  assert (Hlast : last xs 0%Q = hi).
  { unfold xs, hi. destruct times as [|t ts]; [congruence|].
    rewrite <- (last_map (fun t => (t * float fs)%Q) (t :: ts) 0%Q).
    apply last_default. discriminate. }
  set (c := 2 * PI * Q2R (Qmax f 0) / Q2R (float fs)).
  assert (Hsteps : angular_steps (repeat (Finite f) K) fs = repeat c (length xs)).
  { unfold angular_steps. rewrite !map_repeat', Hxl. reflexivity. }
  assert (Hc : c = 2 * PI * Q2R f / IZR fs).
  { unfold c. unfold float. rewrite Q2R_inject_Z. f_equal. f_equal.
    apply Qeq_eqR, Q.max_l, Hf. }
  destruct (@interp1d_linear_const xs c (0, 0) Hxs Hxne) as (fi & Hfi & Hfi_lo & Hfi_hi & Hfi_in).
  destruct (@interp1d_linear_const xs (Q2R 1) (0, 0) Hxs Hxne) as (ai & Hai & Hai_lo & Hai_hi & Hai_in).
  rewrite Hhd, Hlast in *. cbn [fst snd] in *.
  destruct (@pitch_contour_samples times (repeat (Finite f) K) fs (Some (repeat 1%Q K))
              function L Linear fi (map ai (sample_points L))) as (out & Hout & Hlen & Hnth).
  - fold xs. rewrite Hsteps. exact Hfi.
  - unfold amplitude_estimate. fold xs. rewrite map_repeat', <- Hxl, Hai. reflexivity.
  - now rewrite length_map, sample_points_length.
  - exists out. split; [exact Hout|]. split; [exact Hlen|].
    intros i Hi. set (x := inject_Z (Z.of_nat i)). rewrite (Hnth i Hi), nth_sampled by assumption. fold x. split.
    + intros [Hlo Hhi]. rewrite Hai_in by (split; assumption).
      replace (Q2R 1) with 1 by (unfold Q2R; cbn; lra). rewrite Rmult_1_l. f_equal.
      rewrite <- Hc. apply sum_upto_step.
      * intros j Hj _. apply Hfi_lo. apply Qnot_le_lt. intros Hle.
        apply first_sample_spec in Hle. fold i0 in Hle. lia.
      * intros j Hj Hji. apply Hfi_in. split.
        -- apply first_sample_spec. fold i0. lia.
        -- eapply Qle_trans; [|exact Hhi]. unfold x. rewrite <- Zle_Qle. lia.
    + intros [Hlo|Hhi]; [rewrite Hai_lo | rewrite Hai_hi]; try assumption; lra.
Qed.

Lemma angular_steps_length frequencies fs :
  length (angular_steps frequencies fs) = length frequencies.
Proof. unfold angular_steps. now rewrite !length_map. Qed.

Lemma ones_ok (n : Z) : (0 <= n)%Z -> ones n = Ok (repeat 1 (Z.to_nat n)).
Proof. intros H. unfold ones. apply Z.leb_le in H. now rewrite H. Qed.





End ContourFacts.

(** ** Worked examples of time_frequency *)

Section ExampleFacts.

#[local] Open Scope R_scope.

Lemma normalize_zeros (n : nat) : (0 < n)%nat -> normalize (repeat 0 n) = Ok (repeat 0 n).
Proof.
  intros Hn. destruct (normalize (repeat 0 n)) as [out|e] eqn:E.
  - f_equal. now apply normalize_silent in E.
  - exfalso. destruct n as [|n]; [lia|]. unfold normalize in E. cbn in E. discriminate.
Qed.


Lemma late_row_kept :
  exists times0 L last g times',
    tf_validate late_gram [1%Q] late_times 4 (Some 4%Z) = Ok (times0, L, last) /\
    tf_normalize late_gram times0 last = Ok (g, times') /\
    tf_freq_keep g (1 # 100) = Ok [true].
Proof.
  do 5 eexists. split; [reflexivity|]. split; reflexivity.
Qed.





End ExampleFacts.

(** ** The single-interval branch *)

Section TileFacts.

#[local] Open Scope R_scope.

Lemma broadcast2_length {A B C} (f : A -> B -> C) (a : list A) (b : list B) (c : list C) :
  broadcast2 f a b = Ok c -> (2 <= length b)%nat -> length c = length b.
Proof.
  unfold broadcast2. destruct (length a =? length b)%nat eqn:E.
  - apply Nat.eqb_eq in E. intros H _. inversion H; subst.
    rewrite length_map, length_combine. lia.
  - destruct a as [|x [|x' a']].
    + destruct b as [|y [|y' b']]; try discriminate.
      intros _ Hb. cbn in Hb. lia.
    + intros H _. inversion H; subst. apply length_map.
    + destruct b as [|y [|y' b']]; try discriminate.
      intros _ Hb. cbn in Hb. lia.
Qed.

Lemma iadd_mismatch (output v : list R) :
  length v <> length output -> (2 <= length v)%nat -> iadd output v = Error BroadcastError.
Proof.
  intros Hne Hv. unfold iadd.
  replace (length v =? length output)%nat with false by (symmetry; now apply Nat.eqb_neq).
  destruct v as [|y [|y' v']]; cbn in Hv; try lia; reflexivity.
Qed.

Lemma convolve_same_length (a b c : list Q) :
  convolve_same a b = Ok c -> length c = length a.
Proof.
  unfold convolve_same.
  destruct (length a =? 0)%nat; [discriminate|].
  destruct (length b =? 0)%nat; [discriminate|].
  cbn. intros H. inversion H; subst. now rewrite length_map, length_seq.
Qed.

Lemma getitem_nth {A} (a : list A) (n : nat) (x : A) :
  nth_error a n = Some x -> getitem a (Z.of_nat n) = Ok x.
Proof.
  intros H. unfold getitem.
  assert (E : (Z.of_nat n <? 0)%Z = false) by (apply Z.ltb_ge; lia).
  rewrite E. cbv zeta. rewrite E, Nat2Z.id, H. reflexivity.
Qed.

(** One round of the mixing loop on an envelope row whose length is not
    that of the output buffer cannot succeed. *)
Lemma tf_mix_mismatch fs function length n_dec signal n frequency rest output row :
  nth_error signal n = Some row ->
  List.length row <> List.length output -> (2 <= List.length row)%nat ->
  exists e, tf_mix fs function length n_dec signal n (frequency :: rest) output = Error e.
Proof.
  intros Hrow Hne H2. cbn [tf_mix].
  destruct (_fast_synthesize frequency n_dec fs function length) as [wave|e];
    [|eexists; reflexivity].
  cbn [bind]. destruct (negb (Qeq_bool frequency 0)); [|eexists; reflexivity].
  destruct (0 <=? 2 * int (float fs / frequency))%Z; [|eexists; reflexivity].
  rewrite (getitem_nth _ _ Hrow). cbn [bind].
  destruct (convolve_same row _) as [conv|e] eqn:Ec; [|eexists; reflexivity]. cbn [bind].
  apply convolve_same_length in Ec.
  destruct (broadcast2 _ _ conv) as [mixed|e] eqn:Em; [|eexists; reflexivity]. cbn [bind].
  apply broadcast2_length in Em; [|lia].
  rewrite iadd_mismatch by lia. cbn [bind]. eexists; reflexivity.
Qed.

Lemma column0_length (rs : list (list Q)) (col : list Q) :
  column0 rs = Ok col -> length col = length rs.
Proof.
  revert col. induction rs as [|r rs IH]; intros col; cbn [column0].
  - intros H; inversion H; reflexivity.
  - destruct (getitem r 0) as [x|]; [|discriminate]. cbn [bind].
    destruct (column0 rs) as [xs|]; [|discriminate]. cbn [bind].
    intros H; inversion H; subst. cbn. f_equal. now apply IH.
Qed.

Lemma amax_axis1_length (rs : list (list Q)) (ms : list Q) :
  amax_axis1 rs = Ok ms -> length ms = length rs.
Proof.
  revert ms. induction rs as [|r rs IH]; intros ms; cbn [amax_axis1].
  - intros H; inversion H; reflexivity.
  - destruct (amax r) as [x|]; [|discriminate]. cbn [bind].
    destruct (amax_axis1 rs) as [xs|]; [|discriminate]. cbn [bind].
    intros H; inversion H; subst. cbn. f_equal. now apply IH.
Qed.

Lemma tf_freq_keep_length g threshold keep :
  tf_freq_keep g threshold = Ok keep -> length keep = nrows g.
Proof.
  unfold tf_freq_keep. destruct (amax_axis1 (rows g)) as [ms|] eqn:E; [|discriminate].
  cbn [bind]. intros H; inversion H; subst. rewrite length_map. now apply amax_axis1_length.
Qed.

Lemma length_concat_repeat {A} (v : list A) n : length (concat (repeat v n)) = (n * length v)%nat.
Proof.
  induction n as [|n IH]; [reflexivity|]. cbn [repeat concat]. rewrite length_app, IH. lia.
Qed.

Lemma time_frequency_single_interval_raises
    gram frequencies times fs function length n_dec threshold times0 L last g times' keep :
  wf_matrix gram ->
  tf_validate gram frequencies times fs length = Ok (times0, L, last) ->
  tf_normalize gram times0 last = Ok (g, times') ->
  List.length times' = 1%nat ->
  tf_freq_keep g threshold = Ok keep ->
  (2 <= count_true keep)%nat -> (1 <= L)%Z ->
  exists e, time_frequency gram frequencies times fs function length n_dec threshold = Error e.
Proof.
  intros Hwf Hv Hn H1 Hk HK HL.
  destruct (@tf_validate_spec _ _ _ _ _ _ _ _ Hv) as (Hlt & Hlf & _ & _ & _).
  destruct (@tf_normalize_spec _ _ _ _ _ Hwf Hlt Hn) as (_ & Hcols & Hrows & _).
  pose proof (@tf_freq_keep_length _ _ _ Hk) as Hkl.
  unfold time_frequency. rewrite Hv. cbn [bind]. rewrite Hn. cbn [bind].
  rewrite zeros_ok by lia. cbn [bind].
  replace (ncols g =? 0)%nat with false by (symmetry; apply Nat.eqb_neq; lia).
  rewrite Hk. cbn [bind].
  unfold tf_signal. rewrite H1. cbn [Nat.ltb Nat.leb].
  destruct (column0 (rows (select_rows g keep))) as [col|e] eqn:Ecol; [|eexists; reflexivity]. cbn [bind].
  apply column0_length in Ecol. cbn [select_rows rows] in Ecol.
  rewrite length_compress in Ecol by (unfold nrows in Hkl; exact Hkl).
  assert (Hf : List.length (compress keep frequencies) = count_true keep)
    by (apply length_compress; lia).
  destruct (compress keep frequencies) as [|frequency rest] eqn:Ef; [cbn in Hf; lia|].
  destruct (@tf_mix_mismatch fs function L n_dec (tile_1_by col L) 0 frequency rest
              (repeat 0%R (Z.to_nat L)) (concat (repeat col (Z.to_nat L)))) as (e & He).
  - reflexivity.
  - rewrite length_concat_repeat, repeat_length, Ecol. nia.
  - rewrite length_concat_repeat, Ecol. nia.
  - rewrite He. cbn [bind]. eexists; reflexivity.
Qed.

End TileFacts.

(** ** Where the shape error comes from *)

Section ShapeFacts.

#[local] Open Scope R_scope.

Lemma not_shape_bind {A B} (m : result A) (k : A -> result B) :
  not_shape m -> (forall a, not_shape (k a)) -> not_shape (bind m k).
Proof.
  intros Hm Hk. destruct m as [a|e]; cbn; [apply Hk|].
  intros H. apply Hm. inversion H. reflexivity.
Qed.

Lemma amax_not_shape l : not_shape (amax l).
Proof. destruct l; intros H; discriminate. Qed.

Lemma amin_not_shape l : not_shape (amin l).
Proof. destruct l; intros H; discriminate. Qed.

Lemma amaxR_not_shape l : not_shape (amaxR l).
Proof. destruct l; intros H; discriminate. Qed.

Lemma zeros_not_shape n : not_shape (zeros n).
Proof. unfold zeros. destruct (0 <=? n)%Z; intros ?; discriminate. Qed.

Lemma getitem_not_shape {A} (a : list A) i : not_shape (getitem a i).
Proof.
  unfold getitem. cbv zeta. destruct (_ <? 0)%Z; [intros ?; discriminate|].
  destruct (nth_error a _); intros ?; discriminate.
Qed.

Lemma tf_normalize_not_shape gram times last : not_shape (tf_normalize gram times last).
Proof.
  unfold tf_normalize. apply not_shape_bind.
  - unfold tf_stack.
    apply not_shape_bind; [apply amin_not_shape|intros tmin].
    apply not_shape_bind; [apply amax_not_shape|intros tmax]. intros H; discriminate.
  - intros [[pb pa] stacked] H. discriminate.
Qed.

Lemma amax_axis1_not_shape rs : not_shape (amax_axis1 rs).
Proof.
  induction rs as [|r rs IH]; cbn [amax_axis1]; [intros ?; discriminate|].
  apply not_shape_bind; [apply amax_not_shape|intros m].
  apply not_shape_bind; [exact IH|intros ms]. intros ?; discriminate.
Qed.

Lemma tf_freq_keep_not_shape g threshold : not_shape (tf_freq_keep g threshold).
Proof.
  unfold tf_freq_keep. apply not_shape_bind; [apply amax_axis1_not_shape|].
  intros ms H; discriminate.
Qed.

Lemma interp1d_not_shape {V} `{Float V} x (y : list V) k fill : not_shape (interp1d x y k fill).
Proof.
  unfold interp1d. destruct (_ =? _)%nat; [|intros ?; discriminate].
  destruct (_ <=? _)%nat; intros ?; discriminate.
Qed.

Lemma interp_rows_not_shape x rs L : not_shape (interp_rows x rs L).
Proof.
  induction rs as [|r rs IH]; cbn [interp_rows]; [intros ?; discriminate|].
  apply not_shape_bind; [apply interp1d_not_shape|intros f].
  apply not_shape_bind; [exact IH|intros o]. intros ?; discriminate.
Qed.

Lemma column0_not_shape rs : not_shape (column0 rs).
Proof.
  induction rs as [|r rs IH]; cbn [column0]; [intros ?; discriminate|].
  apply not_shape_bind; [apply getitem_not_shape|intros m].
  apply not_shape_bind; [exact IH|intros ms]. intros ?; discriminate.
Qed.

Lemma tf_signal_not_shape g times fs L : not_shape (tf_signal g times fs L).
Proof.
  unfold tf_signal. destruct (_ <? _)%nat; [apply interp_rows_not_shape|].
  apply not_shape_bind; [apply column0_not_shape|]. intros c H; discriminate.
Qed.

Lemma fast_synthesize_not_shape frequency n_dec fs function length :
  not_shape (_fast_synthesize frequency n_dec fs function length).
Proof.
  unfold _fast_synthesize. cbv zeta.
  destruct (negb _); [|intros ?; discriminate].
  destruct (0 <=? _)%Z; intros ?; discriminate.
Qed.

Lemma convolve_same_not_shape a b : not_shape (convolve_same a b).
Proof.
  unfold convolve_same. destruct (negb _); [|intros ?; discriminate].
  destruct (negb _); intros ?; discriminate.
Qed.

Lemma broadcast2_not_shape {A B C} (f : A -> B -> C) a b : not_shape (broadcast2 f a b).
Proof.
  unfold broadcast2. destruct (_ =? _)%nat; [intros ?; discriminate|].
  destruct a as [|x [|x' a']]; destruct b as [|y [|y' b']]; intros ?; discriminate.
Qed.

Lemma iadd_not_shape output v : not_shape (iadd output v).
Proof.
  unfold iadd. destruct (_ =? _)%nat; [intros ?; discriminate|].
  destruct v as [|y [|y' v']]; intros ?; discriminate.
Qed.

Lemma tf_mix_not_shape fs function length n_dec signal frequencies :
  forall n output, not_shape (tf_mix fs function length n_dec signal n frequencies output).
Proof.
  induction frequencies as [|frequency rest IH]; intros n output; cbn [tf_mix];
    [intros ?; discriminate|].
  apply not_shape_bind; [apply fast_synthesize_not_shape|intros wave].
  destruct (negb _); [|intros ?; discriminate].
  destruct (0 <=? _)%Z; [|intros ?; discriminate].
  apply not_shape_bind; [apply getitem_not_shape|intros row].
  apply not_shape_bind; [apply convolve_same_not_shape|intros conv].
  apply not_shape_bind; [apply broadcast2_not_shape|intros mixed].
  apply not_shape_bind; [apply iadd_not_shape|intros out]. apply IH.
Qed.

Lemma normalize_not_shape output : not_shape (normalize output).
Proof.
  unfold normalize. apply not_shape_bind; [apply amaxR_not_shape|]. intros n H; discriminate.
Qed.

(** The shape error of [time_frequency] can only come from its own two
    checks. *)
Lemma time_frequency_shape_origin gram frequencies times fs function length n_dec threshold :
  time_frequency gram frequencies times fs function length n_dec threshold = Error ShapeMismatch
  <-> tf_validate gram frequencies times fs length = Error ShapeMismatch.
Proof.
  unfold time_frequency. split.
  - destruct (tf_validate gram frequencies times fs length) as [[[times0 L] last]|e];
      cbn [bind]; [|intros H; inversion H; reflexivity].
    intros H. exfalso. revert H.
    apply not_shape_bind; [apply tf_normalize_not_shape|intros [g times']].
    apply not_shape_bind; [apply zeros_not_shape|intros output].
    destruct (_ =? _)%nat; [intros ?; discriminate|].
    apply not_shape_bind; [apply tf_freq_keep_not_shape|intros keep].
    apply not_shape_bind; [apply tf_signal_not_shape|intros signal].
    apply not_shape_bind; [apply tf_mix_not_shape|intros mix].
    apply normalize_not_shape.
  - intros ->. reflexivity.
Qed.

Lemma length_timestamp_intervals (t : list Q) :
  length (combine (removelast t) (tl t)) = (length t - 1)%nat.
Proof.
  rewrite length_combine, length_removelast_tl, Nat.min_id.
  destruct t; cbn; lia.
Qed.

Lemma amax_entries_ok (iv : list (Q * Q)) :
  iv <> [] -> exists m, amax (entries iv) = Ok m.
Proof.
  destruct iv as [|p iv]; [congruence|]. intros _. cbn. eauto.
Qed.

Lemma tf_validate_shape_iff gram frequencies times fs length :
  fs <> 0%Z -> derived_intervals times <> 0%nat ->
  (tf_validate gram frequencies times fs length = Error ShapeMismatch
   <-> shape_mismatch gram frequencies times).
Proof.
  intros Hfs Hd. unfold tf_validate, shape_mismatch.
  set (conv := match times with
               | Timestamps t => (combine (removelast t) (tl t), true)
               | Intervals iv => (iv, false) end).
  assert (Hlen : List.length (fst conv) = derived_intervals times).
  { unfold conv. destruct times as [t|iv]; cbn [fst derived_intervals];
      [apply length_timestamp_intervals | reflexivity]. }
  assert (Hcount : interval_count times (ncols gram) =
                   if snd conv && negb (List.length (fst conv) =? ncols gram)%nat
                   then S (List.length (fst conv)) else List.length (fst conv)).
  { unfold conv. destruct times as [t|iv]; cbn [fst snd interval_count andb]; [|reflexivity].
    rewrite length_timestamp_intervals.
    destruct (Nat.eqb (List.length t - 1) (ncols gram)); reflexivity. }
  rewrite Hcount. clear Hcount.
  destruct conv as [iv flag]. cbn [fst snd] in *.
  destruct (@amax_entries_ok iv) as [m Hm]; [destruct iv; [cbn in Hlen; lia | discriminate]|].
  rewrite Hm. cbn [bind].
  assert (HL : exists L, match length with Some l => Ok l | None => Ok (int (m * float fs)) end
                         = Ok L).
  { destruct length; eauto. }
  destruct HL as [L ->]. cbn [bind].
  replace (fs =? 0)%Z with false by (symmetry; now apply Z.eqb_neq). cbn [negb].
  destruct (flag && negb (List.length iv =? ncols gram)%nat) eqn:Eflag; cbn [bind].
  - rewrite length_app. cbn [List.length]. rewrite Nat.add_1_r.
    destruct (Nat.eqb_spec (S (List.length iv)) (ncols gram)) as [E1|E1].
    + destruct (Nat.eqb_spec (List.length frequencies) (nrows gram)) as [E2|E2].
      * split; [discriminate | intros [H|H]; contradiction].
      * split; [auto | reflexivity].
    + split; [auto | reflexivity].
  - destruct (Nat.eqb_spec (List.length iv) (ncols gram)) as [E1|E1].
    + destruct (Nat.eqb_spec (List.length frequencies) (nrows gram)) as [E2|E2].
      * split; [discriminate | intros [H|H]; contradiction].
      * split; [auto | reflexivity].
    + split; [auto | reflexivity].
Qed.

Lemma time_frequency_shape_iff gram frequencies times fs function length n_dec threshold :
  fs <> 0%Z -> derived_intervals times <> 0%nat ->
  (time_frequency gram frequencies times fs function length n_dec threshold
     = Error ShapeMismatch
   <-> shape_mismatch gram frequencies times).
Proof.
  intros Hfs Hd. rewrite time_frequency_shape_origin. now apply tf_validate_shape_iff.
Qed.

End ShapeFacts.

(** ** clicks *)

Section ClicksFacts.

#[local] Open Scope R_scope.

Lemma nth_zeros n j : nth j (repeat 0 n) 0 = 0.
Proof. apply nth_repeat. Qed.

Lemma clicks_explicit_length times fs click length :
  clicks times fs click (Some length) =
  (click_signal <- zeros length ;;
   place_clicks fs (click_of fs click) length times click_signal).
Proof. reflexivity. Qed.

Lemma len_zeros n : (0 <= n)%Z -> len (repeat 0 (Z.to_nat n)) = n.
Proof. intros H. unfold len. rewrite repeat_length. lia. Qed.

Lemma clicks_default_length times fs click m :
  (0 < fs)%Z -> Forall (fun t => (0 <= t)%Q) times -> amax times = Ok m ->
  let c := click_of fs click in
  let L := int (m * float fs + float (len c) + 1) in
  exists out,
    clicks times fs click None = Ok out /\
    List.length out = Z.to_nat L /\
    Forall (fits fs c L) times /\
    forall j, nth j out 0 = clicks_value fs c times j.
Proof.
  intros Hfs Hpos Hm c L.
  pose proof (default_length_fits c Hfs Hpos Hm) as Hfit. fold L in Hfit.
  assert (HL : (0 <= L)%Z).
  { destruct times as [|t ts]; [discriminate|].
    inversion Hfit as [|? ? [H0 H1] _]; subst. unfold len in H1. lia. }
  unfold clicks. fold (click_of fs click). fold c. rewrite Hm. cbn [bind]. fold L.
  rewrite (zeros_ok HL). cbn [bind].
  destruct (@place_clicks_fit fs c L times (repeat 0 (Z.to_nat L)) Hfit (len_zeros HL))
    as (out & Hout & Hlen & Hnth).
  exists out. split; [exact Hout|]. split; [now rewrite Hlen, repeat_length|].
  split; [exact Hfit|].
  intros j. rewrite Hnth. unfold clicks_value.
  destruct (last_cover fs (len c) times (Z.of_nat j)); [reflexivity | apply nth_zeros].
Qed.



End ClicksFacts.

(** ** The envelope of a kept row *)

Section EnvelopeFacts.

#[local] Open Scope Q_scope.



Lemma hd_nth0 {A} (l : list A) d : hd d l = nth 0 l d.
Proof. destruct l; reflexivity. Qed.


Lemma Sorted_Qlt_strong (l : list Q) : Sorted Qlt l -> StronglySorted Qlt l.
Proof. apply Sorted_StronglySorted. exact Qlt_trans. Qed.


End EnvelopeFacts.

(** ** pitch_contour with its default length, and two worked contours *)

Section ContourExamples.

#[local] Open Scope R_scope.

Lemma pitch_contour_resolved times frequencies fs amplitudes function length kind L :
  resolve_length times fs length = Ok L ->
  pitch_contour times frequencies fs amplitudes function length kind
  = pitch_contour times frequencies fs amplitudes function (Some L) kind.
Proof.
  unfold resolve_length, pitch_contour. destruct length as [l|].
  - intros H; inversion H; reflexivity.
  - destruct (amax times) as [m|]; [|discriminate]. cbn [bind].
    intros H; inversion H; reflexivity.
Qed.

Lemma sorted_half_1 : Sorted Qlt [1 # 2; 1%Q].
Proof. repeat constructor. Qed.


Lemma contour_constant times f fs function length L :
  (0 < fs)%Z -> Sorted Qlt times -> times <> [] -> (0 <= f)%Q ->
  resolve_length times fs length = Ok L ->
  let K := List.length times in
  let lo := (hd 0%Q times * float fs)%Q in
  let hi := (last times 0%Q * float fs)%Q in
  let i0 := Z.to_nat (Qceiling lo) in
  exists out,
    pitch_contour times (repeat (Finite f) K) fs (Some (repeat 1%Q K)) function
                  length Linear = Ok out /\
    List.length out = Z.to_nat L /\
    forall i, (i < Z.to_nat L)%nat ->
      let x := inject_Z (Z.of_nat i) in
      ((lo <= x <= hi)%Q ->
         nth i out 0 = function (INR (S i - i0) * (2 * PI * Q2R f / IZR fs))) /\
      ((x < lo \/ hi < x)%Q -> nth i out 0 = 0).
Proof.
  intros Hfs Hs Hne Hf HL K lo hi i0.
  rewrite (@pitch_contour_resolved _ _ _ _ _ _ _ _ HL).
  apply pitch_contour_constant; try assumption. now apply Sorted_Qlt_strong.
Qed.

Lemma contour_phase_example :
  exists out,
    pitch_contour [1 # 2; 1%Q] [Finite 1; Finite 1] 4 (Some [1%Q; 1%Q]) sin (Some 4%Z) Linear
      = Ok out /\
    nth 2 out 0 = 1 /\ nth 0 out 0 = 0.
Proof.
  destruct (@contour_constant [1 # 2; 1%Q] 1 4 sin (Some 4%Z) 4) as (out & Hout & _ & Hi).
  - lia.
  - exact sorted_half_1.
  - discriminate.
  - unfold Qle; cbn; lia.
  - reflexivity.
  - exists out. split; [exact Hout|]. split.
    + destruct (Hi 2%nat) as [H _]; [cbn; lia|]. rewrite H.
      * change (INR (3 - Z.to_nat (Qceiling (hd 0%Q [1 # 2; 1%Q] * float 4)))) with (INR 1).
        replace (INR 1 * (2 * PI * Q2R 1 / 4)) with (PI / 2)
          by (unfold Q2R; cbn; field).
        apply sin_PI2.
      * split; unfold Qle; cbn; lia.
    + destruct (Hi 0%nat) as [_ H]; [cbn; lia|]. apply H. left. unfold Qlt; cbn; lia.
Qed.



End ContourExamples.

(** ** Worked examples of clicks *)

Section ClickExamples.

#[local] Open Scope R_scope.

Lemma default_click_length_8000 : List.length (default_click 8000) = 800%nat.
Proof.
  unfold default_click, arange_float. rewrite length_map, length_seq. reflexivity.
Qed.

Lemma default_click_nth fs k : (k < List.length (default_click fs))%nat ->
  nth k (default_click fs) 0 =
  sin (2 * PI * INR k * 1000 / (1 * IZR fs)) * exp (- INR k / (IZR fs * Q2R (1 # 100))).
Proof.
  unfold default_click, arange_float. rewrite length_map, length_seq. intros Hk.
  rewrite nth_map_seq by assumption. reflexivity.
Qed.

Lemma last_cover_single fs size time j :
  last_cover fs size [time] j =
  if ((click_start fs time <=? j) && (j <? click_start fs time + size))%Z
  then Some (click_start fs time) else None.
Proof. reflexivity. Qed.

Lemma clicks_half_second :
  exists out,
    clicks [1 # 2] 8000 None None = Ok out /\
    List.length out = 4801%nat /\
    List.length (default_click 8000) = 800%nat /\
    (forall j, (j < 4000)%nat -> nth j out 0 = 0) /\
    (forall k, (k < 800)%nat -> nth (4000 + k) out 0 = nth k (default_click 8000) 0) /\
    nth 4800 out 0 = 0.
Proof.
  destruct (@clicks_default_length [1 # 2] 8000 None (1 # 2)) as (out & Hout & Hlen & _ & Hnth).
  - lia.
  - repeat constructor. unfold Qle; cbn; lia.
  - reflexivity.
  - cbn [click_of] in *.
    assert (Hc : len (default_click 8000) = 800%Z)
      by (unfold len; rewrite default_click_length_8000; reflexivity).
    rewrite Hc in Hlen.
    assert (Hs : click_start 8000 (1 # 2) = 4000%Z) by reflexivity.
    assert (Hv : forall j, nth j out 0 =
              if ((4000 <=? Z.of_nat j) && (Z.of_nat j <? 4800))%Z
              then nth (Z.to_nat (Z.of_nat j - 4000)) (default_click 8000) 0 else 0).
    { intros j. rewrite Hnth. unfold clicks_value. rewrite last_cover_single, Hc, Hs.
      change (4000 + 800)%Z with 4800%Z.
      destruct ((4000 <=? Z.of_nat j) && (Z.of_nat j <? 4800))%Z; reflexivity. }
    exists out. split; [exact Hout|]. split; [rewrite Hlen; reflexivity|].
    split; [exact default_click_length_8000|]. split; [|split].
    + intros j Hj. rewrite Hv.
      replace (4000 <=? Z.of_nat j)%Z with false by (symmetry; apply Z.leb_gt; lia).
      reflexivity.
    + intros k Hk. rewrite Hv.
      replace (4000 <=? Z.of_nat (4000 + k))%Z with true by (symmetry; apply Z.leb_le; lia).
      replace (Z.of_nat (4000 + k) <? 4800)%Z with true by (symmetry; apply Z.ltb_lt; lia).
      cbn [andb]. f_equal. lia.
    + rewrite Hv.
      replace (Z.of_nat 4800 <? 4800)%Z with false by (symmetry; apply Z.ltb_ge; lia).
      rewrite andb_false_r. reflexivity.
Qed.


End ClickExamples.

(** ** time_frequency returns on well-formed input *)

Section ReturnFacts.

#[local] Open Scope R_scope.

Lemma flat_collect_length (v : strided) : forall count start,
  (start + count <= flat_size v)%nat ->
  (flat_size v <= shape0 v * List.length (base v))%nat ->
  (stride0 v = 0%nat) -> (stride1 v = 1%nat) -> shape1 v = List.length (base v) ->
  List.length (flat_collect v start count) = count.
Proof.
  induction count as [|count IH]; intros start Hs Hb H0 H1 Hsh; [reflexivity|].
  cbn [flat_collect]. unfold flat_get.
  replace (start <? flat_size v)%nat with true by (symmetry; apply Nat.ltb_lt; lia).
  rewrite H0, H1, Nat.mul_0_r, Nat.mul_1_r, Nat.add_0_l, Hsh.
  assert (Hpos : List.length (base v) <> 0%nat).
  { intros E. unfold flat_size in Hs. rewrite Hsh, E, Nat.mul_0_r in Hs. lia. }
  destruct (nth_error (base v) (start mod List.length (base v))) as [x|] eqn:E.
  - cbn [List.length]. f_equal. apply IH; try assumption. lia.
  - exfalso. apply nth_error_None in E.
    pose proof (Nat.mod_upper_bound start (List.length (base v)) Hpos). lia.
Qed.

(** The generator returns a view holding at least [length] samples. *)
Lemma fast_synthesize_ok frequency n_dec fs function length :
  (0 <= n_dec)%Z -> (0 < fs)%Z -> (0 <= length)%Z ->
  exists wave,
    _fast_synthesize frequency n_dec fs function length = Ok wave /\
    List.length (flat_take wave length) = Z.to_nat length.
Proof.
  intros Hn Hfs Hlen.
  assert (Hpow : (0 < 10 ^ n_dec)%Z) by (apply Z.pow_pos_nonneg; lia).
  assert (Hc : (0 < 10 ^ n_dec * fs)%Z) by nia.
  unfold _fast_synthesize.
  rewrite (pow10_nonneg Hn). unfold float. rewrite int_mult_inject.
  unfold arange.
  set (cycleLen := Z.to_nat (10 ^ n_dec * fs)).
  set (short := map _ (seq 0 cycleLen)).
  assert (Hls : List.length short = cycleLen)
    by (unfold short; now rewrite length_map, length_seq).
  assert (Hlen_s : len short = (10 ^ n_dec * fs)%Z)
    by (unfold len; rewrite Hls; unfold cycleLen; lia).
  rewrite Hlen_s.
  replace ((10 ^ n_dec * fs =? 0)%Z) with false by (symmetry; apply Z.eqb_neq; lia).
  cbn [negb]. rewrite Qceiling_div by assumption.
  destruct (ceil_div_cover Hc Hlen) as [Hrep Hcov].
  set (n_repeats := (- (- length / (10 ^ n_dec * fs)))%Z) in *.
  replace (0 <=? n_repeats)%Z with true by (symmetry; now apply Z.leb_le).
  eexists; split; [reflexivity|].
  assert (Hsize : (Z.to_nat length <= Z.to_nat n_repeats * cycleLen)%nat).
  { unfold cycleLen. rewrite <- Z2Nat.inj_mul by lia. apply Z2Nat.inj_le; lia. }
  unfold flat_take.
  assert (Hfs' : flat_size (as_strided short (Z.to_nat n_repeats) (List.length short) 0 1)
                 = (Z.to_nat n_repeats * cycleLen)%nat)
    by (unfold flat_size; cbn [shape0 shape1]; now rewrite Hls).
  rewrite Hfs', Nat.min_l by lia.
  apply flat_collect_length; cbn [base shape0 shape1 stride0 stride1]; try reflexivity.
  all: rewrite ?Hfs', ?Hls; lia.
Qed.



Lemma iadd_ok (output v : list R) :
  List.length v = List.length output ->
  exists out, iadd output v = Ok out /\ List.length out = List.length output.
Proof.
  intros H. unfold iadd. rewrite H, Nat.eqb_refl. eexists; split; [reflexivity|].
  rewrite length_map, length_combine. lia.
Qed.

Lemma broadcast2_ok {A B C} (f : A -> B -> C) (a : list A) (b : list B) :
  List.length a = List.length b ->
  exists c, broadcast2 f a b = Ok c /\ List.length c = List.length b.
Proof.
  intros H. unfold broadcast2. rewrite H, Nat.eqb_refl. eexists; split; [reflexivity|].
  rewrite length_map, length_combine. lia.
Qed.




Lemma Forall_compress {A} (P : A -> Prop) (mask : list bool) : forall (a : list A),
  Forall P a -> Forall P (compress mask a).
Proof.
  intros a H. apply Forall_forall. intros x Hx. rewrite Forall_forall in H.
  eapply H, compress_incl, Hx.
Qed.

(** Normalisation succeeds on a non-empty buffer and keeps its length. *)
Lemma normalize_ok (output : list R) :
  output <> [] ->
  exists out, normalize output = Ok out /\ List.length out = List.length output.
Proof.
  intros Hne. unfold normalize. destruct output as [|x output]; [congruence|].
  cbn [map amaxR bind]. eexists; split; [reflexivity|].
  destruct (Rge_dec _ _); [|reflexivity].
  change (?a / ?m :: map ?f output)%R with (map f (x :: output)). apply length_map.
Qed.


End ReturnFacts.

(** * The claims *)

Section Claims.

#[local] Open Scope R_scope.

(** ** C1: the tiled waveform equals pointwise generation *)




(** ** C2: the peak law of time_frequency *)




(** ** C3: the envelope of a kept row *)




(** ** C4: the shape error *)

(** C4 at its failing input.  One time stamp for a grid of one column is a
    [times] of the documented shape [(gram.shape[1],)], and the
    specification counts one interval for it (the trailing interval), so no
    shape error is due; the code takes [np.max] of the empty array of
    derived intervals and raises. *)
Theorem single_timestamp_raises :
  ~ shape_mismatch tone_gram [440%Q] (Timestamps [0%Q]) /\
  time_frequency tone_gram [440%Q] (Timestamps [0%Q]) 8000 sin (Some 8000%Z) 1 (1 # 100)
  = Error ZeroSizeReduction.
Proof.
  split; [|reflexivity].
  unfold shape_mismatch. cbn. intros [H|H]; apply H; reflexivity.
Qed.

(** ** C5: a single surviving interval *)

(** C5 on the code.  When exactly one interval survives and two or more
    frequency rows are kept, the envelope array has ONE row, of
    [rows * length] items ([np.tile] of a one-dimensional array), and the
    first round of the mixing loop cannot add it to the buffer of [length]
    samples: [time_frequency] raises for every such input with
    [length >= 1]. *)
Theorem single_interval_many_rows_raises
    gram frequencies times fs function length n_dec threshold times0 L last g times' keep :
  wf_matrix gram ->
  tf_validate gram frequencies times fs length = Ok (times0, L, last) ->
  tf_normalize gram times0 last = Ok (g, times') ->
  List.length times' = 1%nat ->
  tf_freq_keep g threshold = Ok keep ->
  (2 <= count_true keep)%nat -> (1 <= L)%Z ->
  exists e, time_frequency gram frequencies times fs function length n_dec threshold = Error e.
Proof.
  intros. eapply time_frequency_single_interval_raises; eassumption.
Qed.

Lemma pair_raises_broadcast :
  time_frequency pair_gram [1%Q; 2%Q] tone_times 4 sin (Some 4%Z) 1 (1 # 100)
  = Error BroadcastError.
Proof. run_pipeline. reflexivity. Qed.

Lemma single_interval_many_rows_raises_witness :
  exists e,
    time_frequency pair_gram [1%Q; 2%Q] tone_times 4 sin (Some 4%Z) 1 (1 # 100) = Error e.
Proof.
  apply (@single_interval_many_rows_raises pair_gram [1%Q; 2%Q] tone_times 4 sin (Some 4%Z) 1
           (1 # 100) [(0%Q, 1%Q)] 4 (4 # 4) pair_gram [(0%Q, 4 # 4)] [true; true]).
  - repeat constructor.
  - reflexivity.
  - reflexivity.
  - reflexivity.
  - reflexivity.
  - cbn. lia.
  - lia.
Defined.

(** ** C6: a constant pitch contour *)




(** ** C7: no surviving interval *)

(** C7.  When the shapes are accepted and no interval of the padded grid
    overlaps [0, length/fs] (each one ends before 0 or starts after
    [length/fs]), [time_frequency] returns the buffer of [L >= 0] zeros and
    raises nothing. *)
Theorem no_surviving_interval_silent
    gram frequencies times fs function length n_dec threshold
    times0 L last pad_before pad_after stacked :
  tf_validate gram frequencies times fs length = Ok (times0, L, last) ->
  tf_stack times0 last = Ok (pad_before, pad_after, stacked) ->
  (0 <= L)%Z ->
  Forall (fun iv => (snd iv < 0 \/ last < fst iv)%Q) stacked ->
  time_frequency gram frequencies times fs function length n_dec threshold
  = Ok (repeat 0 (Z.to_nat L)).
Proof.
  intros. eapply time_frequency_no_interval; eassumption.
Qed.

Lemma no_surviving_interval_silent_witness :
  time_frequency outside_gram [1%Q] outside_times 4 sin (Some 4%Z) 1 (1 # 100)
  = Ok [0; 0; 0; 0].
Proof.
  apply (@no_surviving_interval_silent outside_gram [1%Q] outside_times 4 sin (Some 4%Z) 1
           (1 # 100) [((-2)%Q, (-1)%Q); (5%Q, 6%Q)] 4 (4 # 4) false false
           [((-2)%Q, (-1)%Q); (5%Q, 6%Q)]).
  - reflexivity.
  - reflexivity.
  - lia.
  - constructor; [left; unfold Qlt; cbn; lia|].
    constructor; [right; unfold Qlt; cbn; lia|]. constructor.
Defined.

(** ** C8: where clicks are placed *)




(** ** C9: overlapping clicks *)



(** ** C10: the default amplitude *)



End Claims.

(** * Further facts *)

(** ** Slice assignment and the click loop *)

Section ClickLoopFacts.

#[local] Open Scope R_scope.

(** The bounds of a Python slice lie inside the sequence. *)
Lemma slice_range_inside (n : Z) (start stop : option Z) s c :
  (0 <= n)%Z -> slice_range n start stop = (s, c) -> (s + c <= Z.to_nat n)%nat.
Proof.
  intros Hn H. unfold slice_range in H. inversion H; subst; clear H.
  assert (Hb : forall b, (0 <= slice_bound n b <= n)%Z).
  { intros b. unfold slice_bound. destruct (Z.ltb_spec b 0); lia. }
  destruct start as [b|], stop as [e|];
    try pose proof (Hb b); try pose proof (Hb e); lia.
Qed.

Lemma Forall_firstn' {A} (P : A -> Prop) n (l : list A) : Forall P l -> Forall P (firstn n l).
Proof.
  intros H. rewrite <- (firstn_skipn n l) in H. now apply Forall_app in H.
Qed.

Lemma Forall_skipn' {A} (P : A -> Prop) n (l : list A) : Forall P l -> Forall P (skipn n l).
Proof.
  intros H. rewrite <- (firstn_skipn n l) in H. now apply Forall_app in H.
Qed.

(** A slice assignment keeps the length of the buffer, and every property
    that the old items and the assigned items share. *)
Lemma setslice_inv (a v b : list R) (start stop : option Z) (P : R -> Prop) :
  setslice a start stop v = Ok b ->
  List.length b = List.length a /\ (Forall P a -> Forall P v -> Forall P b).
Proof.
  unfold setslice. destruct (slice_range (len a) start stop) as [s c] eqn:E.
  apply slice_range_inside in E; [|unfold len; lia]. unfold len in E.
  rewrite Nat2Z.id in E.
  assert (Hl : forall w : list R, List.length w = c ->
             List.length (firstn s a ++ w ++ skipn (s + c) a) = List.length a).
  { intros w Hw. rewrite !length_app, length_firstn, length_skipn, Hw. lia. }
  assert (Hp : forall w : list R, Forall P a -> Forall P w ->
             Forall P (firstn s a ++ w ++ skipn (s + c) a)).
  { intros w Ha Hw. apply Forall_app. split; [now apply Forall_firstn'|].
    apply Forall_app. split; [exact Hw | now apply Forall_skipn']. }
  destruct (List.length v =? c)%nat eqn:Ev.
  - apply Nat.eqb_eq in Ev. intros H. inversion H; subst b. split; [now apply Hl | apply Hp].
  - destruct (List.length v =? 1)%nat eqn:E1; [|discriminate].
    intros H. inversion H; subst b. split; [apply Hl, repeat_length|].
    intros Ha Hv. apply Hp; [exact Ha|]. apply Forall_forall. intros x Hx.
    apply repeat_spec in Hx. subst x. destruct v as [|y v]; [discriminate|].
    now inversion Hv.
Qed.

Lemma getslice_Forall {A} (a : list A) (start stop : option Z) (P : A -> Prop) :
  Forall P a -> Forall P (getslice a start stop).
Proof.
  intros H. unfold getslice. destruct (slice_range (len a) start stop) as [s c].
  now apply Forall_firstn', Forall_skipn'.
Qed.

(** The click loop keeps the length of the buffer and writes nothing but
    samples of the click. *)
Lemma place_clicks_inv fs click length (P : R -> Prop) times : forall b out,
  place_clicks fs click length times b = Ok out ->
  List.length out = List.length b /\ (Forall P b -> Forall P click -> Forall P out).
Proof.
  induction times as [|time rest IH]; intros b out H; cbn [place_clicks] in H.
  - inversion H; subst. split; [reflexivity | tauto].
  - destruct (_ >=? length)%Z.
    + inversion H; subst. split; [reflexivity | tauto].
    + destruct (_ >=? length)%Z.
      * apply (setslice_inv _ _ _ _ P) in H. destruct H as [Hl Hp].
        split; [exact Hl|]. intros Hb Hc. apply Hp; [exact Hb|].
        now apply getslice_Forall.
      * apply bind_ok in H. destruct H as (mid & Hm & Hr).
        apply (setslice_inv _ _ _ _ P) in Hm. destruct Hm as [Hl Hp].
        apply IH in Hr. destruct Hr as [Hl' Hp'].
        split; [congruence|]. intros Hb Hc. apply Hp'; [now apply Hp | exact Hc].
Qed.

Lemma clicks_invariant times fs click length out :
  clicks times fs click length = Ok out ->
  exists L, clicks_length times fs click length = Ok L /\ (0 <= L)%Z /\
    List.length out = Z.to_nat L /\
    Forall (fun x => x = 0 \/ In x (click_of fs click)) out.
Proof.
  unfold clicks. intros H. apply bind_ok in H. destruct H as (L & HL & H).
  apply bind_ok in H. destruct H as (z & Hz & H). apply zeros_inv in Hz.
  destruct Hz as [HL0 ->].
  exists L. split.
  { unfold clicks_length, click_of. destruct length; [exact HL|].
    destruct click; exact HL. }
  split; [exact HL0|].
  apply (place_clicks_inv _ _ _ (fun x => x = 0 \/ In x (click_of fs click))) in H.
  destruct H as [Hl Hp]. split; [now rewrite Hl, repeat_length|].
  apply Hp.
  - apply Forall_repeat. now left.
  - apply Forall_forall. intros x Hx. right. unfold click_of. destruct click; exact Hx.
Qed.

Lemma click_start_nonneg fs time : (0 <= fs)%Z -> (0 <= time)%Q -> (0 <= click_start fs time)%Z.
Proof.
  intros Hfs Ht. unfold click_start.
  assert (H : (0 <= time * float fs)%Q).
  { apply Qmult_le_0_compat; [exact Ht|]. unfold float.
    change (inject_Z 0 <= inject_Z fs)%Q. now rewrite <- Zle_Qle. }
  rewrite (int_nonneg H). change 0%Z with (Qfloor 0). now apply Qfloor_resp_le.
Qed.

(** With clicks that start at or after sample 0 the loop never raises. *)
Lemma place_clicks_total fs click length times : forall b,
  Forall (fun t => (0 <= click_start fs t)%Z) times -> len b = length ->
  exists out, place_clicks fs click length times b = Ok out.
Proof.
  induction times as [|time rest IH]; intros b Ht Hb.
  - now exists b.
  - pose proof (Forall_inv Ht) as H0. pose proof (Forall_inv_tail Ht) as Hrest.
    cbn beta in H0.
    destruct (Z_le_gt_dec length (click_start fs time)) as [Hd|Hd].
    + exists b. now apply place_clicks_dropped.
    + destruct (Z_le_gt_dec length (click_start fs time + len click)) as [He|He].
      * eexists. apply place_clicks_truncated; [lia | exact He | exact Hb].
      * rewrite place_clicks_fit_step; [|split; lia | exact Hb].
        apply IH; [exact Hrest|]. unfold len in *.
        rewrite length_overwrite; [exact Hb | lia].
Qed.

Lemma clicks_nonnegative_total times fs click length :
  (0 <= fs)%Z -> (0 <= length)%Z -> Forall (fun t => (0 <= t)%Q) times ->
  exists out, clicks times fs click (Some length) = Ok out /\
    List.length out = Z.to_nat length /\
    Forall (fun x => x = 0 \/ In x (click_of fs click)) out.
Proof.
  intros Hfs HL Ht.
  destruct (@place_clicks_total fs (click_of fs click) length times (repeat 0 (Z.to_nat length)))
    as (out & Hout).
  - eapply Forall_impl; [|exact Ht]. intros t H. now apply click_start_nonneg.
  - now apply len_zeros.
  - assert (Hc : clicks times fs click (Some length) = Ok out).
    { rewrite clicks_explicit_length, zeros_ok by exact HL. exact Hout. }
    exists out. split; [exact Hc|].
    destruct (clicks_invariant _ _ _ _ Hc) as (L & HLeq & _ & Hlen & Hval).
    cbn in HLeq. inversion HLeq; subst L. split; assumption.
Qed.



(** A click that starts before sample 0 and reaches it cannot be written:
    the slice it is assigned to is shorter than the click. *)
Lemma place_clicks_straddle fs click length time rest b :
  (click_start fs time < 0)%Z -> (0 <= click_start fs time + len click)%Z ->
  (1 <= length)%Z -> (2 <= len click)%Z -> len b = length ->
  place_clicks fs click length (time :: rest) b = Error BroadcastError.
Proof.
  intros Hs He HL Hc Hb. cbn [place_clicks]. fold (click_start fs time).
  set (s := click_start fs time) in *.
  replace (s >=? length)%Z with false by (symmetry; rewrite Z.geb_leb; apply Z.leb_gt; lia).
  destruct (s + len click >=? length)%Z eqn:Eend.
  - rewrite Z.geb_leb in Eend. apply Z.leb_le in Eend.
    rewrite getslice_prefix by lia.
    unfold setslice, slice_range, slice_bound. rewrite Hb.
    replace (s <? 0)%Z with true by (symmetry; apply Z.ltb_lt; lia).
    assert (Hv : List.length (firstn (Z.to_nat (length - s)) click) = Z.to_nat (length - s)).
    { rewrite length_firstn. unfold len in *. lia. }
    rewrite Hv.
    replace (Z.to_nat (length - s) =? Z.to_nat (length - Z.max (s + length) 0))%nat with false
      by (symmetry; apply Nat.eqb_neq; lia).
    replace (Z.to_nat (length - s) =? 1)%nat with false
      by (symmetry; apply Nat.eqb_neq; lia).
    reflexivity.
  - rewrite Z.geb_leb in Eend. apply Z.leb_gt in Eend.
    unfold setslice, slice_range, slice_bound. rewrite Hb.
    replace (s <? 0)%Z with true by (symmetry; apply Z.ltb_lt; lia).
    replace (s + len click <? 0)%Z with false by (symmetry; apply Z.ltb_ge; lia).
    replace (List.length click =? Z.to_nat (Z.min (s + len click) length - Z.max (s + length) 0))%nat
      with false by (symmetry; apply Nat.eqb_neq; unfold len in *; lia).
    replace (List.length click =? 1)%nat with false
      by (symmetry; apply Nat.eqb_neq; unfold len in *; lia).
    reflexivity.
Qed.

Lemma clicks_negative_straddle times_before time times_after fs click length :
  let c := click_of fs click in
  let s := click_start fs time in
  Forall (fits fs c length) times_before ->
  (s < 0)%Z -> (0 <= s + len c)%Z -> (1 <= length)%Z -> (2 <= len c)%Z ->
  clicks (times_before ++ time :: times_after) fs click (Some length)
  = Error BroadcastError.
Proof.
  intros c s Hfit Hs He HL Hc.
  destruct (@place_clicks_app fs c length times_before (time :: times_after)
              (repeat 0 (Z.to_nat length)) Hfit)
    as (mid & Hmid & Hlen & Happ); [apply len_zeros; lia|].
  rewrite clicks_explicit_length, zeros_ok by lia. cbn [bind].
  fold c. rewrite Happ. apply place_clicks_straddle; try assumption.
  unfold len. rewrite Hlen, repeat_length. lia.
Qed.

End ClickLoopFacts.

(** ** The default click, and clicks that do not overlap *)

Section ClickOrderFacts.

#[local] Open Scope R_scope.

Lemma exp_neg_le_1 (x : R) : 0 <= x -> exp (- x) <= 1.
Proof.
  intros Hx. rewrite <- exp_0. destruct Hx as [Hx| <-].
  - left. apply exp_increasing. lra.
  - rewrite Ropp_0. lra.
Qed.

Lemma default_click_envelope fs k :
  (0 < fs)%Z -> (k < List.length (default_click fs))%nat ->
  Rabs (nth k (default_click fs) 0) <= exp (- (100 * INR k / IZR fs)) /\
  exp (- (100 * INR k / IZR fs)) <= 1.
Proof.
  intros Hfs Hk. rewrite (default_click_nth _ Hk).
  assert (Hpos : 0 < IZR fs) by now apply IZR_lt.
  assert (E : - INR k / (IZR fs * Q2R (1 # 100)) = - (100 * INR k / IZR fs)).
  { unfold Q2R. cbn. field. lra. }
  rewrite E. split.
  - rewrite Rabs_mult. rewrite (Rabs_right (exp _)) by (left; apply exp_pos).
    rewrite <- (Rmult_1_l (exp _)) at 2.
    apply Rmult_le_compat_r; [left; apply exp_pos|].
    apply Rabs_le. destruct (SIN_bound (2 * PI * INR k * 1000 / (1 * IZR fs))). lra.
  - apply exp_neg_le_1. apply Rmult_le_pos; [|left; now apply Rinv_0_lt_compat].
    apply Rmult_le_pos; [lra | apply pos_INR].
Qed.

Lemma default_click_first fs :
  default_click fs <> [] -> nth 0 (default_click fs) 0 = 0.
Proof.
  intros H. rewrite default_click_nth.
  - cbn [INR]. replace (2 * PI * 0 * 1000 / (1 * IZR fs)) with 0 by (unfold Rdiv; ring).
    rewrite sin_0. ring.
  - destruct (default_click fs); [congruence | cbn; lia].
Qed.

Lemma last_cover_some fs size times j s :
  last_cover fs size times j = Some s ->
  covers size s j = true /\ exists t, In t times /\ click_start fs t = s.
Proof.
  induction times as [|time rest IH]; cbn [last_cover]; [discriminate|].
  destruct (last_cover fs size rest j) as [s'|].
  - intros H. inversion H; subst s'. destruct (IH eq_refl) as (Hc & t & Ht & Hs).
    split; [exact Hc|]. exists t. split; [now right | exact Hs].
  - fold (covers size (click_start fs time) j).
    destruct (covers size (click_start fs time) j) eqn:E; [|discriminate].
    intros H. inversion H; subst s. split; [exact E|]. exists time. split; [now left | reflexivity].
Qed.

Lemma last_cover_none fs size times j :
  last_cover fs size times j = None <->
  forall t, In t times -> covers size (click_start fs t) j = false.
Proof.
  induction times as [|time rest IH]; cbn [last_cover].
  - split; [intros _ t [] | reflexivity].
  - destruct (last_cover fs size rest j) as [s'|] eqn:E.
    + split; [discriminate|]. intros H.
      destruct (last_cover_some _ _ _ _ E) as (Hc & t & Ht & Hs).
      rewrite <- Hs, H in Hc by now right. discriminate.
    + fold (covers size (click_start fs time) j).
      destruct (covers size (click_start fs time) j) eqn:Ec.
      * split; [discriminate|]. intros H. rewrite H in Ec by now left. discriminate.
      * split; [|reflexivity]. intros _ t [<-|Ht]; [exact Ec|].
        now apply (proj1 IH).
Qed.

Lemma last_cover_permutation fs size times times' j :
  Permutation times times' -> disjoint_clicks fs size times ->
  last_cover fs size times j = last_cover fs size times' j.
Proof.
  intros Hp Hd.
  destruct (last_cover fs size times j) as [s|] eqn:E;
    destruct (last_cover fs size times' j) as [s'|] eqn:E'; try reflexivity.
  - destruct (last_cover_some _ _ _ _ E) as (Hc & t & Ht & Hs).
    destruct (last_cover_some _ _ _ _ E') as (Hc' & u & Hu & Hs').
    apply (Permutation_in _ (Permutation_sym Hp)) in Hu.
    specialize (Hd t u Ht Hu). cbn zeta in Hd. rewrite Hs, Hs' in Hd.
    unfold covers in Hc, Hc'. f_equal. lia.
  - destruct (last_cover_some _ _ _ _ E) as (Hc & t & Ht & Hs).
    apply (Permutation_in _ Hp) in Ht. rewrite <- Hs in Hc.
    rewrite (proj1 (last_cover_none fs size times' j) E' t Ht) in Hc. discriminate.
  - destruct (last_cover_some _ _ _ _ E') as (Hc & t & Ht & Hs).
    apply (Permutation_in _ (Permutation_sym Hp)) in Ht.
    rewrite <- Hs in Hc.
    rewrite (proj1 (last_cover_none fs size times j) E t Ht) in Hc. discriminate.
Qed.

Lemma nth_ext_eq (a b : list R) :
  List.length a = List.length b -> (forall j, nth j a 0 = nth j b 0) -> a = b.
Proof.
  intros Hl Hn. apply (nth_ext _ _ 0 0 Hl). intros j _. apply Hn.
Qed.

Lemma clicks_fit_value times fs click length :
  (0 <= length)%Z -> Forall (fits fs (click_of fs click) length) times ->
  exists out, clicks times fs click (Some length) = Ok out /\
    List.length out = Z.to_nat length /\
    forall j, nth j out 0 = clicks_value fs (click_of fs click) times j.
Proof.
  intros HL Hfit.
  destruct (@place_clicks_fit fs (click_of fs click) length times (repeat 0 (Z.to_nat length)) Hfit)
    as (out & Hout & Hlen & Hj); [now apply len_zeros|].
  exists out. rewrite clicks_explicit_length, zeros_ok by exact HL. cbn [bind].
  split; [exact Hout|]. split; [now rewrite Hlen, repeat_length|].
  intros j. rewrite Hj. unfold clicks_value.
  destruct (last_cover _ _ _ _); [reflexivity | apply nth_zeros].
Qed.

Lemma clicks_disjoint_permutation times times' fs click length :
  (0 <= length)%Z -> Permutation times times' ->
  Forall (fits fs (click_of fs click) length) times ->
  disjoint_clicks fs (len (click_of fs click)) times ->
  exists out,
    clicks times fs click (Some length) = Ok out /\
    clicks times' fs click (Some length) = Ok out.
Proof.
  intros HL Hp Hfit Hd.
  destruct (@clicks_fit_value times fs click length HL Hfit) as (out & Hout & Hlen & Hj).
  assert (Hfit' : Forall (fits fs (click_of fs click) length) times').
  { eapply Permutation_Forall; eassumption. }
  destruct (@clicks_fit_value times' fs click length HL Hfit') as (out' & Hout' & Hlen' & Hj').
  exists out. split; [exact Hout|]. rewrite Hout'. f_equal.
  apply nth_ext_eq; [congruence|]. intros j. rewrite Hj, Hj'.
  unfold clicks_value. now rewrite (last_cover_permutation _ Hp Hd).
Qed.

Lemma clicks_default_unit times fs length out :
  (0 < fs)%Z -> clicks times fs None length = Ok out ->
  Forall (fun x => Rabs x <= 1) out.
Proof.
  intros Hfs H. destruct (clicks_invariant _ _ _ _ H) as (L & _ & _ & _ & Hval).
  eapply Forall_impl; [|exact Hval]. intros x [->|Hx].
  - rewrite Rabs_R0. lra.
  - cbn [click_of] in Hx. apply (In_nth _ _ 0) in Hx. destruct Hx as (k & Hk & <-).
    destruct (default_click_envelope Hfs Hk) as [H1 H2]. lra.
Qed.

End ClickOrderFacts.

(** ** Where the waveform generator returns *)

Section SynthFacts.

#[local] Open Scope R_scope.

Lemma int_le_0_iff (x : Q) : (int x <= 0)%Z <-> (x < 1)%Q.
Proof.
  destruct x as [p q]. unfold int, Qlt. cbn [Qnum Qden]. rewrite Z.mul_1_r, Z.mul_1_l.
  split.
  - intros H. destruct (Z_lt_le_dec p (Z.pos q)) as [Hl|Hl]; [exact Hl|].
    assert (1 <= p ÷ Z.pos q)%Z; [|lia].
    rewrite Z.quot_div_nonneg by lia. apply Z.div_le_lower_bound; lia.
  - intros H. destruct (Z_lt_le_dec p 0) as [Hn|Hn].
    + pose proof (Z.quot_opp_l p (Z.pos q)) as E.
      assert (0 <= (- p) ÷ Z.pos q)%Z by (apply Z.quot_pos; lia).
      assert ((- p) ÷ Z.pos q = - (p ÷ Z.pos q))%Z by (apply E; lia). lia.
    + rewrite Z.quot_small by lia. lia.
Qed.

Lemma len_arange_map {A} (f : nat -> A) (n : Z) :
  len (map f (arange n)) = Z.max 0 n.
Proof. unfold len, arange. rewrite length_map, length_seq. lia. Qed.

(** Where [_fast_synthesize] returns and where it raises. *)
Lemma fast_synthesize_cases frequency n_dec fs function length :
  let n := int (pow10 n_dec * float fs) in
  ((pow10 n_dec * float fs < 1)%Q ->
     _fast_synthesize frequency n_dec fs function length = Error ZeroDivisionError) /\
  ((1 <= pow10 n_dec * float fs)%Q -> (length <= - n)%Z ->
     _fast_synthesize frequency n_dec fs function length = Error NegativeDimensions) /\
  ((1 <= pow10 n_dec * float fs)%Q -> (- n < length)%Z ->
     exists wave,
       _fast_synthesize frequency n_dec fs function length = Ok wave /\
       List.length (base wave) = Z.to_nat n /\
       shape1 wave = Z.to_nat n /\
       ((length <= 0)%Z -> shape0 wave = 0%nat) /\
       ((0 < length)%Z ->
          (Z.of_nat (shape0 wave - 1) * n < length <= Z.of_nat (shape0 wave) * n)%Z) /\
       (forall i, (i < flat_size wave)%nat ->
          flat_get wave i = nth_error (base wave) (i mod Z.to_nat n))).
Proof.
  intros n. unfold _fast_synthesize. fold n. rewrite len_arange_map.
  split; [|split].
  - intros H. apply int_le_0_iff in H. fold n in H.
    replace (Z.max 0 n =? 0)%Z with true by (symmetry; apply Z.eqb_eq; lia).
    reflexivity.
  - intros H Hl. assert (Hn : (0 < n)%Z).
    { destruct (Z_lt_le_dec 0 n) as [Hn|Hn]; [exact Hn|].
      apply int_le_0_iff in Hn. apply Qlt_not_le in Hn. contradiction. }
    replace (Z.max 0 n =? 0)%Z with false by (symmetry; apply Z.eqb_neq; lia).
    cbn [negb]. rewrite Z.max_r by lia. unfold float. rewrite Qceiling_div by exact Hn.
    assert (1 <= - length / n)%Z by (apply Z.div_le_lower_bound; lia).
    replace (0 <=? - (- length / n))%Z with false by (symmetry; apply Z.leb_gt; lia).
    reflexivity.
  - intros H Hl. assert (Hn : (0 < n)%Z).
    { destruct (Z_lt_le_dec 0 n) as [Hn|Hn]; [exact Hn|].
      apply int_le_0_iff in Hn. apply Qlt_not_le in Hn. contradiction. }
    replace (Z.max 0 n =? 0)%Z with false by (symmetry; apply Z.eqb_neq; lia).
    cbn [negb]. rewrite Z.max_r by lia. unfold float. rewrite Qceiling_div by exact Hn.
    assert (Hrep : (0 <= - (- length / n))%Z).
    { destruct (Z_lt_le_dec 0 length) as [Hp|Hp].
      - assert (- length / n < 0)%Z by (apply Z.div_lt_upper_bound; lia). lia.
      - rewrite Z.div_small by lia. lia. }
    replace (0 <=? - (- length / n))%Z with true by (symmetry; now apply Z.leb_le).
    eexists. split; [reflexivity|]. unfold flat_get, flat_size.
    cbn [base shape0 shape1 stride0 stride1].
    unfold arange. rewrite length_map, length_seq.
    split; [reflexivity|]. split; [reflexivity|]. split; [|split].
    + intros Hle. rewrite Z.div_small by lia. reflexivity.
    + intros Hp. pose proof (Z.div_mod (- length) n ltac:(lia)) as Hdm.
      pose proof (Z.mod_pos_bound (- length) n Hn) as Hm.
      assert (- length / n < 0)%Z by (apply Z.div_lt_upper_bound; lia).
      rewrite !Nat2Z.inj_sub, !Z2Nat.id by lia. cbn. nia.
    + intros i Hi. apply Nat.ltb_lt in Hi. rewrite Hi. f_equal. lia.
Qed.

(** [np.rint] moves its argument by at most one half. *)
Lemma rint_error (x : Q) : (Qabs (inject_Z (rint x) - x) <= 1 # 2)%Q.
Proof.
  pose proof (Qfloor_le x) as Hlo. pose proof (Qlt_floor x) as Hhi.
  rewrite inject_Z_plus in Hhi. change (inject_Z 1) with 1%Q in Hhi.
  unfold rint. generalize dependent (Qfloor x). intros f Hlo Hhi.
  apply Qabs_Qle_condition.
  destruct (Qcompare_spec (x - inject_Z f) (1 # 2)) as [E|E|E];
    [destruct (Z.even f)| |];
    rewrite ?inject_Z_plus; change (inject_Z 1) with 1%Q;
    generalize dependent (inject_Z f); intros y Hlo Hhi E; split; Lqa.lra.
Qed.

Lemma pow10_pos n : (0 < pow10 n)%Q.
Proof.
  unfold pow10. destruct (0 <=? n)%Z eqn:E.
  - apply Z.leb_le in E. change (inject_Z 0 < inject_Z (10 ^ n))%Q.
    rewrite <- Zlt_Qlt. apply Z.pow_pos_nonneg; lia.
  - apply Z.leb_gt in E. apply Qlt_shift_div_l.
    + change (inject_Z 0 < inject_Z (10 ^ (- n)))%Q.
      rewrite <- Zlt_Qlt. apply Z.pow_pos_nonneg; lia.
    + rewrite Qmult_0_l. reflexivity.
Qed.

(** [np.round(x, n)] for [n >= 0] moves [x] by at most half a unit of the
    [n]-th decimal place. *)
Lemma round_error (x : Q) (n : Z) :
  (0 <= n)%Z -> (Qabs (Np.round x n - x) <= (1 # 2) / pow10 n)%Q.
Proof.
  intros Hn. unfold Np.round. replace (0 <=? n)%Z with true by (symmetry; now apply Z.leb_le).
  pose proof (pow10_pos n) as Hp. pose proof (rint_error (x * pow10 n)) as He.
  assert (E : (inject_Z (rint (x * pow10 n)) / pow10 n - x
               == (inject_Z (rint (x * pow10 n)) - x * pow10 n) / pow10 n)%Q).
  { field. intros H0. rewrite H0 in Hp. now apply Qlt_irrefl in Hp. }
  rewrite E. unfold Qdiv. rewrite Qabs_Qmult.
  rewrite (Qabs_pos (/ pow10 n)) by (apply Qlt_le_weak, Qinv_lt_0_compat; exact Hp).
  apply Qmult_le_compat_r; [exact He|].
  apply Qlt_le_weak, Qinv_lt_0_compat; exact Hp.
Qed.

Lemma fast_synthesize_frequency frequency n_dec fs function length :
  (0 <= n_dec)%Z -> (0 < fs)%Z -> (0 <= length)%Z ->
  exists wave fq,
    _fast_synthesize frequency n_dec fs function length = Ok wave /\
    (Qabs (fq - frequency) <= (1 # 2) / pow10 n_dec)%Q /\
    (exists m : Z, (fq * pow10 n_dec == inject_Z m)%Q) /\
    List.length (base wave) = Z.to_nat (10 ^ n_dec * fs) /\
    forall r, (r < Z.to_nat (10 ^ n_dec * fs))%nat ->
      nth_error (base wave) r = Some (function (2 * PI * INR r * Q2R fq / IZR fs)).
Proof.
  intros Hn Hfs HL.
  destruct (@fast_synthesize_ok frequency n_dec fs function length Hn Hfs HL) as (wave & Hw & _).
  exists wave, (Np.round frequency n_dec). split; [exact Hw|].
  split; [now apply round_error|]. split.
  { exists (rint (frequency * pow10 n_dec)). unfold Np.round.
    replace (0 <=? n_dec)%Z with true by (symmetry; now apply Z.leb_le).
    pose proof (pow10_pos n_dec) as Hp. field.
    intros H0. rewrite H0 in Hp. now apply Qlt_irrefl in Hp. }
  unfold _fast_synthesize in Hw.
  rewrite (pow10_nonneg Hn) in Hw. unfold float in Hw. rewrite int_mult_inject in Hw.
  destruct (negb _); [|discriminate]. destruct (0 <=? _)%Z; [|discriminate].
  inversion Hw; subst wave; clear Hw. cbn [base]. unfold arange.
  split; [now rewrite length_map, length_seq|].
  intros r Hr. now rewrite nth_error_map_seq.
Qed.

End SynthFacts.

(** ** Lengths and negative magnitudes in time_frequency *)

Section GridLengthFacts.

#[local] Open Scope R_scope.






(** *** Negative magnitudes *)
Lemma Qmax0_idem (x : Q) : Qmax (Qmax x 0) 0 = Qmax x 0.
Proof.
  unfold Qmax, GenericMinMax.gmax. destruct (x ?= 0)%Q eqn:E; rewrite ?E; reflexivity.
Qed.

Lemma compress_app {A} (m1 : list bool) : forall (a1 : list A) m2 a2,
  List.length m1 = List.length a1 ->
  compress (m1 ++ m2) (a1 ++ a2) = compress m1 a1 ++ compress m2 a2.
Proof.
  induction m1 as [|b m1 IH]; intros [|x a1] m2 a2 H; try discriminate; [reflexivity|].
  cbn in H. cbn [app compress]. rewrite IH by lia. now destruct b.
Qed.

Lemma tf_normalize_of_rows gram times last :
  tf_normalize gram times last =
  match tf_stack times last with
  | Ok (pb, pa, stacked) =>
      let idx := map (overlaps last) stacked in
      Ok (mk_matrix (count_true idx)
            (map (normal_row (if pb then 1 else 0) (if pa then 1 else 0) idx) (rows gram)),
          map (fun iv => (clip (fst iv) 0 last, clip (snd iv) 0 last)) (compress idx stacked))
  | Error e => Error e
  end.
Proof.
  unfold tf_normalize. destruct (tf_stack times last) as [[[pb pa] stacked]|e]; [|reflexivity].
  cbn [bind]. unfold maximum0, select_columns, pad_columns. cbn [ncols rows].
  rewrite !map_map. reflexivity.
Qed.

Lemma normal_row_maximum0 pb pa idx (r : list Q) :
  normal_row pb pa idx (map (fun x => Qmax x 0) r) = normal_row pb pa idx r.
Proof.
  unfold normal_row. rewrite <- !compress_map. f_equal.
  rewrite !map_app, !map_repeat', map_map. f_equal. f_equal.
  apply map_ext. intros x. apply Qmax0_idem.
Qed.

Lemma time_frequency_clips_negative gram frequencies times fs function length n_dec threshold :
  time_frequency (maximum0 gram) frequencies times fs function length n_dec threshold
  = time_frequency gram frequencies times fs function length n_dec threshold.
Proof.
  unfold time_frequency.
  assert (Hv : tf_validate (maximum0 gram) frequencies times fs length
               = tf_validate gram frequencies times fs length).
  { unfold tf_validate, maximum0, nrows. cbn [ncols rows]. now rewrite length_map. }
  rewrite Hv. destruct (tf_validate gram frequencies times fs length) as [[[times0 L] last]|e];
    [|reflexivity].
  cbn [bind]. rewrite (tf_normalize_of_rows (maximum0 gram)), (tf_normalize_of_rows gram).
  destruct (tf_stack times0 last) as [[[pb pa] stacked]|e]; [|reflexivity].
  cbn zeta. cbn [rows maximum0]. rewrite map_map.
  rewrite (map_ext _ _ (normal_row_maximum0 _ _ _)). reflexivity.
Qed.

End GridLengthFacts.

(** ** Rows below the threshold *)

Section QuietFacts.

#[local] Open Scope R_scope.

(** *** Rows below the threshold *)
Lemma fold_left_Qmax_In (l : list Q) : forall a, In (fold_left Qmax l a) (a :: l).
Proof.
  induction l as [|x l IH]; intros a; cbn [fold_left]; [now left|].
  destruct (IH (Qmax a x)) as [H|H]; [|now right; right].
  rewrite <- H. unfold Qmax, GenericMinMax.gmax.
  destruct (a ?= x)%Q; [now left | now right; left | now left].
Qed.

Lemma amax_In (l : list Q) (m : Q) : amax l = Ok m -> In m l.
Proof.
  destruct l as [|x l]; [discriminate|]. cbn [amax]. intros H. inversion H.
  apply fold_left_Qmax_In.
Qed.

Lemma amax_nonempty (l : list Q) : l <> [] -> exists m, amax l = Ok m.
Proof. destruct l; [congruence | eexists; reflexivity]. Qed.

Lemma amax_axis1_app (a b : list (list Q)) :
  amax_axis1 (a ++ b) = (ma <- amax_axis1 a ;; mb <- amax_axis1 b ;; Ok (ma ++ mb)).
Proof.
  induction a as [|r a IH]; cbn [app amax_axis1].
  - cbn [bind]. destruct (amax_axis1 b); reflexivity.
  - destruct (amax r); [|reflexivity]. cbn [bind]. rewrite IH.
    destruct (amax_axis1 a); [|reflexivity]. cbn [bind].
    destruct (amax_axis1 b); reflexivity.
Qed.

Lemma normal_row_length pb pa idx (r : list Q) :
  List.length idx = (pb + List.length r + pa)%nat ->
  List.length (normal_row pb pa idx r) = count_true idx.
Proof.
  intros H. unfold normal_row. rewrite length_map. apply length_compress.
  rewrite !length_app, !repeat_length. lia.
Qed.

Lemma normal_row_below pb pa idx (r : list Q) (threshold : Q) :
  (0 < threshold)%Q -> Forall (fun x => (x < threshold)%Q) r ->
  Forall (fun x => (x < threshold)%Q) (normal_row pb pa idx r).
Proof.
  intros Ht Hr. unfold normal_row. apply Forall_map. apply Forall_compress.
  assert (Hz : forall n, Forall (fun x => (Qmax x 0 < threshold)%Q) (repeat 0%Q n))
    by (intros n; apply Forall_repeat; exact Ht).
  apply Forall_app. split; [apply Hz|]. apply Forall_app. split; [|apply Hz].
  eapply Forall_impl; [|exact Hr]. intros x Hx. cbn beta in Hx.
  apply Q.max_lub_lt; assumption.
Qed.

Lemma stacked_length gram frequencies times fs length times0 L last pb pa stacked :
  tf_validate gram frequencies times fs length = Ok (times0, L, last) ->
  tf_stack times0 last = Ok (pb, pa, stacked) ->
  List.length (map (overlaps last) stacked)
  = ((if pb then 1 else 0) + ncols gram + (if pa then 1 else 0))%nat.
Proof.
  intros Hv Hs. destruct (tf_validate_spec _ _ _ _ _ Hv) as (Hlt & _).
  destruct (tf_stack_spec _ _ Hs) as (Hl & _). now rewrite length_map, Hl, Hlt.
Qed.

(** A row below the threshold is not kept. *)
Lemma freq_keep_insert (a b : list (list Q)) (r : list Q) (n : nat) (threshold : Q) :
  r <> [] -> Forall (fun x => (x < threshold)%Q) r ->
  tf_freq_keep (mk_matrix n (a ++ r :: b)) threshold
  = (ka <- tf_freq_keep (mk_matrix n a) threshold ;;
     kb <- tf_freq_keep (mk_matrix n b) threshold ;;
     Ok (ka ++ false :: kb)).
Proof.
  intros Hne Hr. unfold tf_freq_keep. cbn [rows].
  rewrite amax_axis1_app. cbn [amax_axis1].
  destruct (amax_nonempty Hne) as (m & Hm). rewrite Hm.
  assert (Hlt : Qle_bool threshold m = false).
  { apply Qle_bool_false. apply amax_In in Hm. rewrite Forall_forall in Hr. now apply Hr. }
  destruct (amax_axis1 a) as [ma|]; [|reflexivity]. cbn [bind].
  destruct (amax_axis1 b) as [mb|]; [|reflexivity]. cbn [bind].
  rewrite map_app. cbn [map]. now rewrite Hlt.
Qed.

Lemma freq_keep_app (a b : list (list Q)) (n : nat) (threshold : Q) :
  tf_freq_keep (mk_matrix n (a ++ b)) threshold
  = (ka <- tf_freq_keep (mk_matrix n a) threshold ;;
     kb <- tf_freq_keep (mk_matrix n b) threshold ;;
     Ok (ka ++ kb)).
Proof.
  unfold tf_freq_keep. cbn [rows]. rewrite amax_axis1_app.
  destruct (amax_axis1 a) as [ma|]; [|reflexivity]. cbn [bind].
  destruct (amax_axis1 b) as [mb|]; [|reflexivity]. cbn [bind].
  now rewrite map_app.
Qed.

Lemma tf_validate_insert nc rows1 (r : list Q) rows2 (f1 : list Q) f f2 times fs length :
  tf_validate (mk_matrix nc (rows1 ++ r :: rows2)) (f1 ++ f :: f2) times fs length
  = tf_validate (mk_matrix nc (rows1 ++ rows2)) (f1 ++ f2) times fs length.
Proof.
  unfold tf_validate, nrows. cbn [ncols rows].
  replace (List.length (f1 ++ f :: f2) =? List.length (rows1 ++ r :: rows2))%nat
    with (List.length (f1 ++ f2) =? List.length (rows1 ++ rows2))%nat; [reflexivity|].
  rewrite !length_app. cbn [List.length]. rewrite <- !plus_n_Sm. reflexivity.
Qed.

Lemma time_frequency_drops_quiet_row
    nc rows1 r rows2 f1 f f2 times fs function length n_dec threshold :
  List.length rows1 = List.length f1 -> List.length r = nc ->
  (0 < threshold)%Q -> Forall (fun x => (x < threshold)%Q) r ->
  time_frequency (mk_matrix nc (rows1 ++ r :: rows2)) (f1 ++ f :: f2) times fs
                 function length n_dec threshold
  = time_frequency (mk_matrix nc (rows1 ++ rows2)) (f1 ++ f2) times fs
                   function length n_dec threshold.
Proof.
  intros H1 Hr Ht Hlow. unfold time_frequency. rewrite tf_validate_insert.
  destruct (tf_validate (mk_matrix nc (rows1 ++ rows2)) (f1 ++ f2) times fs length)
    as [[[times0 L] last]|e] eqn:Hv; [|reflexivity].
  cbn [bind]. rewrite !tf_normalize_of_rows.
  destruct (tf_stack times0 last) as [[[pb pa] stacked]|e] eqn:Hs; [|reflexivity].
  cbn zeta. cbn [bind rows ncols].
  destruct (zeros L) as [output|e]; [|reflexivity]. cbn [bind].
  set (idx := map (overlaps last) stacked).
  destruct (count_true idx =? 0)%nat eqn:Ec; [reflexivity|]. apply Nat.eqb_neq in Ec.
  set (F := normal_row (if pb then 1 else 0) (if pa then 1 else 0) idx).
  rewrite !map_app. cbn [map].
  assert (Hlen : List.length (F r) = count_true idx).
  { apply normal_row_length. unfold idx. erewrite stacked_length by eassumption. cbn [ncols]. lia. }
  rewrite freq_keep_insert;
    [| intros E; rewrite E in Hlen; cbn in Hlen; lia
     | now apply normal_row_below].
  rewrite freq_keep_app.
  destruct (tf_freq_keep (mk_matrix (count_true idx) (map F rows1)) threshold) as [ka|e] eqn:Ea;
    [|reflexivity].
  cbn [bind].
  destruct (tf_freq_keep (mk_matrix (count_true idx) (map F rows2)) threshold) as [kb|e] eqn:Eb;
    [|reflexivity].
  cbn [bind]. apply tf_freq_keep_length in Ea. unfold nrows in Ea. cbn [rows] in Ea.
  rewrite length_map in Ea.
  unfold select_rows. cbn [ncols rows].
  rewrite !compress_app by (rewrite ?length_map; congruence).
  reflexivity.
Qed.

(** *** A silent grid *)
Lemma tf_stack_ok (times : list (Q * Q)) (last : Q) :
  times <> [] -> exists pb pa stacked, tf_stack times last = Ok (pb, pa, stacked).
Proof.
  intros H. unfold tf_stack. destruct times as [|iv times]; [congruence|].
  cbn [entries map concat app amin amax bind]. do 3 eexists. reflexivity.
Qed.



Lemma tf_mix_nil fs function L n_dec signal n output :
  tf_mix fs function L n_dec signal n [] output = Ok output.
Proof. reflexivity. Qed.



End QuietFacts.

(** ** Time stamps, empty inputs and zero frequencies *)

Section EdgeFacts.

#[local] Open Scope R_scope.

(** *** Time stamps and intervals *)
Lemma time_frequency_of_validate gram frequencies times times2 fs function length n_dec threshold :
  tf_validate gram frequencies times fs length = tf_validate gram frequencies times2 fs length ->
  time_frequency gram frequencies times fs function length n_dec threshold
  = time_frequency gram frequencies times2 fs function length n_dec threshold.
Proof. intros H. unfold time_frequency. now rewrite H. Qed.

Lemma time_frequency_timestamps gram frequencies t fs function n_dec threshold :
  (List.length t = S (ncols gram) ->
   forall length,
     time_frequency gram frequencies (Timestamps t) fs function length n_dec threshold
     = time_frequency gram frequencies (Intervals (converted (Timestamps t))) fs function
                      length n_dec threshold) /\
  (List.length t = ncols gram -> (2 <= ncols gram)%nat ->
   forall L m, amax (entries (converted (Timestamps t))) = Ok m ->
     time_frequency gram frequencies (Timestamps t) fs function (Some L) n_dec threshold
     = time_frequency gram frequencies
         (Intervals (converted (Timestamps t) ++ [(m, (float L / float fs)%Q)]))
         fs function (Some L) n_dec threshold).
Proof.
  split.
  - intros Hl length. apply time_frequency_of_validate. unfold tf_validate, converted.
    assert (E : (List.length (combine (removelast t) (tl t)) =? ncols gram)%nat = true).
    { apply Nat.eqb_eq. rewrite length_timestamp_intervals. lia. }
    destruct (match length with Some l => Ok l | None => _ end); [|reflexivity].
    cbn [bind]. destruct (negb (fs =? 0)%Z); [|reflexivity].
    rewrite E. reflexivity.
  - intros Hl H2 L m Hm. apply time_frequency_of_validate. unfold tf_validate, converted in *.
    cbn [bind]. destruct (negb (fs =? 0)%Z); [|reflexivity].
    assert (E : (List.length (combine (removelast t) (tl t)) =? ncols gram)%nat = false).
    { apply Nat.eqb_neq. rewrite length_timestamp_intervals. lia. }
    rewrite E, Hm. reflexivity.
Qed.

(** *** Inputs without an interval *)
Lemma time_frequency_no_interval_raises gram frequencies times fs function length n_dec threshold :
  converted times = [] ->
  (exists e, time_frequency gram frequencies times fs function length n_dec threshold = Error e) /\
  (fs <> 0%Z -> List.length frequencies = nrows gram ->
   (forall iv, times = Intervals iv -> ncols gram = 0%nat) ->
   time_frequency gram frequencies times fs function length n_dec threshold
   = Error ZeroSizeReduction).
Proof.
  intros Hc.
  assert (Hmain : fs <> 0%Z -> List.length frequencies = nrows gram ->
                  (forall iv, times = Intervals iv -> ncols gram = 0%nat) ->
                  time_frequency gram frequencies times fs function length n_dec threshold
                  = Error ZeroSizeReduction).
  { intros Hfs Hf Hiv. unfold time_frequency, tf_validate.
    destruct times as [t|iv]; unfold converted in Hc; rewrite Hc.
    - destruct length as [l|]; [|reflexivity]. cbn [bind entries map concat amax List.length].
      replace (fs =? 0)%Z with false by (symmetry; now apply Z.eqb_neq). cbn [negb andb].
      destruct (0 =? ncols gram)%nat eqn:E; [|reflexivity].
      cbn [negb bind List.length]. rewrite E.
      replace (List.length frequencies =? nrows gram)%nat with true
        by (symmetry; now apply Nat.eqb_eq).
      reflexivity.
    - destruct length as [l|]; [|reflexivity]. cbn [bind andb List.length].
      replace (fs =? 0)%Z with false by (symmetry; now apply Z.eqb_neq). cbn [negb].
      rewrite (Hiv iv eq_refl). cbn [Nat.eqb].
      replace (List.length frequencies =? nrows gram)%nat with true
        by (symmetry; now apply Nat.eqb_eq).
      reflexivity. }
  split; [|exact Hmain].
  unfold time_frequency, tf_validate.
  destruct times as [t|iv]; unfold converted in Hc; rewrite Hc;
    (destruct length as [l|]; [|eexists; reflexivity]);
    cbn [bind entries map concat amax List.length andb];
    (destruct (fs =? 0)%Z; [eexists; reflexivity|]); cbn [negb];
    (destruct (0 =? ncols gram)%nat eqn:E; [|eexists; reflexivity]);
    cbn [negb bind List.length]; rewrite ?E;
    (destruct (List.length frequencies =? nrows gram)%nat; eexists; reflexivity).
Qed.

(** *** A kept row at 0 Hz *)
Lemma tf_mix_zero_frequency fs function L n_dec signal frequencies : forall n output,
  (exists f, In f frequencies /\ (f == 0)%Q) ->
  exists e, tf_mix fs function L n_dec signal n frequencies output = Error e.
Proof.
  induction frequencies as [|f rest IH]; intros n output (z & Hin & Hz); [destruct Hin|].
  cbn [tf_mix].
  destruct (_fast_synthesize f n_dec fs function L); [|eexists; reflexivity]. cbn [bind].
  destruct (Qeq_bool f 0) eqn:E0; [eexists; reflexivity|]. cbn [negb].
  destruct Hin as [<-|Hin].
  { apply Qeq_bool_iff in Hz. congruence. }
  destruct (0 <=? _)%Z; [|eexists; reflexivity].
  destruct (getitem signal (Z.of_nat n)); [|eexists; reflexivity]. cbn [bind].
  destruct (convolve_same _ _); [|eexists; reflexivity]. cbn [bind].
  destruct (broadcast2 _ _ _); [|eexists; reflexivity]. cbn [bind].
  destruct (iadd _ _); [|eexists; reflexivity]. cbn [bind].
  apply IH. now exists z.
Qed.

Lemma time_frequency_zero_frequency gram frequencies times fs function length n_dec threshold
    times0 L last g times' keep :
  tf_validate gram frequencies times fs length = Ok (times0, L, last) ->
  tf_normalize gram times0 last = Ok (g, times') ->
  ncols g <> 0%nat ->
  tf_freq_keep g threshold = Ok keep ->
  (exists f, In f (compress keep frequencies) /\ (f == 0)%Q) ->
  exists e, time_frequency gram frequencies times fs function length n_dec threshold = Error e.
Proof.
  intros Hv Hn Hc Hk Hz. unfold time_frequency. rewrite Hv. cbn [bind]. rewrite Hn. cbn [bind].
  destruct (zeros L); [|eexists; reflexivity]. cbn [bind].
  replace (ncols g =? 0)%nat with false by (symmetry; now apply Nat.eqb_neq).
  rewrite Hk. cbn [bind].
  destruct (tf_signal _ _ _ _) as [signal|]; [|eexists; reflexivity]. cbn [bind].
  destruct (@tf_mix_zero_frequency fs function L n_dec signal _ 0%nat l Hz) as (e & He).
  rewrite He. eexists; reflexivity.
Qed.

End EdgeFacts.

(** ** Bounds of interpolants *)

Section InterpBoundFacts.

#[local] Open Scope R_scope.

Lemma item_Forall {A} (P : A -> Prop) (a : list A) (i : Z) (d : A) :
  Forall P a -> P d -> P (item a i d).
Proof.
  intros Ha Hd. unfold item.
  destruct (nth_in_or_default (Z.to_nat (if (i <? 0)%Z then (i + len a)%Z else i)) a d) as [H|H].
  - rewrite Forall_forall in Ha. now apply Ha.
  - now rewrite H.
Qed.

Lemma sorted_values_Forall {V} (P : V -> Prop) (x : list Q) (y : list V) :
  Forall P y -> Forall P (map snd (sort_by_x (combine x y))).
Proof.
  intros Hy. apply Forall_map. apply Forall_forall. intros [q v] Hin.
  apply (proj1 (sort_by_x_In _ _)) in Hin. apply in_combine_r in Hin.
  rewrite Forall_forall in Hy. now apply Hy.
Qed.

(** [searchsorted_left] counts the leading items below [q]. *)
Lemma searchsorted_left_spec (xs : list Q) (q : Q) :
  (searchsorted_left xs q <= List.length xs)%nat /\
  (forall j, (j < searchsorted_left xs q)%nat -> (nth j xs 0 < q)%Q) /\
  ((searchsorted_left xs q < List.length xs)%nat ->
   (q <= nth (searchsorted_left xs q) xs 0)%Q).
Proof.
  induction xs as [|x xs IH]; cbn [searchsorted_left List.length].
  - split; [lia|]. split; intros; lia.
  - destruct (Qltb x q) eqn:E.
    + apply Qltb_lt in E. destruct IH as (H1 & H2 & H3). split; [lia|]. split.
      * intros [|j] Hj; cbn [nth]; [exact E | apply H2; lia].
      * intros Hk. cbn [nth]. apply H3. lia.
    + apply Qltb_ge in E. split; [lia|]. split; [intros; lia|]. intros _. exact E.
Qed.

Lemma sorted_lt_nth (xs : list Q) : StronglySorted Qlt xs ->
  forall i j, (i < j)%nat -> (j < List.length xs)%nat -> (nth i xs 0 < nth j xs 0)%Q.
Proof.
  induction 1 as [|x xs Hs IH Hall]; intros i j Hij Hj; [cbn in Hj; lia|].
  destruct j as [|j]; [lia|]. cbn [List.length] in Hj. destruct i as [|i]; cbn [nth].
  - rewrite Forall_forall in Hall. apply Hall, nth_In. lia.
  - apply IH; lia.
Qed.

Lemma convex_bound (a b t A : R) :
  Rabs a <= A -> Rabs b <= A -> 0 <= t <= 1 -> Rabs ((b - a) * t + a) <= A.
Proof.
  intros Ha Hb Ht. apply Rabs_le_bounds in Ha, Hb. apply Rabs_le. split; nra.
Qed.

(** A linear, previous or next interpolant with fill value 0 stays within
    the bound of the values it interpolates. *)
Lemma interp1d_bounded (x : list Q) (y : list R) (k : kind) (A : R) :
  List.length x = List.length y -> x <> [] -> 0 <= A ->
  Forall (fun v => Rabs v <= A) y ->
  (k = Linear -> StronglySorted Qlt x) ->
  exists f, interp1d x y k (0, 0) = Ok f /\ forall q, Rabs (f q) <= A.
Proof.
  intros Hl Hx HA Hy Hk. unfold interp1d. rewrite Hl, Nat.eqb_refl.
  replace (1 <=? List.length y)%nat with true
    by (symmetry; apply Nat.leb_le; rewrite <- Hl; destruct x; [congruence | cbn; lia]).
  eexists; split; [reflexivity|]. cbn beta. intros q.
  assert (H0 : Rabs 0 <= A) by now rewrite Rabs_R0.
  cbn [fst snd].
  destruct (Qltb q _) eqn:Elo; [exact H0|].
  destruct (Qltb _ q) eqn:Ehi; [exact H0|].
  apply Qltb_ge in Elo, Ehi.
  pose proof (sorted_values_Forall x Hy) as Hys.
  destruct k; cbn [interp_call].
  - (* linear *)
    specialize (Hk eq_refl).
    assert (Hsort : sort_by_x (combine x y) = combine x y).
    { apply sort_sorted. rewrite map_fst_combine by exact Hl. now apply sorted_lt_le. }
    rewrite Hsort in *. rewrite map_fst_combine in * by exact Hl.
    rewrite map_snd_combine in * by exact Hl.
    cbn [fadd fmul fdiv fsub of_Q Float_R].
    destruct (searchsorted_left_spec x q) as (Hk1 & Hk2 & Hk3).
    set (s := searchsorted_left x q) in *.
    assert (Hn : (1 <= List.length x)%nat) by (destruct x; [congruence | cbn; lia]).
    destruct (Nat.eq_dec (List.length x) 1) as [H1|H1].
    + (* a single point *)
      destruct x as [|x0 [|x1 x]]; [congruence| |cbn in H1; lia].
      destruct y as [|y0 [|y1 y]]; [discriminate| |discriminate].
      assert (Ehi' : clipZ (Z.of_nat s) 1 (len [x0] - 1) = 0%Z) by (unfold clipZ, len; cbn; lia).
      rewrite Ehi'. unfold item, len. cbn [Z.ltb Z.sub Z.add Z.opp Z.compare Z.of_nat
        List.length Z.to_nat Pos.of_succ_nat Pos.succ Z.pos_sub nth].
      replace ((y0 - y0) / Q2R (x0 - x0) * Q2R (q - x0) + y0) with y0 by (unfold Rdiv; ring).
      now inversion Hy.
    + assert (Hlast : last x 0%Q = nth (List.length x - 1) x 0%Q)
        by (symmetry; apply nth_pred_length_last).
      assert (Hhd : hd 0%Q x = nth 0 x 0%Q) by apply hd_nth0.
      rewrite Hlast in Ehi. rewrite Hhd in Elo.
      assert (Hs : (s <= List.length x - 1)%nat).
      { destruct (Nat.eq_dec s (List.length x)) as [E|E]; [|lia].
        exfalso. assert (H : (nth (List.length x - 1) x 0 < q)%Q) by (apply Hk2; lia).
        apply Qlt_not_le in H. contradiction. }
      set (hi := Z.to_nat (clipZ (Z.of_nat s) 1 (len x - 1))).
      assert (Hhi : hi = Nat.max s 1) by (unfold hi, clipZ, len; lia).
      assert (Hitem : forall (V : Type) (a : list V) d, List.length a = List.length x ->
                item a (clipZ (Z.of_nat s) 1 (len x - 1)) d = nth hi a d /\
                item a (clipZ (Z.of_nat s) 1 (len x - 1) - 1) d = nth (hi - 1) a d).
      { intros V a d Ha. unfold item.
        replace (clipZ (Z.of_nat s) 1 (len x - 1) <? 0)%Z with false
          by (symmetry; apply Z.ltb_ge; unfold clipZ, len; lia).
        replace (clipZ (Z.of_nat s) 1 (len x - 1) - 1 <? 0)%Z with false
          by (symmetry; apply Z.ltb_ge; unfold clipZ, len; lia).
        split; [reflexivity|]. f_equal. unfold hi. lia. }
      destruct (Hitem Q x 0%Q eq_refl) as [Ex1 Ex2]. rewrite Ex1, Ex2.
      destruct (Hitem R y 0 (eq_sym Hl)) as [Ey1 Ey2]. rewrite Ey1, Ey2.
      assert (Hlt : (nth (hi - 1) x 0 < nth hi x 0)%Q) by (apply sorted_lt_nth; [exact Hk | lia | lia]).
      assert (Hlo' : (nth (hi - 1) x 0 <= q)%Q).
      { destruct (Nat.eq_dec s 0) as [E0|E0].
        - replace (hi - 1)%nat with 0%nat by lia. exact Elo.
        - apply Qlt_le_weak, Hk2. lia. }
      assert (Hhi' : (q <= nth hi x 0)%Q).
      { destruct (Nat.eq_dec s 0) as [E0|E0].
        - eapply Qle_trans; [apply Hk3; lia|]. rewrite E0.
          apply Qlt_le_weak. replace hi with 1%nat by lia. apply sorted_lt_nth; [exact Hk | lia | lia].
        - replace hi with s by lia. apply Hk3. lia. }
      set (xl := nth (hi - 1) x 0%Q) in *. set (xh := nth hi x 0%Q) in *.
      assert (Hd : 0 < Q2R (xh - xl)).
      { rewrite Q2R_minus. apply Qlt_Rlt in Hlt. lra. }
      assert (Ht : 0 <= Q2R (q - xl) / Q2R (xh - xl) <= 1).
      { rewrite !Q2R_minus in *. apply Qle_Rle in Hlo', Hhi'. split.
        - apply Rmult_le_pos; [lra | left; now apply Rinv_0_lt_compat].
        - apply (Rmult_le_reg_r (Q2R xh - Q2R xl)); [exact Hd|].
          unfold Rdiv. rewrite Rmult_assoc, Rinv_l by lra. lra. }
      replace ((nth hi y 0 - nth (hi - 1) y 0) / Q2R (xh - xl) * Q2R (q - xl) + nth (hi - 1) y 0)
        with ((nth hi y 0 - nth (hi - 1) y 0) * (Q2R (q - xl) / Q2R (xh - xl)) + nth (hi - 1) y 0)
        by (unfold Rdiv; ring).
      rewrite Forall_forall in Hy.
      apply convex_bound; [apply Hy, nth_In; lia | apply Hy, nth_In; lia | exact Ht].
  - apply (@item_Forall _ (fun v => Rabs v <= A)); assumption.
  - apply (@item_Forall _ (fun v => Rabs v <= A)); assumption.
Qed.

End InterpBoundFacts.

(** ** pitch_contour: bounds, silence and where it returns *)

Section ContourEdgeFacts.

#[local] Open Scope R_scope.

Lemma broadcast2_bound (a b c : list R) (A : R) :
  0 <= A ->
  Forall (fun v => Rabs v <= A) a -> Forall (fun v => Rabs v <= 1) b ->
  broadcast2 Rmult a b = Ok c -> Forall (fun v => Rabs v <= A) c.
Proof.
  intros HA Ha Hb. unfold broadcast2.
  assert (Hm : forall u v, Rabs u <= A -> Rabs v <= 1 -> Rabs (u * v) <= A).
  { intros u v Hu Hv. rewrite Rabs_mult. pose proof (Rabs_pos u). pose proof (Rabs_pos v). nra. }
  assert (Hl : forall u, In u a -> Forall (fun v => Rabs v <= A) (map (Rmult u) b)).
  { intros u Hu. apply Forall_map. eapply Forall_impl; [|exact Hb]. intros v Hv.
    apply Hm; [|exact Hv]. rewrite Forall_forall in Ha. now apply Ha. }
  assert (Hr : forall v, In v b -> Forall (fun w => Rabs w <= A) (map (fun u => u * v) a)).
  { intros v Hv. apply Forall_map. eapply Forall_impl; [|exact Ha]. intros u Hu.
    apply Hm; [exact Hu|]. rewrite Forall_forall in Hb. now apply Hb. }
  destruct (List.length a =? List.length b)%nat.
  - intros [= <-]. apply Forall_map. apply Forall_forall. intros [u v] Hin.
    cbn [fst snd]. rewrite Forall_forall in Ha, Hb.
    apply Hm; [eapply Ha, in_combine_l | eapply Hb, in_combine_r]; eassumption.
  - destruct a as [|x [|x' a]].
    + destruct b as [|y [|y' b]]; try discriminate. intros [= <-]. constructor.
    + intros [= <-]. apply Hl. now left.
    + destruct b as [|y [|y' b]]; try discriminate. intros [= <-]. apply Hr. now left.
Qed.

Lemma scaled_times_strict (times : list Q) (fs : Z) :
  (0 < fs)%Z -> StronglySorted Qlt times ->
  StronglySorted Qlt (map (fun t => (t * float fs)%Q) times).
Proof.
  intros Hfs. pose proof (float_pos Hfs) as Hp.
  induction 1 as [|t times Hs IH Hall]; cbn [map]; constructor; [exact IH|].
  apply Forall_map. eapply Forall_impl; [|exact Hall]. intros u Hu. cbn beta in Hu.
  now apply Qmult_lt_compat_r.
Qed.

Lemma pitch_contour_bound times frequencies fs amplitudes function length kind A out :
  pitch_contour times frequencies fs amplitudes function length kind = Ok out ->
  (forall x, Rabs (function x) <= 1) ->
  match amplitudes with
  | None => A = 1
  | Some a => 0 <= A /\ Forall (fun v => Rabs (Q2R v) <= A) a /\
              (kind = Linear -> (0 < fs)%Z /\ Sorted Qlt times)
  end ->
  Forall (fun v => Rabs v <= A) out.
Proof.
  unfold pitch_contour. intros H Hf HA.
  apply bind_ok in H. destruct H as (L & _ & H).
  apply bind_ok in H. destruct H as (f_interp & _ & H).
  apply bind_ok in H. destruct H as (a_est & Ha & H).
  assert (Hb : Forall (fun v => Rabs v <= 1)
                 (map function (cumsum (map f_interp (sample_points L))))).
  { apply Forall_map. apply Forall_forall. intros v _. apply Hf. }
  destruct amplitudes as [a|].
  - destruct HA as (HA0 & Hamp & Hk).
    apply bind_ok in Ha. destruct Ha as (a_interp & Hi & Ha). inversion Ha; subst a_est; clear Ha.
    eapply broadcast2_bound; [exact HA0| |exact Hb|exact H].
    destruct (@interp1d_bounded (map (fun t => (t * float fs)%Q) times) (map Q2R a) kind A)
      as (f & Hfok & Hfb).
    + unfold interp1d in Hi.
      destruct (_ =? _)%nat eqn:E; [|discriminate]. now apply Nat.eqb_eq in E.
    + unfold interp1d in Hi. destruct (_ =? _)%nat; [|discriminate].
      destruct (1 <=? _)%nat eqn:E; [|discriminate]. apply Nat.leb_le in E.
      intros E0. rewrite E0 in E. cbn in E. lia.
    + exact HA0.
    + apply Forall_map. exact Hamp.
    + intros Ek. destruct (Hk Ek) as [Hfs Hs].
      apply scaled_times_strict; [exact Hfs | now apply Sorted_Qlt_strong].
    + rewrite Hfok in Hi. inversion Hi; subst a_interp.
      apply Forall_map. apply Forall_forall. intros q _. apply Hfb.
  - subst A. unfold ones in Ha. destruct (0 <=? L)%Z; [|discriminate].
    inversion Ha; subst a_est.
    eapply broadcast2_bound; [lra| |exact Hb|exact H].
    apply Forall_repeat. rewrite Rabs_R1. lra.
Qed.




Lemma amplitude_estimate_length times fs amplitudes L kind a_est :
  amplitude_estimate times fs amplitudes L kind = Ok a_est ->
  List.length a_est = Z.to_nat L.
Proof.
  unfold amplitude_estimate. destruct amplitudes as [a|].
  - intros H. apply bind_ok in H. destruct H as (a_interp & _ & H).
    inversion H; subst. now rewrite length_map, sample_points_length.
  - unfold ones. destruct (0 <=? L)%Z; [|discriminate]. intros H. inversion H.
    apply repeat_length.
Qed.


Lemma interp1d_ok_iff {V} `{Float V} (x : list Q) (y : list V) (k : kind) (fill : V * V) :
  (exists f, interp1d x y k fill = Ok f) <-> (List.length x = List.length y /\ x <> []).
Proof.
  unfold interp1d. split.
  - intros (f & Hf). destruct (_ =? _)%nat eqn:E; [|discriminate].
    destruct (1 <=? _)%nat eqn:E1; [|discriminate].
    apply Nat.eqb_eq in E. apply Nat.leb_le in E1. split; [exact E|].
    intros E0. rewrite E0 in E1. cbn in E1. lia.
  - intros [Hl Hx]. rewrite Hl, Nat.eqb_refl.
    replace (1 <=? List.length y)%nat with true
      by (symmetry; apply Nat.leb_le; rewrite <- Hl; destruct x; [congruence | cbn; lia]).
    eexists; reflexivity.
Qed.

Lemma pitch_contour_returns_iff times frequencies fs amplitudes function length kind :
  (exists out, pitch_contour times frequencies fs amplitudes function length kind = Ok out) <->
  (exists L, resolve_length times fs length = Ok L /\
             List.length times = List.length frequencies /\ times <> [] /\
             amplitudes_fit times amplitudes L).
Proof.
  split.
  - intros (out & H). unfold pitch_contour in H.
    apply bind_ok in H. destruct H as (L & HL & H). exists L. split; [exact HL|].
    apply bind_ok in H. destruct H as (f_interp & Hi & H).
    apply bind_ok in H. destruct H as (a_est & Ha & H).
    destruct (proj1 (interp1d_ok_iff _ _ _ _) (ex_intro _ f_interp Hi)) as [Hl Hx].
    rewrite !length_map in Hl.
    assert (Hne : times <> []) by (intros E; apply Hx; now rewrite E).
    split; [exact Hl|]. split; [exact Hne|].
    unfold amplitudes_fit. destruct amplitudes as [a|].
    + apply bind_ok in Ha. destruct Ha as (a_interp & Hai & _).
      destruct (proj1 (interp1d_ok_iff _ _ _ _) (ex_intro _ a_interp Hai)) as [Hl' _].
      rewrite !length_map in Hl'. congruence.
    + unfold ones in Ha. destruct (0 <=? L)%Z eqn:E; [|discriminate]. now apply Z.leb_le.
  - intros (L & HL & Hl & Hne & Ha).
    rewrite (@pitch_contour_resolved times frequencies fs amplitudes function length kind L HL).
    destruct (proj2 (interp1d_ok_iff (map (fun t => (t * float fs)%Q) times)
                       (angular_steps frequencies fs) kind (0, 0))) as (f_interp & Hi).
    { rewrite angular_steps_length, length_map. split; [exact Hl|].
      intros E. apply map_eq_nil in E. contradiction. }
    assert (Hae : exists a_est, amplitude_estimate times fs amplitudes L kind = Ok a_est).
    { unfold amplitude_estimate, amplitudes_fit in *. destruct amplitudes as [a|].
      - destruct (proj2 (interp1d_ok_iff (map (fun t => (t * float fs)%Q) times)
                           (map Q2R a) kind (0, 0))) as (a_interp & Hai).
        { rewrite !length_map. split; [congruence|].
          intros E. apply map_eq_nil in E. contradiction. }
        rewrite Hai. eexists; reflexivity.
      - rewrite ones_ok by exact Ha. eexists; reflexivity. }
    destruct Hae as (a_est & Hae).
    destruct (@pitch_contour_samples times frequencies fs amplitudes function L kind
                f_interp a_est Hi Hae (amplitude_estimate_length _ _ _ _ _ Hae))
      as (out & Hout & _).
    now exists out.
Qed.


End ContourEdgeFacts.

(** ** The envelope outside the annotated times *)

Section EnvelopeOutsideFacts.

#[local] Open Scope Q_scope.



Lemma clip_lower (s lo hi b : Q) : b <= hi -> b <= s -> lo <= hi -> b <= clip s lo hi.
Proof.
  intros H1 H2 H3. unfold clip. apply Q.min_glb; [exact H1|].
  eapply Qle_trans; [exact H2 | apply Q.le_max_l].
Qed.


Lemma compress_last_true {A} (mask : list bool) : forall (a : list A) (x : A),
  List.length mask = List.length a ->
  compress (mask ++ [true]) (a ++ [x]) = compress mask a ++ [x].
Proof.
  intros a x H. now rewrite compress_app.
Qed.

Lemma last_snoc {A} (l : list A) (x d : A) : last (l ++ [x]) d = x.
Proof. apply last_last. Qed.





End EnvelopeOutsideFacts.

(** ** The embedding over any entries, and the one over rationals *)

Section AgreementFacts.

#[local] Open Scope R_scope.

(** *** With rational entries the generic embedding is the one above *)

Lemma tf_validate_agrees gram frequencies times fs length :
  Chroma.tf_validate (Chroma.of_matrix gram) frequencies times fs length
  = tf_validate gram frequencies times fs length.
Proof. reflexivity. Qed.

Lemma tf_normalize_agrees gram times last :
  Chroma.tf_normalize (Chroma.of_matrix gram) times last
  = match tf_normalize gram times last with
    | Ok (g, t) => Ok (Chroma.of_matrix g, t)
    | Error e => Error e
    end.
Proof.
  unfold Chroma.tf_normalize, tf_normalize.
  destruct (tf_stack times last) as [[[pb pa] stacked]|e]; reflexivity.
Qed.

Lemma tf_freq_keep_agrees gram threshold :
  Chroma.tf_freq_keep (Chroma.of_matrix gram) threshold = tf_freq_keep gram threshold.
Proof. reflexivity. Qed.

Lemma tf_signal_agrees gram keep times fs L :
  Chroma.tf_signal (Chroma.select_rows (Chroma.of_matrix gram) keep) times fs L
  = tf_signal (select_rows gram keep) times fs L.
Proof. reflexivity. Qed.

Lemma tf_mix_agrees fs function L n_dec signal n frequencies output :
  Chroma.tf_mix fs function L n_dec signal n frequencies output
  = tf_mix fs function L n_dec signal n frequencies output.
Proof. reflexivity. Qed.

Lemma time_frequency_agrees gram frequencies times fs function length n_dec threshold :
  Chroma.time_frequency (Chroma.of_matrix gram) frequencies times fs function length
                        n_dec threshold
  = time_frequency gram frequencies times fs function length n_dec threshold.
Proof.
  unfold Chroma.time_frequency, time_frequency. rewrite tf_validate_agrees.
  destruct (tf_validate gram frequencies times fs length) as [[[times0 L] last]|e];
    [|reflexivity].
  cbn [bind]. rewrite tf_normalize_agrees.
  destruct (tf_normalize gram times0 last) as [[g times']|e]; [|reflexivity].
  cbn [bind]. reflexivity.
Qed.

End AgreementFacts.

(** ** The Shepard tone-gram of chroma *)

Section ShepardFacts.

#[local] Open Scope R_scope.

Lemma nth_concat_repeat {A} (v : list A) (d : A) k : forall j,
  v <> [] -> (j < k * List.length v)%nat ->
  nth j (concat (repeat v k)) d = nth (j mod List.length v) v d.
Proof.
  intros j Hv. assert (Hn : List.length v <> 0%nat) by (destruct v; [congruence | discriminate]).
  revert j. induction k as [|k IH]; intros j Hj; [lia|].
  cbn [repeat concat]. destruct (Nat.lt_ge_cases j (List.length v)) as [Hlt|Hge].
  - rewrite app_nth1 by exact Hlt. now rewrite Nat.mod_small.
  - rewrite app_nth2 by exact Hge. rewrite IH by (cbn in Hj; lia).
    f_equal. replace j with (j - List.length v + 1 * List.length v)%nat at 2 by lia.
    now rewrite Nat.Div0.mod_add.
Qed.

Lemma map_nth_seq {A} (r : list A) (d : A) :
  map (fun c => nth c r d) (seq 0 (List.length r)) = r.
Proof.
  apply (nth_ext _ _ d d).
  - now rewrite length_map, length_seq.
  - intros i Hi. rewrite length_map, length_seq in Hi.
    rewrite (nth_indep _ d (nth 0 r d)) by (now rewrite length_map, length_seq).
    rewrite (map_nth (fun c => nth c r d)). now rewrite seq_nth.
Qed.

(** [np.tile(chromagram.T, n).T] stacks [n] copies of the chromagram. *)
Lemma stacked_octaves (g : matrix) (n : nat) :
  wf_matrix g -> rows g <> [] ->
  Chroma.transpose (Chroma.tile (Chroma.transpose g) n)
  = mk_matrix (ncols g)
      (map (fun j => nth (j mod nrows g) (rows g) []) (seq 0 (nrows g * n))).
Proof.
  intros Hwf Hne. unfold Chroma.transpose, Chroma.tile, nrows. cbn [ncols rows].
  rewrite !length_map, length_seq. f_equal.
  apply map_ext_in. intros j Hj. apply in_seq in Hj.
  rewrite !map_map.
  assert (Hlen : List.length (rows g) <> 0%nat) by (destruct (rows g); [congruence | discriminate]).
  assert (Hrow : In (nth (j mod List.length (rows g)) (rows g) []) (rows g))
    by (apply nth_In; now apply Nat.mod_upper_bound).
  unfold wf_matrix in Hwf. rewrite Forall_forall in Hwf.
  rewrite <- (map_nth_seq (nth (j mod List.length (rows g)) (rows g) []) 0%Q) at 1.
  rewrite (Hwf _ Hrow). apply map_ext_in. intros c Hc.
  rewrite nth_concat_repeat.
  - rewrite length_map.
    rewrite (nth_indep _ 0%Q (nth c [] 0%Q))
      by (rewrite length_map; now apply Nat.mod_upper_bound).
    now rewrite (map_nth (fun r => nth c r 0%Q)).
  - destruct (rows g); [congruence | discriminate].
  - rewrite length_map. lia.
Qed.

Lemma notes_weights_length :
  List.length (map (fun n => exp (- (IZR n - 72) ^ 2 / (2 * 6 ^ 2)))
                 (map (fun k => (Z.of_nat k + 24)%Z) (arange (12 * Z.of_nat 7)))) = 84%nat.
Proof. reflexivity. Qed.

Lemma chroma_rows_mismatch chromagram times fs function length n_dec threshold :
  nrows chromagram <> 12%nat ->
  Chroma.chroma chromagram times fs function length n_dec threshold = Error BroadcastError.
Proof.
  intros H. unfold Chroma.chroma, Chroma.imul_column.
  rewrite notes_weights_length.
  assert (E : nrows (Chroma.transpose (Chroma.tile (Chroma.transpose chromagram) 7))
              = (nrows chromagram * 7)%nat).
  { unfold Chroma.transpose, Chroma.tile, nrows. cbn [ncols rows].
    now rewrite !length_map, length_seq. }
  rewrite E.
  replace (84 =? nrows chromagram * 7)%nat with false by (symmetry; apply Nat.eqb_neq; lia).
  reflexivity.
Qed.

Lemma shepard_weight_nth (j : nat) :
  exp (- (IZR (Z.of_nat j + 24) - 72) ^ 2 / (2 * 6 ^ 2)) = shepard j.
Proof.
  unfold shepard. f_equal. rewrite plus_IZR, <- INR_IZR_INZ. field.
Qed.

Lemma note_frequency_nth (j : nat) :
  440 * Rpower 2 ((IZR (Z.of_nat j + 24) - 69) / 12) = note_frequency j.
Proof.
  unfold note_frequency. do 2 f_equal. rewrite plus_IZR, <- INR_IZR_INZ. field.
Qed.

Lemma combine_map_seq {A B} (f : nat -> A) (g : nat -> B) n :
  combine (map f (seq 0 n)) (map g (seq 0 n)) = map (fun j => (f j, g j)) (seq 0 n).
Proof.
  generalize 0%nat. induction n as [|n IH]; intros s; [reflexivity|].
  cbn [seq map combine]. now rewrite IH.
Qed.

Lemma chroma_shepard chromagram times fs function length n_dec threshold :
  wf_matrix chromagram -> nrows chromagram = 12%nat ->
  Chroma.chroma chromagram times fs function length n_dec threshold
  = Chroma.time_frequency (shepard_gram chromagram) (map note_frequency (seq 0 84))
      times fs function length n_dec threshold.
Proof.
  intros Hwf H12. unfold Chroma.chroma.
  rewrite stacked_octaves; [|exact Hwf | intros E; unfold nrows in H12; rewrite E in H12; discriminate].
  rewrite H12. unfold Chroma.imul_column, nrows. cbn [rows ncols].
  unfold arange. change (Z.to_nat (12 * Z.of_nat 7)) with 84%nat.
  change (12 * 7)%nat with 84%nat.
  rewrite !map_map. repeat rewrite ?length_map, ?length_seq.
  change (84 =? 84)%nat with true. cbn [bind].
  rewrite combine_map_seq, map_map. cbn [fst snd].
  unfold shepard_gram. f_equal.
  - f_equal. apply map_ext. intros j. apply map_ext. intros x.
    now rewrite shepard_weight_nth.
  - apply map_ext. intros j. apply note_frequency_nth.
Qed.

(** *** The weights and the frequencies *)

Lemma shepard_range (j : nat) : 0 < shepard j <= 1.
Proof.
  unfold shepard. split; [apply exp_pos|].
  replace (- (INR j - 48) ^ 2 / 72) with (- ((INR j - 48) ^ 2 / 72)) by (unfold Rdiv; ring).
  apply exp_neg_le_1. apply Rmult_le_pos; [apply pow2_ge_0 | lra].
Qed.

Lemma shepard_peak : shepard 48 = 1.
Proof.
  unfold shepard. replace (- (INR 48 - 48) ^ 2 / 72) with 0; [apply exp_0|].
  replace (INR 48) with 48 by (rewrite INR_IZR_INZ; reflexivity). unfold Rdiv. ring.
Qed.

Lemma shepard_symmetric (k : nat) : (k <= 48)%nat -> shepard (48 + k) = shepard (48 - k).
Proof.
  intros Hk. unfold shepard. f_equal. rewrite plus_INR, minus_INR by exact Hk.
  replace (INR 48) with 48 by (rewrite INR_IZR_INZ; reflexivity). unfold Rdiv. ring.
Qed.

Lemma note_frequency_pos (j : nat) : 0 < note_frequency j.
Proof.
  unfold note_frequency, Rpower. apply Rmult_lt_0_compat; [lra | apply exp_pos].
Qed.

Lemma note_frequency_a4 : note_frequency 45 = 440.
Proof.
  unfold note_frequency. replace ((INR 45 - 45) / 12) with 0.
  - rewrite Rpower_O by lra. ring.
  - replace (INR 45) with 45 by (rewrite INR_IZR_INZ; reflexivity). unfold Rdiv. ring.
Qed.

Lemma note_frequency_octave (j : nat) : note_frequency (j + 12) = 2 * note_frequency j.
Proof.
  unfold note_frequency. rewrite plus_INR.
  replace (INR 12) with 12 by (rewrite INR_IZR_INZ; reflexivity).
  replace ((INR j + 12 - 45) / 12) with ((INR j - 45) / 12 + 1) by field.
  rewrite Rpower_plus, Rpower_1 by lra. ring.
Qed.

Lemma note_frequency_increasing (i j : nat) : (i < j)%nat -> note_frequency i < note_frequency j.
Proof.
  intros Hij. unfold note_frequency. apply Rmult_lt_compat_l; [lra|].
  apply Rpower_lt; [lra|]. apply lt_INR in Hij. lra.
Qed.

End ShepardFacts.

(** ** Buffers returned over any entries *)

Section AnyBufferFacts.

#[local] Open Scope R_scope.

Section AnyEntryFacts.

Context {V : Type} {F : Float V} {E : Chroma.Entry V}.

Lemma any_tf_validate_length (gram : Chroma.array2 V) (frequencies : list V)
    times fs length times0 L last :
  Chroma.tf_validate gram frequencies times fs length = Ok (times0, L, last) ->
  tf_length times fs length = Ok L /\
  List.length times0 = Chroma.acols gram /\
  List.length frequencies = Chroma.anrows gram /\
  last = (float L / float fs)%Q.
Proof.
  unfold Chroma.tf_validate, tf_length, converted. intros H.
  destruct times as [t|iv]; destruct length as [l|];
    apply bind_ok in H; destruct H as (L' & HL & H);
    (destruct (negb (fs =? 0)%Z); [|discriminate]);
    apply bind_ok in H; destruct H as (times1 & _ & H);
    (destruct (_ =? Chroma.acols gram)%nat eqn:E1; [|discriminate]);
    (destruct (_ =? Chroma.anrows gram)%nat eqn:E2; [|discriminate]);
    inversion H; subst; apply Nat.eqb_eq in E1, E2; repeat split; assumption.
Qed.



End AnyEntryFacts.


End AnyBufferFacts.

(** ** Entries below the threshold *)

Section AnyQuietFacts.

#[local] Open Scope R_scope.

Section QuietEntries.

Context {V : Type} {F : Float V} {E : Chroma.Entry V}.

(** Entries that do not reach the threshold. *)
Variable threshold : Q.
Variable below : V -> Prop.
Hypothesis below_zero : below Chroma.zero.
Hypothesis below_fmax : forall a b, below a -> below b -> below (Chroma.fmax a b).
Hypothesis below_fle : forall m, below m -> Chroma.fle (of_Q threshold) m = false.

Lemma any_fold_fmax_below (l : list V) : forall a,
  below a -> Forall below l -> below (fold_left Chroma.fmax l a).
Proof.
  induction l as [|x l IH]; intros a Ha Hl; cbn [fold_left]; [exact Ha|].
  inversion Hl; subst. apply IH; [now apply below_fmax | assumption].
Qed.

Lemma any_keep_none (rs : list (list V)) (n : nat) :
  Forall (fun r => r <> []) rs -> Forall (Forall below) rs ->
  exists keep, Chroma.tf_freq_keep (Chroma.mk_array2 n rs) threshold = Ok keep /\
               Forall (fun b => b = false) keep.
Proof.
  intros Hne Hlow. unfold Chroma.tf_freq_keep. cbn [Chroma.arows].
  induction rs as [|r rs IH].
  - exists []. split; [reflexivity | constructor].
  - inversion Hne as [|? ? Hr Hne']; subst. inversion Hlow as [|? ? Hb Hlow']; subst.
    destruct (IH Hne' Hlow') as (keep & Hk & Hnone).
    apply bind_ok in Hk. destruct Hk as (ms & Hms & Hk). inversion Hk; subst keep; clear Hk.
    destruct r as [|x r]; [congruence|].
    cbn [Chroma.amax_axis1 Chroma.amax bind]. rewrite Hms. cbn [bind map].
    eexists. split; [reflexivity|]. constructor; [|exact Hnone].
    apply below_fle. inversion Hb; subst. now apply any_fold_fmax_below.
Qed.

Lemma any_normal_row_below pb pa idx (r : list V) :
  Forall below r ->
  Forall below (map (fun x => Chroma.fmax x Chroma.zero)
                  (compress idx (repeat Chroma.zero pb ++ r ++ repeat Chroma.zero pa))).
Proof.
  intros Hr. apply Forall_map. apply Forall_compress.
  assert (Hz : forall n, Forall (fun x => below (Chroma.fmax x Chroma.zero)) (repeat Chroma.zero n))
    by (intros n; apply Forall_repeat; now apply below_fmax).
  apply Forall_app. split; [apply Hz|]. apply Forall_app. split; [|apply Hz].
  eapply Forall_impl; [|exact Hr]. intros x Hx. now apply below_fmax.
Qed.

Lemma any_tf_signal_no_row n times fs L :
  exists signal, Chroma.tf_signal (V:=V) (Chroma.mk_array2 n []) times fs L = Ok signal.
Proof.
  unfold Chroma.tf_signal. cbn [Chroma.arows map Chroma.interp_rows Chroma.column0 bind].
  destruct (1 <? List.length times)%nat; eexists; reflexivity.
Qed.

Lemma any_time_frequency_quiet (gram : Chroma.array2 V) (frequencies : list V)
    times fs function length n_dec times0 L last :
  Forall (fun r => List.length r = Chroma.acols gram) (Chroma.arows gram) ->
  (1 <= Chroma.acols gram)%nat ->
  Chroma.tf_validate gram frequencies times fs length = Ok (times0, L, last) ->
  (1 <= L)%Z ->
  Forall (Forall below) (Chroma.arows gram) ->
  Chroma.time_frequency gram frequencies times fs function length n_dec threshold
  = Ok (repeat 0 (Z.to_nat L)).
Proof.
  intros Hwf Hnc Hv HL Hlow.
  destruct (any_tf_validate_length _ _ _ _ _ Hv) as (_ & Hlt & _).
  destruct (@tf_stack_ok times0 last) as (pb & pa & stacked & Hs).
  { intros E0. rewrite E0 in Hlt. cbn in Hlt. lia. }
  unfold Chroma.time_frequency. rewrite Hv. cbn [bind].
  unfold Chroma.tf_normalize. rewrite Hs. cbn [bind].
  unfold Chroma.maximum0, Chroma.select_columns, Chroma.pad_columns.
  cbn [Chroma.acols Chroma.arows]. rewrite zeros_ok by lia. cbn [bind].
  set (idx := map (overlaps last) stacked).
  destruct (count_true idx =? 0)%nat eqn:Ec; [reflexivity|]. apply Nat.eqb_neq in Ec.
  rewrite !map_map.
  set (Frow := fun r : list V => map (fun x => Chroma.fmax x Chroma.zero)
                 (compress idx (repeat Chroma.zero (if pb then 1 else 0) ++ r ++
                                repeat Chroma.zero (if pa then 1 else 0)))%nat).
  destruct (@any_keep_none (map Frow (Chroma.arows gram)) (count_true idx)) as (keep & Hk & Hnone).
  - apply Forall_map. eapply Forall_impl; [|exact Hwf]. intros r Hr. cbn beta in Hr.
    intros E0. assert (Hlen : List.length (Frow r) = count_true idx).
    { unfold Frow. rewrite length_map. apply length_compress.
      unfold idx. rewrite length_map. destruct (tf_stack_spec _ _ Hs) as (Hl & _).
      rewrite Hl, !length_app, !repeat_length. lia. }
    rewrite E0 in Hlen. cbn in Hlen. lia.
  - apply Forall_map. eapply Forall_impl; [|exact Hlow]. intros r Hr.
    now apply any_normal_row_below.
  - rewrite Hk. cbn [bind]. unfold Chroma.select_rows. cbn [Chroma.acols Chroma.arows].
    rewrite !(compress_none _ Hnone).
    destruct (any_tf_signal_no_row (count_true idx)
                (map (fun iv => (clip (fst iv) 0 last, clip (snd iv) 0 last))
                     (compress idx stacked)) fs L) as (signal & Hsig).
    rewrite Hsig. cbn [bind Chroma.tf_mix]. apply normalize_zeros. lia.
Qed.

End QuietEntries.

(** *** A chromagram below the threshold *)

Lemma shepard_gram_below (chromagram : matrix) (threshold : Q) :
  (0 < threshold)%Q -> nrows chromagram = 12%nat ->
  Forall (Forall (fun x => (x < threshold)%Q)) (rows chromagram) ->
  Forall (Forall (fun v => v < Q2R threshold)) (Chroma.arows (shepard_gram chromagram)).
Proof.
  intros Ht H12 Hlow. unfold shepard_gram. cbn [Chroma.arows].
  apply Forall_map. apply Forall_forall. intros j Hj. apply in_seq in Hj.
  assert (Hrow : In (nth (j mod 12) (rows chromagram) []) (rows chromagram)).
  { apply nth_In. unfold nrows in H12. rewrite H12. now apply Nat.mod_upper_bound. }
  rewrite Forall_forall in Hlow. specialize (Hlow _ Hrow).
  apply Forall_map. eapply Forall_impl; [|exact Hlow]. intros x Hx. cbn beta in Hx.
  apply Qlt_Rlt in Hx, Ht. rewrite RMicromega.Q2R_0 in Ht.
  destruct (shepard_range j) as [Hw0 Hw1].
  destruct (Rle_lt_dec (Q2R x) 0) as [Hneg|Hpos]; nra.
Qed.

Lemma shepard_gram_wf (chromagram : matrix) :
  wf_matrix chromagram -> nrows chromagram = 12%nat ->
  Forall (fun r => List.length r = Chroma.acols (shepard_gram chromagram))
         (Chroma.arows (shepard_gram chromagram)).
Proof.
  intros Hwf H12. unfold shepard_gram. cbn [Chroma.arows Chroma.acols].
  apply Forall_map. apply Forall_forall. intros j Hj. rewrite length_map.
  unfold wf_matrix in Hwf. rewrite Forall_forall in Hwf. apply Hwf.
  apply nth_In. unfold nrows in H12. rewrite H12. now apply Nat.mod_upper_bound.
Qed.

Lemma chroma_quiet chromagram iv fs function L n_dec threshold :
  wf_matrix chromagram -> nrows chromagram = 12%nat ->
  (1 <= ncols chromagram)%nat -> List.length iv = ncols chromagram ->
  fs <> 0%Z -> (1 <= L)%Z -> (0 < threshold)%Q ->
  Forall (Forall (fun x => (x < threshold)%Q)) (rows chromagram) ->
  Chroma.chroma chromagram (Intervals iv) fs function (Some L) n_dec threshold
  = Ok (repeat 0 (Z.to_nat L)).
Proof.
  intros Hwf H12 Hnc Hiv Hfs HL Ht Hlow.
  rewrite chroma_shepard by assumption.
  apply (@any_time_frequency_quiet R _ _ threshold (fun v => v < Q2R threshold))
    with (times0 := iv) (last := (float L / float fs)%Q).
  - unfold Chroma.zero. cbn [of_Q Float_R]. apply Qlt_Rlt in Ht.
    now rewrite RMicromega.Q2R_0 in *.
  - intros a b Ha Hb. cbn [Chroma.fmax Chroma.Entry_R]. now apply Rmax_lub_lt.
  - intros m Hm. cbn [Chroma.fle Chroma.Entry_R of_Q Float_R].
    destruct (Rle_dec (Q2R threshold) m); [lra | reflexivity].
  - now apply shepard_gram_wf.
  - exact Hnc.
  - unfold Chroma.tf_validate. cbn [bind andb].
    replace (fs =? 0)%Z with false by (symmetry; now apply Z.eqb_neq). cbn [negb].
    cbn [Chroma.acols shepard_gram]. rewrite Hiv, Nat.eqb_refl.
    reflexivity.
  - exact HL.
  - now apply shepard_gram_below.
Qed.

End AnyQuietFacts.

(** ** Where time_frequency returns, over any entries *)

Section AnyReturnFacts.

#[local] Open Scope R_scope.

Section AnyEntryReturns.

Context {V : Type} {F : Float V} {E : Chroma.Entry V}.

Lemma any_fast_synthesize_ok (frequency : V) n_dec fs function length :
  (0 <= n_dec)%Z -> (0 < fs)%Z -> (0 <= length)%Z ->
  exists wave,
    Chroma._fast_synthesize frequency n_dec fs function length = Ok wave /\
    List.length (flat_take wave length) = Z.to_nat length.
Proof.
  intros Hn Hfs Hlen.
  assert (Hpow : (0 < 10 ^ n_dec)%Z) by (apply Z.pow_pos_nonneg; lia).
  assert (Hc : (0 < 10 ^ n_dec * fs)%Z) by nia.
  unfold Chroma._fast_synthesize.
  rewrite (pow10_nonneg Hn). unfold float. rewrite int_mult_inject.
  unfold arange.
  set (cycleLen := Z.to_nat (10 ^ n_dec * fs)).
  set (short := map _ (seq 0 cycleLen)).
  assert (Hls : List.length short = cycleLen)
    by (unfold short; now rewrite length_map, length_seq).
  assert (Hlen_s : len short = (10 ^ n_dec * fs)%Z)
    by (unfold len; rewrite Hls; unfold cycleLen; lia).
  rewrite Hlen_s.
  replace ((10 ^ n_dec * fs =? 0)%Z) with false by (symmetry; apply Z.eqb_neq; lia).
  cbn [negb]. rewrite Qceiling_div by assumption.
  destruct (ceil_div_cover Hc Hlen) as [Hrep Hcov].
  set (n_repeats := (- (- length / (10 ^ n_dec * fs)))%Z) in *.
  replace (0 <=? n_repeats)%Z with true by (symmetry; now apply Z.leb_le).
  eexists; split; [reflexivity|].
  assert (Hsize : (Z.to_nat length <= Z.to_nat n_repeats * cycleLen)%nat).
  { unfold cycleLen. rewrite <- Z2Nat.inj_mul by lia. apply Z2Nat.inj_le; lia. }
  unfold flat_take.
  assert (Hfs' : flat_size (as_strided short (Z.to_nat n_repeats) (List.length short) 0 1)
                 = (Z.to_nat n_repeats * cycleLen)%nat)
    by (unfold flat_size; cbn [shape0 shape1]; now rewrite Hls).
  rewrite Hfs', Nat.min_l by lia.
  apply flat_collect_length; cbn [base shape0 shape1 stride0 stride1]; try reflexivity.
  all: rewrite ?Hfs', ?Hls; lia.
Qed.

Lemma any_convolve_same_ok (a b : list V) :
  a <> [] -> b <> [] ->
  exists c, Chroma.convolve_same a b = Ok c /\ List.length c = List.length a.
Proof.
  intros Ha Hb. unfold Chroma.convolve_same.
  destruct a as [|x a]; [congruence|]. destruct b as [|y b]; [congruence|].
  cbn [List.length Nat.eqb negb]. eexists; split; [reflexivity|].
  now rewrite length_map, length_seq.
Qed.

Lemma any_tf_mix_ok fs function L n_dec (signal : list (list V)) frequencies :
  forall n output,
  (0 <= n_dec)%Z -> (0 < fs)%Z -> (1 <= L)%Z ->
  List.length output = Z.to_nat L ->
  Forall (audible fs) frequencies ->
  (forall k, (k < List.length frequencies)%nat ->
     exists row, nth_error signal (n + k) = Some row /\ List.length row = Z.to_nat L) ->
  exists out, Chroma.tf_mix fs function L n_dec signal n frequencies output = Ok out /\
              List.length out = Z.to_nat L.
Proof.
  induction frequencies as [|frequency rest IH]; intros n output Hn Hfs HL Hout Hfreq Hrows.
  - exists output. split; [reflexivity | exact Hout].
  - inversion Hfreq as [|? ? [Hz Hp] Hrest]; subst. cbn [Chroma.tf_mix].
    destruct (@any_fast_synthesize_ok frequency n_dec fs function L Hn Hfs) as (wave & Hw & Hwl);
      [lia|].
    rewrite Hw. cbn [bind]. rewrite Hz. cbn [negb].
    replace (0 <=? 2 * Chroma.fint (fdiv (of_Q (float fs)) frequency))%Z with true
      by (symmetry; apply Z.leb_le; lia).
    destruct (Hrows 0%nat) as (row & Hrow & Hrl); [cbn; lia|].
    rewrite Nat.add_0_r in Hrow. rewrite (getitem_nth _ _ Hrow). cbn [bind].
    set (filter := map _ (arange (2 * Chroma.fint (fdiv (of_Q (float fs)) frequency)))).
    destruct (@any_convolve_same_ok row filter) as (conv & Hc & Hcl).
    { intros E0. rewrite E0 in Hrl. cbn [List.length] in Hrl. lia. }
    { intros E0. apply (f_equal (@List.length V)) in E0. unfold filter, arange in E0.
      rewrite length_map, length_seq in E0. cbn [List.length] in E0. lia. }
    rewrite Hc. cbn [bind].
    assert (Hlc : len conv = L) by (unfold len; rewrite Hcl, Hrl; lia).
    rewrite Hlc.
    destruct (@broadcast2_ok R V R (fun w s => (w * Chroma.to_R s)%R) (flat_take wave L) conv)
      as (mixed & Hm & Hml); [rewrite Hwl, Hcl, Hrl; reflexivity|].
    rewrite Hm. cbn [bind].
    destruct (@iadd_ok output mixed) as (out' & Ho & Hol);
      [rewrite Hml, Hcl, Hrl, Hout; reflexivity|].
    rewrite Ho. cbn [bind].
    apply IH; try assumption.
    + now rewrite Hol.
    + intros k Hk. replace (S n + k)%nat with (n + S k)%nat by lia. apply Hrows. cbn. lia.
Qed.

Lemma any_interp_rows_ok (x : list Q) (rs : list (list V)) (L : Z) :
  (1 <= List.length x)%nat -> Forall (fun r => List.length r = List.length x) rs ->
  exists signal, Chroma.interp_rows x rs L = Ok signal /\
    List.length signal = List.length rs /\
    Forall (fun env => List.length env = Z.to_nat L) signal.
Proof.
  intros Hx Hrs. induction Hrs as [|r rs Hr Hrs IH].
  - exists []. repeat split; constructor.
  - destruct IH as (signal & Hs & Hl & Hall). cbn [Chroma.interp_rows]. unfold interp1d.
    rewrite Hr, Nat.eqb_refl. replace (1 <=? List.length x)%nat with true
      by (symmetry; now apply Nat.leb_le).
    cbn [bind]. rewrite Hs. cbn [bind]. eexists; split; [reflexivity|]. split.
    + cbn. now rewrite Hl.
    + constructor; [|exact Hall]. unfold arange. now rewrite length_map, length_seq.
Qed.

Lemma any_amax_axis1_ok (rs : list (list V)) :
  Forall (fun r => r <> []) rs ->
  exists ms, Chroma.amax_axis1 rs = Ok ms /\ List.length ms = List.length rs.
Proof.
  induction 1 as [|r rs Hr Hrs IH].
  - exists []. split; reflexivity.
  - destruct IH as (ms & Hms & Hl). destruct r as [|x r]; [congruence|].
    cbn [Chroma.amax_axis1 Chroma.amax bind]. rewrite Hms. cbn [bind].
    eexists. split; [reflexivity|]. cbn. now rewrite Hl.
Qed.

Lemma any_time_frequency_returns (gram : Chroma.array2 V) (frequencies : list V)
    times fs function length n_dec threshold times0 L last pb pa stacked :
  Forall (fun r => List.length r = Chroma.acols gram) (Chroma.arows gram) ->
  Chroma.tf_validate gram frequencies times fs length = Ok (times0, L, last) ->
  tf_stack times0 last = Ok (pb, pa, stacked) ->
  (1 <= L)%Z -> (0 <= n_dec)%Z -> (0 < fs)%Z ->
  Forall (audible fs) frequencies ->
  (1 < count_true (map (overlaps last) stacked))%nat ->
  exists out,
    Chroma.time_frequency gram frequencies times fs function length n_dec threshold = Ok out /\
    List.length out = Z.to_nat L.
Proof.
  intros Hwf Hv Hs HL Hnd Hfs Hfreq Hmany.
  destruct (any_tf_validate_length _ _ _ _ _ Hv) as (_ & Hlt & Hlf & _).
  unfold Chroma.time_frequency. rewrite Hv. cbn [bind].
  unfold Chroma.tf_normalize. rewrite Hs. cbn [bind].
  unfold Chroma.maximum0, Chroma.select_columns, Chroma.pad_columns.
  cbn [Chroma.acols Chroma.arows]. rewrite zeros_ok by lia. cbn [bind].
  set (idx := map (overlaps last) stacked) in *.
  replace (count_true idx =? 0)%nat with false by (symmetry; apply Nat.eqb_neq; lia).
  rewrite !map_map.
  set (Frow := fun r : list V => map (fun x => Chroma.fmax x Chroma.zero)
                 (compress idx (repeat Chroma.zero (if pb then 1 else 0) ++ r ++
                                repeat Chroma.zero (if pa then 1 else 0)))%nat).
  assert (Hrow : forall r, In r (Chroma.arows gram) -> List.length (Frow r) = count_true idx).
  { intros r Hr. rewrite Forall_forall in Hwf. unfold Frow. rewrite length_map.
    apply length_compress. unfold idx. rewrite length_map.
    destruct (tf_stack_spec _ _ Hs) as (Hl & _).
    rewrite Hl, !length_app, !repeat_length, (Hwf r Hr). lia. }
  destruct (@any_amax_axis1_ok (map Frow (Chroma.arows gram))) as (ms & Hms & Hml).
  { apply Forall_map. apply Forall_forall. intros r Hr E0.
    specialize (Hrow r Hr). rewrite E0 in Hrow. cbn in Hrow. lia. }
  unfold Chroma.tf_freq_keep. cbn [Chroma.arows]. rewrite Hms. cbn [bind].
  set (keep := map (fun m => Chroma.fle (of_Q threshold) m) ms).
  assert (Hkl : List.length keep = List.length (Chroma.arows gram))
    by (unfold keep; now rewrite length_map, Hml, length_map).
  unfold Chroma.select_rows, Chroma.tf_signal. cbn [Chroma.acols Chroma.arows].
  set (times' := map (fun iv => (clip (fst iv) 0 last, clip (snd iv) 0 last))
                     (compress idx stacked)).
  assert (Htl : List.length times' = count_true idx).
  { unfold times'. rewrite length_map. apply length_compress. unfold idx. apply length_map. }
  replace (1 <? List.length times')%nat with true by (symmetry; apply Nat.ltb_lt; lia).
  destruct (@any_interp_rows_ok (map (fun t => (t * float fs)%Q) (starts times'))
              (map (firstn (List.length times')) (compress keep (map Frow (Chroma.arows gram)))) L)
    as (signal & Hsig & Hsl & Hall).
  { unfold starts. rewrite !length_map. lia. }
  { apply Forall_map. apply Forall_forall. intros r Hr.
    apply compress_incl in Hr. apply in_map_iff in Hr. destruct Hr as (r0 & <- & Hr0).
    unfold starts. rewrite !length_map, firstn_length_le; [reflexivity|].
    rewrite (Hrow r0 Hr0). lia. }
  rewrite Hsig. cbn [bind].
  assert (HK : List.length (compress keep frequencies) = count_true keep)
    by (apply length_compress; unfold Chroma.anrows in Hlf; lia).
  assert (HK' : List.length (compress keep (map Frow (Chroma.arows gram))) = count_true keep)
    by (apply length_compress; now rewrite length_map).
  destruct (@any_tf_mix_ok fs function L n_dec signal (compress keep frequencies) 0%nat
              (repeat 0 (Z.to_nat L))) as (mix & Hm & Hmixl); try assumption.
  - apply repeat_length.
  - now apply Forall_compress.
  - intros k Hk. rewrite length_map, HK' in Hsl. rewrite HK in Hk.
    destruct (nth_error signal (0 + k)) as [row|] eqn:E0.
    + exists row. split; [reflexivity|]. rewrite Forall_forall in Hall.
      eapply Hall, nth_error_In, E0.
    + apply nth_error_None in E0. cbn in E0. lia.
  - rewrite Hm. cbn [bind].
    destruct (@normalize_ok mix) as (out & Ho & Hol).
    + intros E0. rewrite E0 in Hmixl. cbn [List.length] in Hmixl. lia.
    + exists out. split; [exact Ho | lia].
Qed.

End AnyEntryReturns.

End AnyReturnFacts.

(** ** Real entries, the notes of chroma, and where chroma returns *)

Section ChromaReturnFacts.

#[local] Open Scope R_scope.

(** *** Truncation and rounding of reals *)

Lemma Int_part_unique (x : R) (z : Z) : IZR z <= x < IZR z + 1 -> Int_part x = z.
Proof.
  intros [Hlo Hhi]. destruct (base_Int_part x) as [H1 H2].
  assert (Ha : (Int_part x < z + 1)%Z) by (apply lt_IZR; rewrite plus_IZR; lra).
  assert (Hb : (z < Int_part x + 1)%Z) by (apply lt_IZR; rewrite plus_IZR; lra).
  lia.
Qed.

Lemma Int_part_Q (q : Q) : Int_part (Q2R q) = Qfloor q.
Proof.
  apply Int_part_unique. pose proof (Qfloor_le q) as Hlo. pose proof (Qlt_floor q) as Hhi.
  apply Qle_Rle in Hlo. apply Qlt_Rlt in Hhi.
  rewrite Q2R_inject_Z in Hlo, Hhi. rewrite plus_IZR in Hhi. lra.
Qed.

(** On a float read as a rational, truncation and rounding of reals are
    those of the rationals. *)
Lemma Rtrunc_Q (q : Q) : Chroma.Rtrunc (Q2R q) = int q.
Proof.
  unfold Chroma.Rtrunc. destruct (Rle_dec 0 (Q2R q)) as [H|H].
  - assert (Hq : (0 <= q)%Q) by (apply Rle_Qle; now rewrite RMicromega.Q2R_0).
    now rewrite (int_nonneg Hq), Int_part_Q.
  - assert (Hq : (q < 0)%Q) by (apply Rlt_Qlt; rewrite RMicromega.Q2R_0; lra).
    rewrite <- Q2R_opp, Int_part_Q.
    assert (Hn : (0 <= - q)%Q) by Lqa.lra.
    rewrite <- (int_nonneg Hn). destruct q as [n d]. unfold int, Qopp. cbn [Qnum Qden].
    rewrite Z.quot_opp_l by lia. lia.
Qed.

Lemma Rrint_Q (q : Q) : Chroma.Rrint (Q2R q) = rint q.
Proof.
  unfold Chroma.Rrint, rint. rewrite Int_part_Q.
  assert (E : Q2R q - IZR (Qfloor q) = Q2R (q - inject_Z (Qfloor q)))
    by now rewrite Q2R_minus, Q2R_inject_Z.
  assert (Eh : 1 / 2 = Q2R (1 # 2)) by (unfold Q2R; cbn; lra).
  rewrite E, Eh.
  destruct (Qcompare_spec (q - inject_Z (Qfloor q)) (1 # 2)) as [Hc|Hc|Hc];
    [apply Qeq_eqR in Hc | apply Qlt_Rlt in Hc | apply Qlt_Rlt in Hc];
    repeat match goal with
           | |- context [Rlt_dec ?a ?b] => destruct (Rlt_dec a b)
           end;
    try reflexivity; lra.
Qed.

Lemma Rtrunc_ge_1 (x : R) : 1 <= x -> (1 <= Chroma.Rtrunc x)%Z.
Proof.
  intros Hx. unfold Chroma.Rtrunc. destruct (Rle_dec 0 x) as [H|H]; [|lra].
  destruct (base_Int_part x) as [_ H2].
  assert (0 < Int_part x)%Z by (apply lt_IZR; lra). lia.
Qed.

(** *** The highest note *)

Lemma sixth_root_bound : Rpower 2 (1 / 6) <= 247 / 220.
Proof.
  set (a := Rpower 2 (1 / 6)).
  assert (Ha : 0 < a) by (unfold a, Rpower; apply exp_pos).
  assert (H6 : a ^ 6 = 2).
  { unfold a. rewrite <- Rpower_pow by (unfold Rpower; apply exp_pos).
    rewrite Rpower_mult. replace (1 / 6 * INR 6) with 1.
    - apply Rpower_1. lra.
    - replace (INR 6) with 6 by (rewrite INR_IZR_INZ; reflexivity). field. }
  destruct (Rle_lt_dec a (247 / 220)) as [H|H]; [exact H|].
  exfalso. assert (Hp : (247 / 220) ^ 6 <= a ^ 6) by (apply pow_incr; lra).
  rewrite H6 in Hp. assert (2 < (247 / 220) ^ 6) by (simpl; lra). lra.
Qed.

Lemma note_frequency_top (j : nat) : (j < 84)%nat -> note_frequency j <= 3952.
Proof.
  intros Hj. apply Rle_trans with (note_frequency 83).
  - destruct (Nat.eq_dec j 83) as [->|Hne]; [lra|].
    left. apply note_frequency_increasing. lia.
  - unfold note_frequency.
    replace ((INR 83 - 45) / 12) with (INR 3 + 1 / 6)
      by (replace (INR 83) with 83 by (rewrite INR_IZR_INZ; reflexivity);
          replace (INR 3) with 3 by (rewrite INR_IZR_INZ; reflexivity); field).
    rewrite Rpower_plus, Rpower_pow by lra.
    pose proof sixth_root_bound as Hb. simpl. lra.
Qed.

Lemma note_frequency_audible (fs : Z) (j : nat) :
  (3952 <= fs)%Z -> (j < 84)%nat -> audible fs (note_frequency j).
Proof.
  intros Hfs Hj. pose proof (note_frequency_pos j) as Hpos.
  pose proof (note_frequency_top Hj) as Htop.
  assert (Hfs' : 3952 <= IZR fs) by (apply IZR_le in Hfs; exact Hfs).
  split.
  - cbn [Chroma.fzero Chroma.Entry_R]. destruct (Req_dec_T _ 0); [lra | reflexivity].
  - cbn [Chroma.fint Chroma.Entry_R fdiv of_Q Float_R]. apply Rtrunc_ge_1.
    unfold float. rewrite Q2R_inject_Z.
    apply (Rmult_le_reg_r (note_frequency j)); [exact Hpos|].
    unfold Rdiv. rewrite Rmult_assoc, Rinv_l by lra. lra.
Qed.

(** *** Intervals inside the buffer *)

Lemma count_true_app (a b : list bool) : count_true (a ++ b) = (count_true a + count_true b)%nat.
Proof. unfold count_true. now rewrite filter_app, length_app. Qed.

Lemma count_true_all {A} (p : A -> bool) (l : list A) :
  Forall (fun x => p x = true) l -> count_true (map p l) = List.length l.
Proof.
  induction 1 as [|x l Hx Hl IH]; [reflexivity|].
  unfold count_true in *. cbn [map filter]. rewrite Hx. cbn [List.length]. now rewrite IH.
Qed.

Lemma stacked_inside (iv : list (Q * Q)) (last : Q) :
  iv <> [] -> Forall (fun i => (0 <= snd i)%Q /\ (fst i <= last)%Q) iv ->
  exists pb pa stacked,
    tf_stack iv last = Ok (pb, pa, stacked) /\
    (List.length iv <= count_true (map (overlaps last) stacked))%nat.
Proof.
  intros Hne Hin. destruct (tf_stack_ok last Hne) as (pb & pa & stacked & Hs).
  exists pb, pa, stacked. split; [exact Hs|].
  unfold tf_stack in Hs. apply bind_ok in Hs. destruct Hs as (tmin & _ & Hs).
  apply bind_ok in Hs. destruct Hs as (tmax & _ & Hs). inversion Hs; subst; clear Hs.
  rewrite !map_app, !count_true_app.
  rewrite (@count_true_all _ (overlaps last) iv).
  - lia.
  - eapply Forall_impl; [|exact Hin]. intros i [H1 H2]. unfold overlaps.
    apply andb_true_intro. split; now apply Qle_bool_iff.
Qed.

Lemma chroma_returns chromagram iv fs function L n_dec threshold :
  wf_matrix chromagram -> nrows chromagram = 12%nat ->
  List.length iv = ncols chromagram -> (2 <= List.length iv)%nat ->
  Forall (fun i => (0 <= snd i)%Q /\ (fst i <= float L / float fs)%Q) iv ->
  (3952 <= fs)%Z -> (1 <= L)%Z -> (0 <= n_dec)%Z ->
  exists out,
    Chroma.chroma chromagram (Intervals iv) fs function (Some L) n_dec threshold = Ok out /\
    List.length out = Z.to_nat L.
Proof.
  intros Hwf H12 Hiv H2 Hin Hfs HL Hnd.
  rewrite chroma_shepard by assumption.
  destruct (@stacked_inside iv (float L / float fs)%Q) as (pb & pa & stacked & Hs & Hcount).
  { intros E0. rewrite E0 in H2. cbn in H2. lia. }
  { exact Hin. }
  apply (@any_time_frequency_returns R _ _ (shepard_gram chromagram)
           (map note_frequency (seq 0 84)) (Intervals iv) fs function (Some L) n_dec threshold
           iv L (float L / float fs)%Q pb pa stacked).
  - now apply shepard_gram_wf.
  - unfold Chroma.tf_validate. cbn [bind andb].
    replace (fs =? 0)%Z with false by (symmetry; apply Z.eqb_neq; lia). cbn [negb].
    cbn [Chroma.acols shepard_gram]. rewrite Hiv, Nat.eqb_refl. reflexivity.
  - exact Hs.
  - exact HL.
  - exact Hnd.
  - lia.
  - apply Forall_map. apply Forall_forall. intros j Hj. apply in_seq in Hj.
    apply note_frequency_audible; [exact Hfs | lia].
  - lia.
Qed.

End ChromaReturnFacts.

(** * Further properties *)

Section Further.

#[local] Open Scope R_scope.

(** ** clicks *)



(** X2.  With a sampling rate that is not negative, a length that is not
    negative and times that are not negative, [clicks] never raises: it
    returns a buffer of [length] samples. *)
Theorem clicks_nonnegative_times_return times fs click length :
  (0 <= fs)%Z -> (0 <= length)%Z -> Forall (fun t => (0 <= t)%Q) times ->
  exists out, clicks times fs click (Some length) = Ok out /\
    List.length out = Z.to_nat length /\
    Forall (fun x => x = 0 \/ In x (click_of fs click)) out.
Proof.
  intros. now apply clicks_nonnegative_total.
Qed.

Lemma clicks_nonnegative_times_return_witness :
  exists out, clicks [3 # 5; 1 # 2; 2%Q] 10 (Some [1; 2; 3]) (Some 8%Z) = Ok out /\
    List.length out = Z.to_nat 8 /\
    Forall (fun x => x = 0 \/ In x (click_of 10 (Some [1; 2; 3]))) out.
Proof.
  apply (@clicks_nonnegative_times_return [3 # 5; 1 # 2; 2%Q] 10 (Some [1; 2; 3]) 8%Z).
  - lia.
  - lia.
  - repeat constructor; unfold Qle; cbn; lia.
Defined.



(** X4.  A click that starts before sample 0 and reaches sample 0 or beyond
    makes [clicks] raise, when the click has at least two samples and the
    buffer at least one: the slice it is assigned to is shorter than the
    click. *)
Theorem clicks_negative_time_straddling_raises
    times_before time times_after fs click length :
  let c := click_of fs click in
  let s := click_start fs time in
  Forall (fits fs c length) times_before ->
  (s < 0)%Z -> (0 <= s + len c)%Z -> (1 <= length)%Z -> (2 <= len c)%Z ->
  clicks (times_before ++ time :: times_after) fs click (Some length)
  = Error BroadcastError.
Proof.
  intros. now apply clicks_negative_straddle.
Qed.

Lemma clicks_negative_time_straddling_raises_witness :
  clicks ([] ++ (- (1 # 10))%Q :: [1 # 2]) 10 (Some [1; 2; 3]) (Some 8%Z)
  = Error BroadcastError.
Proof.
  apply (@clicks_negative_time_straddling_raises [] (- (1 # 10))%Q [1 # 2] 10
           (Some [1; 2; 3]) 8%Z).
  - constructor.
  - apply Z.ltb_lt. reflexivity.
  - apply Z.leb_le. reflexivity.
  - lia.
  - apply Z.leb_le. reflexivity.
Defined.

(** X5.  Every sample [k] of the default click is bounded in magnitude by
    the decaying envelope [exp(-100 k / fs)], which is at most 1; its first
    sample is 0. *)
Theorem default_click_decays fs k :
  (0 < fs)%Z -> (k < List.length (default_click fs))%nat ->
  Rabs (nth k (default_click fs) 0) <= exp (- (100 * INR k / IZR fs)) /\
  exp (- (100 * INR k / IZR fs)) <= 1 /\
  nth 0 (default_click fs) 0 = 0.
Proof.
  intros Hfs Hk. destruct (default_click_envelope Hfs Hk) as [H1 H2].
  split; [exact H1|]. split; [exact H2|].
  apply default_click_first. intros E. rewrite E in Hk. cbn in Hk. lia.
Qed.

Lemma default_click_decays_witness :
  Rabs (nth 1 (default_click 8000) 0) <= exp (- (100 * INR 1 / IZR 8000)) /\
  exp (- (100 * INR 1 / IZR 8000)) <= 1 /\
  nth 0 (default_click 8000) 0 = 0.
Proof.
  apply (@default_click_decays 8000 1%nat).
  - lia.
  - rewrite default_click_length_8000. lia.
Defined.

(** X6.  With the default click and [fs > 0], every sample [clicks] returns
    lies in [-1, 1]. *)
Theorem default_clicks_within_unit_range times fs length out :
  (0 < fs)%Z -> clicks times fs None length = Ok out ->
  Forall (fun x => Rabs x <= 1) out.
Proof.
  intros. eapply clicks_default_unit; eassumption.
Qed.

Lemma default_clicks_within_unit_range_witness :
  exists out, clicks [1 # 2] 8000 None None = Ok out /\ Forall (fun x => Rabs x <= 1) out.
Proof.
  destruct clicks_half_second as (out & Hout & _).
  exists out. split; [exact Hout|].
  apply (@default_clicks_within_unit_range [1 # 2] 8000 None out); [lia | exact Hout].
Defined.

(** X7.  When every click fits in the buffer and no two clicks overlap
    (they start at the same sample or lie apart), the order of the times
    does not matter: every permutation of [times] gives the same buffer. *)
Theorem clicks_order_irrelevant_when_disjoint times times' fs click length :
  (0 <= length)%Z -> Permutation times times' ->
  Forall (fits fs (click_of fs click) length) times ->
  disjoint_clicks fs (len (click_of fs click)) times ->
  exists out,
    clicks times fs click (Some length) = Ok out /\
    clicks times' fs click (Some length) = Ok out.
Proof.
  intros. now apply clicks_disjoint_permutation.
Qed.

Lemma clicks_order_irrelevant_when_disjoint_witness :
  exists out,
    clicks [1 # 10; 1 # 2] 10 (Some [1; 2; 3]) (Some 12%Z) = Ok out /\
    clicks [1 # 2; 1 # 10] 10 (Some [1; 2; 3]) (Some 12%Z) = Ok out.
Proof.
  apply (@clicks_order_irrelevant_when_disjoint [1 # 10; 1 # 2] [1 # 2; 1 # 10] 10
           (Some [1; 2; 3]) 12%Z).
  - lia.
  - apply perm_swap.
  - repeat constructor; vm_compute; congruence.
  - intros t u [<-|[<-|[]]] [<-|[<-|[]]]; vm_compute; intuition congruence.
Defined.

(** ** _fast_synthesize *)

(** X8.  [_fast_synthesize] raises ZeroDivisionError exactly when the cycle
    would have no sample ([10**n_dec * fs < 1]); otherwise, with [n] the
    number of samples of the cycle, it raises for [length <= -n] (a negative
    number of repetitions) and returns for [length > -n].  The view it
    returns repeats the one cycle of [n] samples: it has no row for
    [length <= 0], else the least number of rows that covers [length]
    samples, and item [i] of the view is item [i mod n] of the cycle. *)
Theorem fast_synthesize_domain frequency n_dec fs function length :
  let n := int (pow10 n_dec * float fs) in
  ((pow10 n_dec * float fs < 1)%Q ->
     _fast_synthesize frequency n_dec fs function length = Error ZeroDivisionError) /\
  ((1 <= pow10 n_dec * float fs)%Q -> (length <= - n)%Z ->
     _fast_synthesize frequency n_dec fs function length = Error NegativeDimensions) /\
  ((1 <= pow10 n_dec * float fs)%Q -> (- n < length)%Z ->
     exists wave,
       _fast_synthesize frequency n_dec fs function length = Ok wave /\
       List.length (base wave) = Z.to_nat n /\
       shape1 wave = Z.to_nat n /\
       ((length <= 0)%Z -> shape0 wave = 0%nat) /\
       ((0 < length)%Z ->
          (Z.of_nat (shape0 wave - 1) * n < length <= Z.of_nat (shape0 wave) * n)%Z) /\
       (forall i, (i < flat_size wave)%nat ->
          flat_get wave i = nth_error (base wave) (i mod Z.to_nat n))).
Proof.
  apply fast_synthesize_cases.
Qed.

Lemma fast_synthesize_domain_witness :
  _fast_synthesize 440 (-1) 5 sin 100 = Error ZeroDivisionError /\
  _fast_synthesize 440 1 8 sin (-80) = Error NegativeDimensions /\
  exists wave,
    _fast_synthesize 440 1 8 sin 200 = Ok wave /\
    List.length (base wave) = 80%nat /\ shape0 wave = 3%nat /\
    flat_get wave 173 = nth_error (base wave) 13.
Proof.
  split; [|split].
  - apply (proj1 (fast_synthesize_domain 440 (-1) 5 sin 100)). reflexivity.
  - apply (proj1 (proj2 (fast_synthesize_domain 440 1 8 sin (-80)))).
    + discriminate.
    + apply Z.leb_le. reflexivity.
  - destruct (proj2 (proj2 (fast_synthesize_domain 440 1 8 sin 200)))
      as (wave & Hw & Hb & Hs1 & _ & Hrep & Hget).
    + discriminate.
    + apply Z.ltb_lt. reflexivity.
    + assert (Hs0 : shape0 wave = 3%nat).
      { specialize (Hrep ltac:(lia)). change (int (pow10 1 * float 8)) with 80%Z in Hrep. lia. }
      exists wave. split; [exact Hw|]. split; [exact Hb|]. split; [exact Hs0|].
      apply (Hget 173%nat). unfold flat_size. rewrite Hs0, Hs1. apply Nat.ltb_lt. reflexivity.
Defined.

(** X9.  For [n_dec >= 0] the cycle is sampled at a frequency that is a whole
    number of units of the [n_dec]-th decimal place and differs from the
    requested one by at most half such a unit: sample [r] of the cycle is
    [function (2*pi * r * fq / fs)] with [|fq - frequency| <= 0.5 / 10^n_dec]. *)
Theorem fast_synthesize_frequency_error frequency n_dec fs function length :
  (0 <= n_dec)%Z -> (0 < fs)%Z -> (0 <= length)%Z ->
  exists wave fq,
    _fast_synthesize frequency n_dec fs function length = Ok wave /\
    (Qabs (fq - frequency) <= (1 # 2) / pow10 n_dec)%Q /\
    (exists m : Z, (fq * pow10 n_dec == inject_Z m)%Q) /\
    List.length (base wave) = Z.to_nat (10 ^ n_dec * fs) /\
    forall r, (r < Z.to_nat (10 ^ n_dec * fs))%nat ->
      nth_error (base wave) r = Some (function (2 * PI * INR r * Q2R fq / IZR fs)).
Proof.
  intros. now apply fast_synthesize_frequency.
Qed.

Lemma fast_synthesize_frequency_error_witness :
  exists wave fq,
    _fast_synthesize (44026 # 100) 1 8 sin 200 = Ok wave /\
    (Qabs (fq - (44026 # 100)) <= (1 # 2) / pow10 1)%Q /\
    nth_error (base wave) 3 = Some (sin (2 * PI * INR 3 * Q2R fq / IZR 8)).
Proof.
  destruct (@fast_synthesize_frequency_error (44026 # 100) 1 8 sin 200)
    as (wave & fq & Hw & He & _ & _ & Hr); [lia | lia | lia |].
  exists wave, fq. split; [exact Hw|]. split; [exact He|].
  apply Hr. apply Nat.ltb_lt. reflexivity.
Defined.

(** ** time_frequency *)





(** X12.  Negative magnitudes are silence: replacing every negative entry
    of [gram] by 0 changes nothing, neither the buffer returned nor the
    error raised. *)
Theorem time_frequency_negative_magnitudes
    gram frequencies times fs function length n_dec threshold :
  time_frequency (maximum0 gram) frequencies times fs function length n_dec threshold
  = time_frequency gram frequencies times fs function length n_dec threshold.
Proof.
  apply time_frequency_clips_negative.
Qed.

(** X13.  A frequency row whose magnitudes are all below a positive
    threshold does not contribute: removing the row from [gram] and its
    frequency from [frequencies] changes nothing, neither the buffer
    returned nor the error raised. *)
Theorem time_frequency_quiet_row_dropped
    nc rows1 r rows2 f1 f f2 times fs function length n_dec threshold :
  List.length rows1 = List.length f1 -> List.length r = nc ->
  (0 < threshold)%Q -> Forall (fun x => (x < threshold)%Q) r ->
  time_frequency (mk_matrix nc (rows1 ++ r :: rows2)) (f1 ++ f :: f2) times fs
                 function length n_dec threshold
  = time_frequency (mk_matrix nc (rows1 ++ rows2)) (f1 ++ f2) times fs
                   function length n_dec threshold.
Proof.
  intros. now apply time_frequency_drops_quiet_row.
Qed.

Lemma time_frequency_quiet_row_dropped_witness :
  time_frequency (mk_matrix 1 ([[1%Q]] ++ [1 # 1000] :: [])) ([1%Q] ++ 2%Q :: []) tone_times 4
                 sin (Some 4%Z) 1 (1 # 100)
  = time_frequency (mk_matrix 1 ([[1%Q]] ++ [])) ([1%Q] ++ []) tone_times 4
                   sin (Some 4%Z) 1 (1 # 100).
Proof.
  apply (@time_frequency_quiet_row_dropped 1 [[1%Q]] [1 # 1000] [] [1%Q] 2%Q [] tone_times 4
           sin (Some 4%Z) 1 (1 # 100)).
  - reflexivity.
  - reflexivity.
  - reflexivity.
  - repeat constructor.
Defined.



(** X15.  Time stamps are read as intervals.  With one time stamp more than
    [gram] has columns, the call is the call on the consecutive intervals
    [(t[i], t[i+1])].  With as many time stamps as columns (at least two)
    and a given length [L], it is the call on those intervals followed by
    the trailing interval [(max(t), L / fs)]. *)
Theorem time_frequency_timestamps_as_intervals
    gram frequencies t fs function n_dec threshold :
  (List.length t = S (ncols gram) ->
   forall length,
     time_frequency gram frequencies (Timestamps t) fs function length n_dec threshold
     = time_frequency gram frequencies (Intervals (converted (Timestamps t))) fs function
                      length n_dec threshold) /\
  (List.length t = ncols gram -> (2 <= ncols gram)%nat ->
   forall L m, amax (entries (converted (Timestamps t))) = Ok m ->
     time_frequency gram frequencies (Timestamps t) fs function (Some L) n_dec threshold
     = time_frequency gram frequencies
         (Intervals (converted (Timestamps t) ++ [(m, (float L / float fs)%Q)]))
         fs function (Some L) n_dec threshold).
Proof.
  apply time_frequency_timestamps.
Qed.

Lemma time_frequency_timestamps_as_intervals_witness :
  time_frequency step_gram [1%Q] (Timestamps [0%Q; 1%Q]) 4 sin (Some 8%Z) 1 (1 # 100)
  = time_frequency step_gram [1%Q] (Intervals ([(0%Q, 1%Q)] ++ [(1%Q, (float 8 / float 4)%Q)]))
                   4 sin (Some 8%Z) 1 (1 # 100).
Proof.
  apply (proj2 (time_frequency_timestamps_as_intervals step_gram [1%Q] [0%Q; 1%Q] 4 sin 1
                  (1 # 100))).
  - reflexivity.
  - cbn. lia.
  - reflexivity.
Defined.

(** X16.  A kept row at 0 Hz makes [time_frequency] raise: when an interval
    survives and one of the frequencies of the kept rows is 0, no buffer is
    returned ([int(fs / frequency)] is then [int(inf)]). *)
Theorem time_frequency_zero_hertz_raises
    gram frequencies times fs function length n_dec threshold times0 L last g times' keep :
  tf_validate gram frequencies times fs length = Ok (times0, L, last) ->
  tf_normalize gram times0 last = Ok (g, times') ->
  ncols g <> 0%nat ->
  tf_freq_keep g threshold = Ok keep ->
  (exists f, In f (compress keep frequencies) /\ (f == 0)%Q) ->
  exists e, time_frequency gram frequencies times fs function length n_dec threshold = Error e.
Proof.
  intros. eapply time_frequency_zero_frequency; eassumption.
Qed.

Lemma time_frequency_zero_hertz_raises_witness :
  exists e, time_frequency tone_gram [0%Q] tone_times 4 sin (Some 4%Z) 1 (1 # 100) = Error e.
Proof.
  apply (@time_frequency_zero_hertz_raises tone_gram [0%Q] tone_times 4 sin (Some 4%Z) 1
           (1 # 100) [(0%Q, 1%Q)] 4 (4 # 4) tone_gram [(0%Q, 4 # 4)] [true]).
  - reflexivity.
  - reflexivity.
  - discriminate.
  - reflexivity.
  - exists 0%Q. split; [now left | reflexivity].
Defined.

(** X17.  An input without an interval never gives a buffer: fewer than two
    time stamps, or an empty array of intervals, make [time_frequency]
    raise.  When the sampling rate is not 0, the frequencies match the rows,
    and an empty array of intervals comes with a grid of no column, the
    error is that of a maximum or minimum taken of an empty array. *)
Theorem time_frequency_without_interval_raises
    gram frequencies times fs function length n_dec threshold :
  converted times = [] ->
  (exists e, time_frequency gram frequencies times fs function length n_dec threshold = Error e) /\
  (fs <> 0%Z -> List.length frequencies = nrows gram ->
   (forall iv, times = Intervals iv -> ncols gram = 0%nat) ->
   time_frequency gram frequencies times fs function length n_dec threshold
   = Error ZeroSizeReduction).
Proof.
  intros. now apply time_frequency_no_interval_raises.
Qed.

Lemma time_frequency_without_interval_raises_witness :
  time_frequency (mk_matrix 0 [[]]) [1%Q] (Intervals []) 4 sin (Some 4%Z) 1 (1 # 100)
  = Error ZeroSizeReduction.
Proof.
  apply (proj2 (@time_frequency_without_interval_raises (mk_matrix 0 [[]]) [1%Q] (Intervals [])
                  4 sin (Some 4%Z) 1 (1 # 100) eq_refl)).
  - discriminate.
  - reflexivity.
  - reflexivity.
Defined.



(** ** pitch_contour *)

(** X19.  [pitch_contour] returns exactly when its length is defined (given,
    or [times] is not empty), there is one frequency per time and at least
    one time, and the amplitudes fit: one per time when they are given, a
    length that is not negative when they are not.  In every other case it
    raises. *)
Theorem pitch_contour_returns_exactly_when
    times frequencies fs amplitudes function length kind :
  (exists out, pitch_contour times frequencies fs amplitudes function length kind = Ok out) <->
  (exists L, resolve_length times fs length = Ok L /\
             List.length times = List.length frequencies /\ times <> [] /\
             amplitudes_fit times amplitudes L).
Proof.
  apply pitch_contour_returns_iff.
Qed.



(** X21.  The output never exceeds the amplitude: for a [function] bounded
    by 1 in magnitude, every sample [pitch_contour] returns is bounded by 1
    when no amplitudes are given, and by any bound [A] of the magnitudes of
    the given amplitudes (for linear interpolation: with [fs > 0] and
    strictly increasing times). *)
Theorem pitch_contour_amplitude_bound
    times frequencies fs amplitudes function length kind A out :
  pitch_contour times frequencies fs amplitudes function length kind = Ok out ->
  (forall x, Rabs (function x) <= 1) ->
  match amplitudes with
  | None => A = 1
  | Some a => 0 <= A /\ Forall (fun v => Rabs (Q2R v) <= A) a /\
              (kind = Linear -> (0 < fs)%Z /\ Sorted Qlt times)
  end ->
  Forall (fun v => Rabs v <= A) out.
Proof.
  intros. eapply pitch_contour_bound; eassumption.
Qed.

Lemma sin_bounded (x : R) : Rabs (sin x) <= 1.
Proof. apply Rabs_le. destruct (SIN_bound x). lra. Qed.

Lemma pitch_contour_amplitude_bound_witness :
  exists out,
    pitch_contour [1 # 2; 1%Q] [Finite 1; Finite 1] 4 (Some [1%Q; 1%Q]) sin (Some 4%Z) Linear
      = Ok out /\
    Forall (fun v => Rabs v <= 1) out.
Proof.
  destruct contour_phase_example as (out & Hout & _).
  exists out. split; [exact Hout|].
  apply (@pitch_contour_amplitude_bound [1 # 2; 1%Q] [Finite 1; Finite 1] 4 (Some [1%Q; 1%Q])
           sin (Some 4%Z) Linear 1 out Hout sin_bounded).
  split; [lra|]. split.
  - repeat constructor; rewrite RMicromega.Q2R_1, Rabs_R1; lra.
  - intros _. split; [lia | exact sorted_half_1].
Defined.

(** ** chroma *)

(** X22.  [chroma] raises unless the chromagram has exactly 12 rows: the 7
    stacked copies of it must have the 84 rows of the Shepard weights, and
    for any other number of rows the weighting cannot be broadcast. *)
Theorem chroma_needs_twelve_rows chromagram times fs function length n_dec threshold :
  nrows chromagram <> 12%nat ->
  Chroma.chroma chromagram times fs function length n_dec threshold = Error BroadcastError.
Proof.
  intros. now apply chroma_rows_mismatch.
Qed.

Lemma chroma_needs_twelve_rows_witness :
  Chroma.chroma tone_gram tone_times 8000 sin (Some 8000%Z) 1 (1 # 100)
  = Error BroadcastError.
Proof.
  apply (@chroma_needs_twelve_rows tone_gram tone_times 8000 sin (Some 8000%Z) 1 (1 # 100)).
  discriminate.
Defined.

(** X23.  For a rectangular chromagram of 12 rows, [chroma] is
    [time_frequency] on the Shepard tone-gram: 84 rows, row [j] being row
    [j mod 12] of the chromagram multiplied by the weight
    [exp(-(j - 48)^2 / 72)], at the frequency [440 * 2^((j - 45) / 12)].  The
    weights lie in (0, 1], equal 1 at row 48 and are symmetric around it;
    the frequencies increase, row 45 is 440 Hz, and 12 rows up the frequency
    doubles. *)
Theorem chroma_is_shepard_tone_gram :
  (forall chromagram times fs function length n_dec threshold,
     wf_matrix chromagram -> nrows chromagram = 12%nat ->
     Chroma.chroma chromagram times fs function length n_dec threshold
     = Chroma.time_frequency (shepard_gram chromagram) (map note_frequency (seq 0 84))
         times fs function length n_dec threshold) /\
  (forall j, 0 < shepard j <= 1) /\
  shepard 48 = 1 /\
  (forall k, (k <= 48)%nat -> shepard (48 + k) = shepard (48 - k)) /\
  note_frequency 45 = 440 /\
  (forall j, note_frequency (j + 12) = 2 * note_frequency j) /\
  (forall i j, (i < j)%nat -> note_frequency i < note_frequency j).
Proof.
  split; [intros; now apply chroma_shepard|].
  split; [exact shepard_range|].
  split; [exact shepard_peak|].
  split; [exact shepard_symmetric|].
  split; [exact note_frequency_a4|].
  split; [exact note_frequency_octave | exact note_frequency_increasing].
Qed.

Lemma chroma_is_shepard_tone_gram_witness :
  Chroma.chroma two_chords (Intervals [(0%Q, 1%Q); (1%Q, 2%Q)]) 8000 sin None 1 (1 # 100)
  = Chroma.time_frequency (shepard_gram two_chords) (map note_frequency (seq 0 84))
      (Intervals [(0%Q, 1%Q); (1%Q, 2%Q)]) 8000 sin None 1 (1 # 100).
Proof.
  apply (proj1 chroma_is_shepard_tone_gram).
  - repeat constructor.
  - reflexivity.
Defined.




(** X25.  A chromagram in which no entry reaches a positive threshold gives
    silence: with 12 rows, one interval per column (at least one), a
    sampling rate that is not 0 and [L >= 1], [chroma] returns [L] zeros.
    The Shepard weights are at most 1 and cannot lift an entry to the
    threshold. *)
Theorem chroma_quiet_is_silent chromagram iv fs function L n_dec threshold :
  wf_matrix chromagram -> nrows chromagram = 12%nat ->
  (1 <= ncols chromagram)%nat -> List.length iv = ncols chromagram ->
  fs <> 0%Z -> (1 <= L)%Z -> (0 < threshold)%Q ->
  Forall (Forall (fun x => (x < threshold)%Q)) (rows chromagram) ->
  Chroma.chroma chromagram (Intervals iv) fs function (Some L) n_dec threshold
  = Ok (repeat 0 (Z.to_nat L)).
Proof.
  intros. now apply chroma_quiet.
Qed.

Lemma chroma_quiet_is_silent_witness :
  Chroma.chroma (mk_matrix 1 (repeat [1 # 1000] 12)) (Intervals [(0%Q, 1%Q)]) 8000 sin
                (Some 8000%Z) 1 (1 # 100)
  = Ok (repeat 0 (Z.to_nat 8000)).
Proof.
  apply (@chroma_quiet_is_silent (mk_matrix 1 (repeat [1 # 1000] 12)) [(0%Q, 1%Q)] 8000 sin
           8000 1 (1 # 100)).
  - repeat constructor.
  - reflexivity.
  - cbn. lia.
  - reflexivity.
  - discriminate.
  - lia.
  - reflexivity.
  - repeat constructor.
Defined.

(** X26.  With a sampling rate of at least 3952 Hz [chroma] returns a buffer
    of [L] samples: for a rectangular chromagram of 12 rows, at least two
    intervals, one per column, each overlapping [0, L/fs], [L >= 1] and
    [n_dec >= 0].  At such a rate every note of the Shepard tone-gram, up to
    the highest one of about 3951 Hz, has a period of at least one sample. *)
Theorem chroma_returns_from_3952_hertz chromagram iv fs function L n_dec threshold :
  wf_matrix chromagram -> nrows chromagram = 12%nat ->
  List.length iv = ncols chromagram -> (2 <= List.length iv)%nat ->
  Forall (fun i => (0 <= snd i)%Q /\ (fst i <= float L / float fs)%Q) iv ->
  (3952 <= fs)%Z -> (1 <= L)%Z -> (0 <= n_dec)%Z ->
  exists out,
    Chroma.chroma chromagram (Intervals iv) fs function (Some L) n_dec threshold = Ok out /\
    List.length out = Z.to_nat L.
Proof.
  intros. now apply chroma_returns.
Qed.

Lemma chroma_returns_from_3952_hertz_witness :
  exists out,
    Chroma.chroma two_chords (Intervals [(0%Q, 1%Q); (1%Q, 2%Q)]) 8000 sin (Some 16000%Z) 1
                  (1 # 100) = Ok out /\
    List.length out = Z.to_nat 16000.
Proof.
  apply (@chroma_returns_from_3952_hertz two_chords [(0%Q, 1%Q); (1%Q, 2%Q)] 8000 sin 16000 1
           (1 # 100)).
  - repeat constructor.
  - reflexivity.
  - reflexivity.
  - cbn. lia.
  - repeat constructor; unfold Qle; cbn; lia.
  - lia.
  - lia.
  - lia.
Defined.

End Further.
